(** * MyBustub: LRU-K replacer, extendible hash table and B+-tree index

    A shallow embedding of the storage-engine core of the repository
    ([src/buffer/lru_k_replacer.cpp],
    [src/container/hash/extendible_hash_table.cpp],
    [src/storage/index/b_plus_tree.cpp],
    [src/storage/index/index_iterator.cpp]) together with the properties the
    design document states about it.

    Conventions.  A C++ member function that mutates [*this] becomes a
    function from the object's state to its new state; a function that can
    throw, or dereference a null pointer, returns an [option] or an explicit
    outcome.  Unsigned 64-bit counters ([size_t]) are integers reduced modulo
    [2^64]; casts to [int] are written out.  The mutexes ([latch_]) are not
    part of the model: every operation is taken as one atomic step. *)

From stdpp Require Import gmap strings list sorting.
From Stdlib Require Import ZArith Lia.

(** ** Machine integers *)

(** [size_t] arithmetic: the result of [x + 1] and [x - 1] on a 64-bit
    unsigned counter. *)
Definition wrap64 (x : Z) : Z := (x mod 2 ^ 64)%Z.

(** [static_cast<int>(x)] and [static_cast<frame_id_t>(x)] for a [size_t]
    [x]: the low 32 bits, read as a signed number. *)
Definition to_int (x : Z) : Z := ((x + 2 ^ 31) mod 2 ^ 32 - 2 ^ 31)%Z.

(** * The LRU-K replacer *)

Module LRUK.

Local Open Scope Z_scope.

Definition frame_id_t := Z.

(** [kth_timestamp]: a frame with the front of its history. *)
Definition kth_timestamp : Type := frame_id_t * Z.

(** The members of [LRUKReplacer].  The three [unordered_map]s are read with
    [operator[]] only, so a missing key reads as the default value ([0], the
    empty list, [false]).  [less_k_map_] and [k_map_] hold, for every frame of
    [lru_less_k_] and [lru_k_], the iterator of its node; the model finds the
    node by the frame id instead and keeps no copy of these two maps.  A
    frame is in [k_map_] whenever the source erases through it provided
    [k_ >= 2]; with [k_ = 1] the source erases through an iterator it never
    stored, which the model does not cover. *)
Record LRUKReplacer := mkReplacer {
  current_timestamp_ : Z;
  curr_size_ : Z;
  replacer_size_ : Z;
  max_size_ : Z;
  k_ : Z;
  access_times_ : gmap Z Z;
  history_list_ : gmap Z (list Z);
  evictable_ : gmap Z bool;
  lru_less_k_ : list frame_id_t;
  lru_k_ : list kth_timestamp
}.

(** [LRUKReplacer::LRUKReplacer(num_frames, k)]. *)
Definition new (num_frames k : Z) : LRUKReplacer :=
  {| current_timestamp_ := 0; curr_size_ := 0;
     replacer_size_ := num_frames; max_size_ := num_frames; k_ := k;
     access_times_ := ∅; history_list_ := ∅; evictable_ := ∅;
     lru_less_k_ := []; lru_k_ := [] |}.

Definition get_access (s : LRUKReplacer) (f : frame_id_t) : Z :=
  default 0 (access_times_ s !! f).
Definition get_history (s : LRUKReplacer) (f : frame_id_t) : list Z :=
  default [] (history_list_ s !! f).
Definition get_evictable (s : LRUKReplacer) (f : frame_id_t) : bool :=
  default false (evictable_ s !! f).

(** [std::list::remove(value)]: drops every node equal to [value]. *)
Definition list_remove (f : frame_id_t) (l : list frame_id_t) : list frame_id_t :=
  filter (λ g, g ≠ f) l.

(** [lru_less_k_.erase(less_k_map_[f])]: drops the node of frame [f]. *)
Fixpoint erase_frame (f : frame_id_t) (l : list frame_id_t) : list frame_id_t :=
  match l with
  | [] => []
  | g :: l' => if bool_decide (g = f) then l' else g :: erase_frame f l'
  end.

(** [lru_k_.erase(k_map_[f])]: drops the node of frame [f]. *)
Fixpoint erase_kth (f : frame_id_t) (l : list kth_timestamp) : list kth_timestamp :=
  match l with
  | [] => []
  | e :: l' => if bool_decide (e.1 = f) then l' else e :: erase_kth f l'
  end.

(** The first loop of [Evict]: the first evictable frame met from
    [rbegin()] to [rend()]. *)
Fixpoint scan_young (ev : frame_id_t → bool) (rev_young : list frame_id_t)
  : option frame_id_t :=
  match rev_young with
  | [] => None
  | f :: rest => if ev f then Some f else scan_young ev rest
  end.

(** The second loop of [Evict]: the first evictable entry from [begin()],
    returned with the list after [erase(it)]. *)
Fixpoint scan_mature (ev : frame_id_t → bool) (l : list kth_timestamp)
  : option (frame_id_t * list kth_timestamp) :=
  match l with
  | [] => None
  | e :: rest =>
      if ev e.1 then Some (e.1, rest)
      else match scan_mature ev rest with
           | Some (f, rest') => Some (f, e :: rest')
           | None => None
           end
  end.

(** [Evict(&frame_id)]: the victim, if any, and the new state. *)
Definition Evict (s : LRUKReplacer) : option frame_id_t * LRUKReplacer :=
  if curr_size_ s =? 0 then (None, s)
  else
    match scan_young (get_evictable s) (reverse (lru_less_k_ s)) with
    | Some f =>
        (Some f,
         {| current_timestamp_ := current_timestamp_ s;
            curr_size_ := wrap64 (curr_size_ s - 1);
            replacer_size_ := replacer_size_ s;
            max_size_ := max_size_ s;
            k_ := k_ s;
            access_times_ := <[f := 0]> (access_times_ s);
            history_list_ := <[f := []]> (history_list_ s);
            evictable_ := evictable_ s;
            lru_less_k_ := list_remove f (lru_less_k_ s);
            lru_k_ := lru_k_ s |})
    | None =>
        match scan_mature (get_evictable s) (lru_k_ s) with
        | Some (f, rest) =>
            (Some f,
             {| current_timestamp_ := current_timestamp_ s;
                curr_size_ := wrap64 (curr_size_ s - 1);
                replacer_size_ := replacer_size_ s;
                max_size_ := max_size_ s;
                k_ := k_ s;
                access_times_ := <[f := 0]> (access_times_ s);
                history_list_ := <[f := []]> (history_list_ s);
                evictable_ := evictable_ s;
                lru_less_k_ := lru_less_k_ s;
                lru_k_ := rest |})
        | None => (None, s)
        end
    end.

(** [std::upper_bound] with the comparator of [RecordAccess] followed by
    [insert]: the entry goes before the first element whose timestamp, cast
    to [int], is greater than its own. *)
Fixpoint insert_upper_bound (kth : kth_timestamp) (l : list kth_timestamp)
  : list kth_timestamp :=
  match l with
  | [] => [kth]
  | e :: rest =>
      if to_int kth.2 <? to_int e.2 then kth :: e :: rest
      else e :: insert_upper_bound kth rest
  end.

(** [history_list_[f].front()]; the list is not empty where the source
    calls it. *)
Definition front (l : list Z) : Z := hd 0 l.

(** [RecordAccess(frame_id)]; [None] is a thrown [std::exception]. *)
Definition RecordAccess (f : frame_id_t) (s : LRUKReplacer) : option LRUKReplacer :=
  if f >? to_int (replacer_size_ s) then None
  else
    let n := wrap64 (get_access s f + 1) in
    let ts := wrap64 (current_timestamp_ s + 1) in
    let h := get_history s f ++ [ts] in
    let s1 :=
      {| current_timestamp_ := ts;
         curr_size_ := curr_size_ s;
         replacer_size_ := replacer_size_ s;
         max_size_ := max_size_ s;
         k_ := k_ s;
         access_times_ := <[f := n]> (access_times_ s);
         history_list_ := <[f := h]> (history_list_ s);
         evictable_ := evictable_ s;
         lru_less_k_ := lru_less_k_ s;
         lru_k_ := lru_k_ s |} in
    if n =? 1 then
      let after_evict :=
        if curr_size_ s1 =? max_size_ s1 then
          match Evict s1 with
          | (Some _, s2) => Some s2
          | (None, _) => None
          end
        else Some s1 in
      match after_evict with
      | None => None
      | Some s2 =>
          Some {| current_timestamp_ := current_timestamp_ s2;
                  curr_size_ := wrap64 (curr_size_ s2 + 1);
                  replacer_size_ := replacer_size_ s2;
                  max_size_ := max_size_ s2;
                  k_ := k_ s2;
                  access_times_ := access_times_ s2;
                  history_list_ := history_list_ s2;
                  evictable_ := <[f := true]> (evictable_ s2);
                  lru_less_k_ := f :: lru_less_k_ s2;
                  lru_k_ := lru_k_ s2 |}
      end
    else if n =? k_ s then
      Some {| current_timestamp_ := ts;
              curr_size_ := curr_size_ s;
              replacer_size_ := replacer_size_ s;
              max_size_ := max_size_ s;
              k_ := k_ s;
              access_times_ := <[f := n]> (access_times_ s);
              history_list_ := <[f := h]> (history_list_ s);
              evictable_ := evictable_ s;
              lru_less_k_ := erase_frame f (lru_less_k_ s);
              lru_k_ := insert_upper_bound (f, front h) (lru_k_ s) |}
    else if n >? k_ s then
      let h' := tail (h ++ [ts]) in
      Some {| current_timestamp_ := ts;
              curr_size_ := curr_size_ s;
              replacer_size_ := replacer_size_ s;
              max_size_ := max_size_ s;
              k_ := k_ s;
              access_times_ := <[f := n]> (access_times_ s);
              history_list_ := <[f := h']> (history_list_ s);
              evictable_ := evictable_ s;
              lru_less_k_ := lru_less_k_ s;
              lru_k_ := insert_upper_bound (f, front h') (erase_kth f (lru_k_ s)) |}
    else Some s1.

(** [SetEvictable(frame_id, set_evictable)]; [None] is a thrown
    [std::exception]. *)
Definition SetEvictable (f : frame_id_t) (set_evictable : bool) (s : LRUKReplacer)
  : option LRUKReplacer :=
  if f >? to_int (replacer_size_ s) then None
  else if get_access s f =? 0 then Some s
  else
    let oldstatus := get_evictable s f in
    let delta (x : Z) : Z :=
      if oldstatus && negb set_evictable then wrap64 (x - 1)
      else if negb oldstatus && set_evictable then wrap64 (x + 1)
      else x in
    Some {| current_timestamp_ := current_timestamp_ s;
            curr_size_ := delta (curr_size_ s);
            replacer_size_ := replacer_size_ s;
            max_size_ := delta (max_size_ s);
            k_ := k_ s;
            access_times_ := access_times_ s;
            history_list_ := history_list_ s;
            evictable_ := <[f := set_evictable]> (evictable_ s);
            lru_less_k_ := lru_less_k_ s;
            lru_k_ := lru_k_ s |}.

(** [Remove(frame_id)]; [None] is a thrown [std::exception]. *)
Definition Remove (f : frame_id_t) (s : LRUKReplacer) : option LRUKReplacer :=
  if f >? to_int (replacer_size_ s) then None
  else if get_access s f =? 0 then Some s
  else if negb (get_evictable s f) then None
  else if get_access s f <? k_ s then
    Some {| current_timestamp_ := current_timestamp_ s;
            curr_size_ := wrap64 (curr_size_ s - 1);
            replacer_size_ := replacer_size_ s;
            max_size_ := max_size_ s;
            k_ := k_ s;
            access_times_ := <[f := 0]> (access_times_ s);
            history_list_ := <[f := []]> (history_list_ s);
            evictable_ := delete f (evictable_ s);
            lru_less_k_ := erase_frame f (lru_less_k_ s);
            lru_k_ := lru_k_ s |}
  else
    Some {| current_timestamp_ := current_timestamp_ s;
            curr_size_ := wrap64 (curr_size_ s - 1);
            replacer_size_ := replacer_size_ s;
            max_size_ := max_size_ s;
            k_ := k_ s;
            access_times_ := <[f := 0]> (access_times_ s);
            history_list_ := <[f := []]> (history_list_ s);
            evictable_ := delete f (evictable_ s);
            lru_less_k_ := lru_less_k_ s;
            lru_k_ := erase_kth f (lru_k_ s) |}.

(** [Size()]. *)
Definition Size (s : LRUKReplacer) : Z := curr_size_ s.

(** A run of [RecordAccess] calls, stopping at the first exception. *)
Fixpoint record_all (fs : list frame_id_t) (s : LRUKReplacer) : option LRUKReplacer :=
  match fs with
  | [] => Some s
  | f :: fs' =>
      match RecordAccess f s with
      | Some s' => record_all fs' s'
      | None => None
      end
  end.

End LRUK.

(** * Outcomes of operations that may not return

    [Ok a]: the call returns [a].  [Fault]: the call reads through a null
    pointer or outside an array.  [OutOfFuel]: the loop or recursion of the
    call has not finished within the number of rounds allowed. *)

Inductive outcome (A : Type) : Type :=
  | Ok (a : A)
  | Fault
  | OutOfFuel.
Arguments Ok {A} a.
Arguments Fault {A}.
Arguments OutOfFuel {A}.

Definition obind {A B : Type} (m : outcome A) (f : A → outcome B) : outcome B :=
  match m with
  | Ok a => f a
  | Fault => Fault
  | OutOfFuel => OutOfFuel
  end.

(** A pointer or index that must be valid: [None] is a fault. *)
Definition must {A : Type} (o : option A) : outcome A :=
  match o with
  | Some a => Ok a
  | None => Fault
  end.

Notation "x ←! m ; k" := (obind m (λ x, k))
  (at level 20, m at level 100, k at level 200, right associativity, only parsing).
Notation "' p ←! m ; k" := (obind m (λ x, match x with p => k end))
  (at level 20, p pattern, m at level 100, k at level 200, right associativity, only parsing).

(** * The extendible hash table *)

Module EHT.

Section Table.

Context {K V : Type} `{EqDecision K}.

(** [std::hash<K>()(key)]. *)
Variable hash : K → nat.

(** A [Bucket]: its capacity [size_], its local depth [depth_] and its
    [std::list] of pairs, front first. *)
Record Bucket := mkBucket {
  size_ : nat;
  depth_ : nat;
  list_ : list (K * V)
}.

(** [Bucket::Bucket(array_size, depth)]. *)
Definition Bucket_new (array_size depth : nat) : Bucket :=
  {| size_ := array_size; depth_ := depth; list_ := [] |}.

(** Modelled from the spec: [Bucket::IsFull] is declared in
    [extendible_hash_table.h], which is not among the sources; the bucket is
    full when it holds as many pairs as its size bound [size_]. *)
Definition IsFull (b : Bucket) : bool := bool_decide (length (list_ b) = size_ b).

(** The loop of [Bucket::Find]: the value of the first pair with the key. *)
Fixpoint list_find_key (key : K) (l : list (K * V)) : option V :=
  match l with
  | [] => None
  | (k, v) :: rest => if decide (k = key) then Some v else list_find_key key rest
  end.

(** [Bucket::Find(key, value)]: [Some v] for [true] with [value = v]. *)
Definition Bucket_Find (key : K) (b : Bucket) : option V :=
  list_find_key key (list_ b).

(** [list_.erase(it)] at the first pair with the key. *)
Fixpoint list_erase_key (key : K) (l : list (K * V)) : list (K * V) :=
  match l with
  | [] => []
  | (k, v) :: rest => if decide (k = key) then rest else (k, v) :: list_erase_key key rest
  end.

(** [Bucket::Remove(key)]. *)
Definition Bucket_Remove (key : K) (b : Bucket) : bool * Bucket :=
  match list_find_key key (list_ b) with
  | None => (false, b)
  | Some _ =>
      (true, {| size_ := size_ b; depth_ := depth_ b;
                list_ := list_erase_key key (list_ b) |})
  end.

(** The assignment of [value] to the second component of the first pair
    with the key. *)
Fixpoint list_assign_key (key : K) (value : V) (l : list (K * V)) : list (K * V) :=
  match l with
  | [] => []
  | (k, v) :: rest =>
      if decide (k = key) then (k, value) :: rest
      else (k, v) :: list_assign_key key value rest
  end.

(** [Bucket::Insert(key, value)]: the test for a full bucket comes first. *)
Definition Bucket_Insert (key : K) (value : V) (b : Bucket) : bool * Bucket :=
  if IsFull b then (false, b)
  else
    match list_find_key key (list_ b) with
    | None =>
        (true, {| size_ := size_ b; depth_ := depth_ b;
                  list_ := (key, value) :: list_ b |})
    | Some _ =>
        (true, {| size_ := size_ b; depth_ := depth_ b;
                  list_ := list_assign_key key value (list_ b) |})
    end.

(** The table.  A [std::shared_ptr<Bucket>] is an index into [heap], the
    store of all buckets ever allocated; several slots of [dir_] may hold
    the same index and then see the same bucket.  A bucket that no slot
    refers to any more (freed by its last [shared_ptr]) stays in [heap]
    unreachable. *)
Record ExtendibleHashTable := mkTable {
  global_depth_ : nat;
  bucket_size_ : nat;
  num_buckets_ : nat;
  dir_ : list nat;
  heap : list Bucket
}.

(** [ExtendibleHashTable(bucket_size)].  The initial values of
    [global_depth_] and [num_buckets_] are given in the header, which is
    not among the sources; the spec gives them as 0 and 1. *)
Definition new (bucket_size : nat) : ExtendibleHashTable :=
  {| global_depth_ := 0; bucket_size_ := bucket_size; num_buckets_ := 1;
     dir_ := [0]; heap := [Bucket_new bucket_size 0] |}.

(** The source computes [1 << depth] in an [int]: the shift is defined
    for [depth < 31] only.  An operation that shifts further is a fault. *)
Definition shift_fits (depth : nat) : bool := bool_decide (depth < 31).

(** [IndexOf(key)], with [mask = (1 << global_depth_) - 1]; every caller
    tests [shift_fits] first. *)
Definition IndexOf (key : K) (s : ExtendibleHashTable) : nat :=
  Nat.land (hash key) (Nat.shiftl 1 (global_depth_ s) - 1).

Definition GetGlobalDepth (s : ExtendibleHashTable) : nat := global_depth_ s.
Definition GetNumBuckets (s : ExtendibleHashTable) : nat := num_buckets_ s.

(** [dir_[i]] followed by [->]: the bucket a slot refers to. *)
Definition bucket_at (s : ExtendibleHashTable) (i : nat) : option Bucket :=
  dir_ s !! i ≫= λ p, heap s !! p.

(** [GetLocalDepth(dir_index)]. *)
Definition GetLocalDepth (dir_index : nat) (s : ExtendibleHashTable) : option nat :=
  depth_ <$> bucket_at s dir_index.

(** [Find(key, value)]: the outer [None] is a fault, a shift that does
    not fit or a read outside [dir_]. *)
Definition Find (key : K) (s : ExtendibleHashTable) : option (option V) :=
  if shift_fits (global_depth_ s)
  then Bucket_Find key <$> bucket_at s (IndexOf key s)
  else None.

Definition set_heap (s : ExtendibleHashTable) (h : list Bucket) : ExtendibleHashTable :=
  {| global_depth_ := global_depth_ s; bucket_size_ := bucket_size_ s;
     num_buckets_ := num_buckets_ s; dir_ := dir_ s; heap := h |}.

(** [Remove(key)]. *)
Definition Remove (key : K) (s : ExtendibleHashTable)
  : option (bool * ExtendibleHashTable) :=
  if shift_fits (global_depth_ s) then
    p ← dir_ s !! IndexOf key s;
    b ← heap s !! p;
    let '(r, b') := Bucket_Remove key b in
    Some (r, set_heap s (<[p := b']> (heap s)))
  else None.

(** The first loop of [RedistributeBucket]: every pair of the old bucket is
    inserted into [bucket1] or [bucket0] by the bit [mask] of its hash. *)
Fixpoint distribute (mask : nat) (items : list (K * V)) (b0 b1 : Bucket)
  : Bucket * Bucket :=
  match items with
  | [] => (b0, b1)
  | (key, value) :: rest =>
      if bool_decide (Nat.land (hash key) mask ≠ 0)
      then distribute mask rest b0 (Bucket_Insert key value b1).2
      else distribute mask rest (Bucket_Insert key value b0).2 b1
  end.

(** The second loop of [RedistributeBucket], from index [i] in steps of
    [mask]; [fuel] bounds the number of rounds. *)
Fixpoint repoint (fuel i mask p0 p1 : nat) (dir : list nat) : list nat :=
  match fuel with
  | O => dir
  | S fuel' =>
      if bool_decide (i < length dir) then
        repoint fuel' (i + mask) mask p0 p1
          (<[i := if bool_decide (Nat.land i mask ≠ 0) then p1 else p0]> dir)
      else dir
  end.

(** [RedistributeBucket(bucket, dir_index)]; [p] is the pointer [bucket].
    The two new buckets are allocated at the end of [heap]. *)
Definition RedistributeBucket (p dir_index : nat) (s : ExtendibleHashTable)
  : option ExtendibleHashTable :=
  bucket ← heap s !! p;
  if shift_fits (depth_ bucket) then
    let p0 := length (heap s) in
    let p1 := S (length (heap s)) in
    let mask := Nat.shiftl 1 (depth_ bucket) in
    let '(bucket0, bucket1) :=
      distribute mask (list_ bucket)
        (Bucket_new (bucket_size_ s) (depth_ bucket + 1))
        (Bucket_new (bucket_size_ s) (depth_ bucket + 1)) in
    Some {| global_depth_ := global_depth_ s;
            bucket_size_ := bucket_size_ s;
            num_buckets_ := num_buckets_ s + 1;
            dir_ := repoint (length (dir_ s)) (Nat.land dir_index (mask - 1)) mask p0 p1 (dir_ s);
            heap := heap s ++ [bucket0; bucket1] |}
  else None.

(** The directory doubling of [Insert]: [copy_n] of the whole directory
    behind itself, and [global_depth_++]. *)
Definition grow (s : ExtendibleHashTable) : ExtendibleHashTable :=
  {| global_depth_ := global_depth_ s + 1;
     bucket_size_ := bucket_size_ s;
     num_buckets_ := num_buckets_ s;
     dir_ := dir_ s ++ dir_ s;
     heap := heap s |}.

(** The body of the [while] loop of [Insert], entered when the bucket of
    the key has refused the pair. *)
Definition split (key : K) (s : ExtendibleHashTable) : option ExtendibleHashTable :=
  let dir_index := IndexOf key s in
  b ← bucket_at s dir_index;
  let s1 := if bool_decide (depth_ b = global_depth_ s) then grow s else s in
  p ← dir_ s1 !! dir_index;
  RedistributeBucket p dir_index s1.

(** [Insert(key, value)]: [fuel] bounds the number of rounds of the
    [while] loop. *)
Fixpoint Insert (fuel : nat) (key : K) (value : V) (s : ExtendibleHashTable)
  : outcome ExtendibleHashTable :=
  match fuel with
  | O => OutOfFuel
  | S fuel' =>
      if shift_fits (global_depth_ s) then
        p ←! must (dir_ s !! IndexOf key s);
        b ←! must (heap s !! p);
        let '(ok, b') := Bucket_Insert key value b in
        if ok then Ok (set_heap s (<[p := b']> (heap s)))
        else
          s' ←! must (split key s);
          Insert fuel' key value s'
      else Fault
  end.

End Table.

End EHT.

(** * The B+-tree index and its iterator *)

Module BPT.

Local Open Scope Z_scope.

Definition page_id_t := Z.
Definition INVALID_PAGE_ID : page_id_t := -1.
Definition HEADER_PAGE_ID : page_id_t := 0.

Section Tree.

Context {KeyType ValueType : Type}.

(** [comparator_(a, b)]: negative, zero or positive. *)
Variable comparator_ : KeyType → KeyType → Z.

(** The key found in slot 0 of an internal page that has just been
    initialised: the bytes of a page fresh from [NewPage]. *)
Variable blank_key : KeyType.

(** ** Pages

    The source reinterprets the bytes of a page as a [LeafPage] or an
    [InternalPage] after looking at its type; the model has one variant per
    type.  [array_] holds the first [size_] entries of the page, so
    [GetSize] is its length.  A pointer to a page is the id of the page in
    the pool, and [GetPageId] of a page is the id it is stored under. *)
Inductive PageData :=
  | BlankData
  | LeafData (next_page_id : page_id_t) (array_ : list (KeyType * ValueType))
  | InternalData (array_ : list (KeyType * page_id_t)).

Record BPlusTreePage := mkPage {
  parent_page_id_ : page_id_t;
  max_size_ : Z;
  data_ : PageData
}.

Definition IsLeafPage (pg : BPlusTreePage) : bool :=
  match data_ pg with LeafData _ _ => true | _ => false end.
Definition IsInternalPage (pg : BPlusTreePage) : bool :=
  match data_ pg with InternalData _ => true | _ => false end.
Definition IsRootPage (pg : BPlusTreePage) : bool :=
  bool_decide (parent_page_id_ pg = INVALID_PAGE_ID).
Definition GetSize (pg : BPlusTreePage) : Z :=
  match data_ pg with
  | BlankData => 0
  | LeafData _ a => Z.of_nat (length a)
  | InternalData a => Z.of_nat (length a)
  end.
Definition GetMaxSize (pg : BPlusTreePage) : Z := max_size_ pg.
Definition GetParentPageId (pg : BPlusTreePage) : page_id_t := parent_page_id_ pg.

(** Modelled from the spec: [GetMinSize] is defined in [b_plus_tree_page.cpp],
    which is not among the sources; the spec gives it as the ceiling of
    [max / 2]. *)
Definition min_size_of (max_size : Z) : Z := (max_size + 1) / 2.
Definition GetMinSize (pg : BPlusTreePage) : Z := min_size_of (max_size_ pg).

Definition set_data (pg : BPlusTreePage) (d : PageData) : BPlusTreePage :=
  {| parent_page_id_ := parent_page_id_ pg; max_size_ := max_size_ pg; data_ := d |}.
Definition SetParentPageId (pg : BPlusTreePage) (parent : page_id_t) : BPlusTreePage :=
  {| parent_page_id_ := parent; max_size_ := max_size_ pg; data_ := data_ pg |}.

(** Modelled from the spec: [LeafPage::Init] and [InternalPage::Init] are
    defined in the page sources, which are not among the sources; a page is
    initialised empty with the given parent and maximum size, a leaf with
    no next leaf. *)
Definition Leaf_Init (parent : page_id_t) (max_size : Z) : BPlusTreePage :=
  {| parent_page_id_ := parent; max_size_ := max_size;
     data_ := LeafData INVALID_PAGE_ID [] |}.
Definition Internal_Init (parent : page_id_t) (max_size : Z) : BPlusTreePage :=
  {| parent_page_id_ := parent; max_size_ := max_size; data_ := InternalData [] |}.

(** Modelled from the spec: [InternalPage::Find] is not among the sources;
    the spec gives the child to follow as [values[j]] for the largest slot
    [j] in [1..size-1] with [keys[j] <= key], or slot 0 when there is none. *)
Fixpoint find_slot (key : KeyType) (rest : list (KeyType * page_id_t)) (j best : nat) : nat :=
  match rest with
  | [] => best
  | (k, _) :: rest' =>
      find_slot key rest' (S j) (if comparator_ k key <=? 0 then j else best)
  end.
Definition Internal_Find (key : KeyType) (pg : BPlusTreePage) : option page_id_t :=
  match data_ pg with
  | InternalData (e0 :: rest) => snd <$> (e0 :: rest) !! find_slot key rest 1 0
  | _ => None
  end.

(** Modelled from the spec: [LeafPage::Find] is not among the sources; the
    spec gives it as a search of the leaf for a key equal to the probe. *)
Fixpoint leaf_search (key : KeyType) (a : list (KeyType * ValueType)) : option ValueType :=
  match a with
  | [] => None
  | (k, v) :: rest => if comparator_ k key =? 0 then Some v else leaf_search key rest
  end.
Definition Leaf_Find (key : KeyType) (pg : BPlusTreePage) : option ValueType :=
  match data_ pg with
  | LeafData _ a => leaf_search key a
  | _ => None
  end.

(** ** The buffer pool

    Modelled from the spec: the buffer-pool manager is an external
    collaborator of which only the contract is given: [FetchPage(page_id)]
    returns the page pinned, [NewPage] returns a fresh page pinned,
    [UnpinPage(page_id, dirty)] releases one pin.  In the model [FetchPage]
    of an id that names no page returns a null pointer, [UnpinPage] of a page
    with no pin does nothing, and every call is recorded in [calls_], the
    most recent first.  The header page, of id [HEADER_PAGE_ID], holds the
    records of [header_records_]. *)
Inductive BpmCall :=
  | CallFetch (p : page_id_t)
  | CallNew (p : page_id_t)
  | CallUnpin (p : page_id_t) (is_dirty : bool).

Record BufferPoolManager := mkBpm {
  pages_ : gmap Z BPlusTreePage;
  pin_count_ : gmap Z nat;
  next_free_id_ : page_id_t;
  header_records_ : list (string * page_id_t);
  calls_ : list BpmCall
}.

Definition bpm_new : BufferPoolManager :=
  {| pages_ := ∅; pin_count_ := ∅; next_free_id_ := 1;
     header_records_ := []; calls_ := [] |}.

Definition GetPinCount (b : BufferPoolManager) (p : page_id_t) : nat :=
  default 0%nat (pin_count_ b !! p).

Definition FetchPage (p : page_id_t) (b : BufferPoolManager)
  : BufferPoolManager * option page_id_t :=
  if bool_decide (p = HEADER_PAGE_ID) || bool_decide (is_Some (pages_ b !! p)) then
    ({| pages_ := pages_ b;
        pin_count_ := <[p := S (GetPinCount b p)]> (pin_count_ b);
        next_free_id_ := next_free_id_ b;
        header_records_ := header_records_ b;
        calls_ := CallFetch p :: calls_ b |}, Some p)
  else
    ({| pages_ := pages_ b;
        pin_count_ := pin_count_ b;
        next_free_id_ := next_free_id_ b;
        header_records_ := header_records_ b;
        calls_ := CallFetch p :: calls_ b |}, None).

Definition NewPage (b : BufferPoolManager) : BufferPoolManager * page_id_t :=
  let p := next_free_id_ b in
  ({| pages_ := <[p := {| parent_page_id_ := 0; max_size_ := 0; data_ := BlankData |}]> (pages_ b);
      pin_count_ := <[p := 1%nat]> (pin_count_ b);
      next_free_id_ := p + 1;
      header_records_ := header_records_ b;
      calls_ := CallNew p :: calls_ b |}, p).

Definition UnpinPage (p : page_id_t) (is_dirty : bool) (b : BufferPoolManager)
  : BufferPoolManager :=
  {| pages_ := pages_ b;
     pin_count_ :=
       match GetPinCount b p with
       | O => pin_count_ b
       | S n => <[p := n]> (pin_count_ b)
       end;
     next_free_id_ := next_free_id_ b;
     header_records_ := header_records_ b;
     calls_ := CallUnpin p is_dirty :: calls_ b |}.

(** Reading and writing a page through a pointer to it. *)
Definition read_page (p : page_id_t) (b : BufferPoolManager) : outcome BPlusTreePage :=
  must (pages_ b !! p).
Definition write_page (p : page_id_t) (pg : BPlusTreePage) (b : BufferPoolManager)
  : BufferPoolManager :=
  {| pages_ := <[p := pg]> (pages_ b);
     pin_count_ := pin_count_ b;
     next_free_id_ := next_free_id_ b;
     header_records_ := header_records_ b;
     calls_ := calls_ b |}.

(** Modelled from the spec: [HeaderPage::InsertRecord] and
    [HeaderPage::UpdateRecord] are not among the sources; the header page
    maps the name of an index to its root page id. *)
Definition InsertRecord (name : string) (root : page_id_t) (r : list (string * page_id_t))
  : list (string * page_id_t) :=
  if bool_decide (name ∈ r.*1) then r else r ++ [(name, root)].
Definition UpdateRecord (name : string) (root : page_id_t) (r : list (string * page_id_t))
  : list (string * page_id_t) :=
  (λ e : string * page_id_t, if bool_decide (e.1 = name) then (name, root) else e) <$> r.

(** The number of pins a sequence of calls leaves behind: one for every
    [FetchPage] and [NewPage], one less for every [UnpinPage]. *)
Fixpoint pin_balance (calls : list BpmCall) : Z :=
  match calls with
  | [] => 0
  | CallFetch _ :: rest => pin_balance rest + 1
  | CallNew _ :: rest => pin_balance rest + 1
  | CallUnpin _ _ :: rest => pin_balance rest - 1
  end.

(** ** The tree *)

Record BPlusTree := mkTree {
  index_name_ : string;
  root_page_id_ : page_id_t;
  leaf_max_size_ : Z;
  internal_max_size_ : Z;
  cur_size_ : Z
}.

(** [BPlusTree(name, buffer_pool_manager, comparator, leaf_max_size,
    internal_max_size)]; the header initialises [cur_size_] to 0. *)
Definition tree_new (name : string) (leaf_max_size internal_max_size : Z) : BPlusTree :=
  {| index_name_ := name; root_page_id_ := INVALID_PAGE_ID;
     leaf_max_size_ := leaf_max_size; internal_max_size_ := internal_max_size;
     cur_size_ := 0 |}.

Definition IsEmpty (t : BPlusTree) : bool := cur_size_ t =? 0.
Definition GetRootPageId (t : BPlusTree) : page_id_t := root_page_id_ t.

Definition set_root (t : BPlusTree) (root : page_id_t) : BPlusTree :=
  {| index_name_ := index_name_ t; root_page_id_ := root;
     leaf_max_size_ := leaf_max_size_ t; internal_max_size_ := internal_max_size_ t;
     cur_size_ := cur_size_ t |}.
Definition incr_size (t : BPlusTree) : BPlusTree :=
  {| index_name_ := index_name_ t; root_page_id_ := root_page_id_ t;
     leaf_max_size_ := leaf_max_size_ t; internal_max_size_ := internal_max_size_ t;
     cur_size_ := cur_size_ t + 1 |}.

(** [UpdateRootPageId(insert_record)]. *)
Definition UpdateRootPageId (t : BPlusTree) (insert_record : Z) (b : BufferPoolManager)
  : BufferPoolManager :=
  let b1 := (FetchPage HEADER_PAGE_ID b).1 in
  let records :=
    if insert_record =? 0
    then UpdateRecord (index_name_ t) (root_page_id_ t) (header_records_ b1)
    else InsertRecord (index_name_ t) (root_page_id_ t) (header_records_ b1) in
  UnpinPage HEADER_PAGE_ID true
    {| pages_ := pages_ b1; pin_count_ := pin_count_ b1;
       next_free_id_ := next_free_id_ b1;
       header_records_ := records; calls_ := calls_ b1 |}.

(** The [while] loop shared by [GetValue], [TreeTraversal] and
    [Begin(key)]: from the pinned page [p] down to a leaf, which is left
    pinned.  [fuel] bounds the number of pages visited. *)
Fixpoint descend (fuel : nat) (key : KeyType) (p : page_id_t) (b : BufferPoolManager)
  : outcome (page_id_t * BufferPoolManager) :=
  match fuel with
  | O => OutOfFuel
  | S fuel' =>
      pg ←! read_page p b;
      if IsLeafPage pg then Ok (p, b)
      else
        value ←! must (Internal_Find key pg);
        let '(b1, ptr) := FetchPage value b in
        child ←! must ptr;
        descend fuel' key child (UnpinPage p false b1)
  end.

(** [GetValue(key, result)]: [Some v] for [true] with [v] pushed on
    [result], [None] for [false]. *)
Definition GetValue (fuel : nat) (key : KeyType) (t : BPlusTree) (b : BufferPoolManager)
  : outcome (option ValueType * BufferPoolManager) :=
  let '(b1, ptr) := FetchPage (GetRootPageId t) b in
  root ←! must ptr;
  '(leaf, b2) ←! descend fuel key root b1;
  leaf_page ←! read_page leaf b2;
  match Leaf_Find key leaf_page with
  | None => Ok (None, UnpinPage leaf false b2)
  | Some value => Ok (Some value, UnpinPage leaf false b2)
  end.

(** [TreeTraversal(key, &bPage)]: [false] when the key is in the leaf,
    [true] when it is not; the leaf comes back in [bPage], pinned. *)
Definition TreeTraversal (fuel : nat) (key : KeyType) (t : BPlusTree) (b : BufferPoolManager)
  : outcome (bool * page_id_t * BufferPoolManager) :=
  let '(b1, ptr) := FetchPage (GetRootPageId t) b in
  root ←! must ptr;
  '(leaf, b2) ←! descend fuel key root b1;
  leaf_page ←! read_page leaf b2;
  match Leaf_Find key leaf_page with
  | Some _ => Ok (false, leaf, b2)
  | None => Ok (true, leaf, b2)
  end.

(** ** Insertion *)

(** The pair handed to [SimpleInsert], [SimpleSplit] and [MultipleSplit]:
    the source passes a [MappingType*] and casts it to an
    [InternalMappingType*] when the page is internal. *)
Inductive Entry :=
  | LeafEntry (e : KeyType * ValueType)
  | InternalEntry (e : KeyType * page_id_t).

(** [std::upper_bound] on the keys followed by the shift to the right and
    the store of the pair: it goes before the first entry whose key is
    greater than its own. *)
Fixpoint insert_upper {X : Type} (e : KeyType * X) (a : list (KeyType * X))
  : list (KeyType * X) :=
  match a with
  | [] => [e]
  | x :: rest =>
      if comparator_ e.1 x.1 <? 0 then e :: x :: rest
      else x :: insert_upper e rest
  end.

(** [std::sort] of the scratch array by key. *)
Fixpoint insert_sorted {X : Type} (e : KeyType * X) (a : list (KeyType * X))
  : list (KeyType * X) :=
  match a with
  | [] => [e]
  | x :: rest =>
      if comparator_ x.1 e.1 <? 0 then x :: insert_sorted e rest
      else e :: x :: rest
  end.
Definition sort_entries {X : Type} (a : list (KeyType * X)) : list (KeyType * X) :=
  foldr insert_sorted [] a.

(** [SimpleInsert(pair, bPage)]. *)
Definition SimpleInsert (pair : Entry) (bPage : page_id_t) (b : BufferPoolManager)
  : outcome BufferPoolManager :=
  pg ←! read_page bPage b;
  match data_ pg, pair with
  | LeafData next a, LeafEntry e =>
      let a' := match a with [] => [e] | _ => insert_upper e a end in
      Ok (UnpinPage bPage true (write_page bPage (set_data pg (LeafData next a')) b))
  | InternalData (e0 :: rest), InternalEntry e =>
      let rest' := match rest with [] => [e] | _ => insert_upper e rest end in
      Ok (UnpinPage bPage true (write_page bPage (set_data pg (InternalData (e0 :: rest'))) b))
  | BlankData, _ => Ok b
  | _, _ => Fault
  end.

(** The loop of the internal split that makes the new page the parent of
    the children it received. *)
Fixpoint reparent (children : list page_id_t) (parent : page_id_t) (b : BufferPoolManager)
  : outcome BufferPoolManager :=
  match children with
  | [] => Ok b
  | tmpid :: rest =>
      let '(b1, ptr) := FetchPage tmpid b in
      child ←! must ptr;
      child_page ←! read_page child b1;
      reparent rest parent
        (UnpinPage tmpid true (write_page child (SetParentPageId child_page parent) b1))
  end.

(** The first half of [SimpleSplit] and of [MultipleSplit], the same text
    in both: a new page is allocated and receives the upper part of the
    sorted scratch array.  The copy into the scratch array reads
    [max_size] entries of the old page: on a page that holds fewer, it
    reads beyond its entries, a fault. *)
Definition split_page (t : BPlusTree) (pair : Entry) (bPage : page_id_t)
    (b : BufferPoolManager) : outcome (page_id_t * BufferPoolManager) :=
  pg ←! read_page bPage b;
  match data_ pg, pair with
  | LeafData next a, LeafEntry e =>
      let '(b1, page_id) := NewPage b in
      let newpage := Leaf_Init INVALID_PAGE_ID (leaf_max_size_ t) in
      let old_size := Z.to_nat (GetMinSize newpage) in
      if Z.of_nat (length a) <? leaf_max_size_ t then Fault
      else
        let tmpmap := sort_entries (take (Z.to_nat (leaf_max_size_ t)) a ++ [e]) in
        let b2 := write_page page_id (set_data newpage (LeafData next (drop old_size tmpmap))) b1 in
        Ok (page_id, write_page bPage (set_data pg (LeafData page_id (take old_size tmpmap))) b2)
  | InternalData a, InternalEntry e =>
      let '(b1, page_id) := NewPage b in
      let newpage := Internal_Init INVALID_PAGE_ID (internal_max_size_ t) in
      let old_size := Z.to_nat (GetMinSize newpage) in
      if Z.of_nat (length a) <? internal_max_size_ t then Fault
      else
        let tmpmap := sort_entries (take (Z.to_nat (internal_max_size_ t)) a ++ [e]) in
        let b2 := write_page page_id (set_data newpage (InternalData (drop old_size tmpmap))) b1 in
        b3 ←! reparent (drop old_size tmpmap).*2 page_id b2;
        pg' ←! read_page bPage b3;
        Ok (page_id, write_page bPage (set_data pg' (InternalData (take old_size tmpmap))) b3)
  | _, _ => Fault
  end.

(** The key of slot 0 of the new page, promoted with the id of the page. *)
Definition first_key (pg : BPlusTreePage) : option KeyType :=
  match data_ pg with
  | LeafData _ (e :: _) => Some e.1
  | InternalData (e :: _) => Some e.1
  | _ => None
  end.

(** [SimpleSplit(pair, bPage, parent_page)]; [parent_page = None] is the
    null pointer. *)
Definition SimpleSplit (pair : Entry) (bPage : page_id_t) (parent_page : option page_id_t)
    (t : BPlusTree) (b : BufferPoolManager) : outcome (BPlusTree * BufferPoolManager) :=
  '(page_id, b1) ←! split_page t pair bPage b;
  let '(parent, t1, b2) :=
    match parent_page with
    | Some parent => (parent, t, b1)
    | None =>
        let '(b', page_id1) := NewPage b1 in
        let tmppage := set_data (Internal_Init INVALID_PAGE_ID (internal_max_size_ t))
                         (InternalData [(blank_key, bPage)]) in
        let t' := set_root t page_id1 in
        (page_id1, t', UpdateRootPageId t' 0 (write_page page_id1 tmppage b'))
    end in
  old ←! read_page bPage b2;
  let b3 := write_page bPage (SetParentPageId old parent) b2 in
  newpage ←! read_page page_id b3;
  let b4 := write_page page_id (SetParentPageId newpage parent) b3 in
  key ←! must (first_key newpage);
  let b5 := UnpinPage bPage true (UnpinPage page_id true b4) in
  b6 ←! SimpleInsert (InternalEntry (key, page_id)) parent b5;
  Ok (t1, b6).

(** [MultipleSplit(pair, bPage, parent_page)]; [fuel] bounds the depth of
    the recursion. *)
Fixpoint MultipleSplit (fuel : nat) (pair : Entry) (bPage parent_page : page_id_t)
    (t : BPlusTree) (b : BufferPoolManager) : outcome (BPlusTree * BufferPoolManager) :=
  match fuel with
  | O => OutOfFuel
  | S fuel' =>
      '(page_id, b1) ←! split_page t pair bPage b;
      parent ←! read_page parent_page b1;
      newpage ←! read_page page_id b1;
      let b2 := write_page page_id (SetParentPageId newpage parent_page) b1 in
      key ←! must (first_key newpage);
      let new_pair := InternalEntry (key, page_id) in
      if IsRootPage parent then
        let b3 := UnpinPage bPage true (UnpinPage page_id true b2) in
        SimpleSplit new_pair parent_page None t b3
      else
        let '(b3, ptr) := FetchPage (GetParentPageId parent) b2 in
        new_parent_page ←! must ptr;
        new_parent ←! read_page new_parent_page b3;
        let b4 := UnpinPage bPage true (UnpinPage page_id true b3) in
        if GetMaxSize new_parent >? GetSize new_parent
        then SimpleSplit new_pair parent_page (Some new_parent_page) t b4
        else MultipleSplit fuel' new_pair parent_page new_parent_page t b4
  end.

(** [Insert(key, value)]. *)
Definition Insert (fuel : nat) (key : KeyType) (value : ValueType)
    (t : BPlusTree) (b : BufferPoolManager)
  : outcome (bool * BPlusTree * BufferPoolManager) :=
  let '(t0, b0) :=
    if bool_decide (GetRootPageId t = INVALID_PAGE_ID) then
      let '(b', page_id) := NewPage b in
      let t' := set_root t page_id in
      (t', UnpinPage page_id true
             (UpdateRootPageId t' 1
                (write_page page_id (Leaf_Init INVALID_PAGE_ID (leaf_max_size_ t)) b')))
    else (t, b) in
  '(absent, bPage, b1) ←! TreeTraversal fuel key t0 b0;
  if negb absent then Ok (false, t0, UnpinPage bPage false b1)
  else
    page ←! read_page bPage b1;
    let pair := LeafEntry (key, value) in
    if GetMaxSize page >? GetSize page then
      b2 ←! SimpleInsert pair bPage b1;
      Ok (true, incr_size t0, b2)
    else if IsRootPage page then
      '(t1, b2) ←! SimpleSplit pair bPage None t0 b1;
      Ok (true, incr_size t1, b2)
    else
      let '(b2, ptr) := FetchPage (GetParentPageId page) b1 in
      parent_page ←! must ptr;
      parent ←! read_page parent_page b2;
      '(t1, b3) ←!
        (if GetMaxSize parent >? GetSize parent
         then SimpleSplit pair bPage (Some parent_page) t0 b2
         else MultipleSplit fuel pair bPage parent_page t0 b2);
      Ok (true, incr_size t1, b3).

(** ** Removal *)

(** [SimpleDelete(pair, bPage)]: the body is empty. *)
Definition SimpleDelete (pair : Entry) (bPage : page_id_t) (b : BufferPoolManager)
  : BufferPoolManager := b.

(** [Remove(key)]: the body of the test on [TreeTraversal] is empty. *)
Definition Remove (fuel : nat) (key : KeyType) (t : BPlusTree) (b : BufferPoolManager)
  : outcome (BPlusTree * BufferPoolManager) :=
  if bool_decide (GetRootPageId t = INVALID_PAGE_ID) then Ok (t, b)
  else
    '(absent, bPage, b1) ←! TreeTraversal fuel key t b;
    if absent then Ok (t, b1) else Ok (t, b1).

(** ** The iterator *)

(** The members of [IndexIterator]; [bufferpool_] is the pool every
    operation below takes and returns.  [page_ = None] is the null
    pointer. *)
Record IndexIterator := mkIter {
  page_id_ : page_id_t;
  page_ : option page_id_t;
  index_in_page_ : Z
}.

(** [IndexIterator(page_id, index_in_page, bufferpool)]. *)
Definition IndexIterator_new (page_id : page_id_t) (index_in_page : Z)
    (b : BufferPoolManager) : outcome (IndexIterator * BufferPoolManager) :=
  if bool_decide (page_id ≠ INVALID_PAGE_ID) then
    let '(b1, ptr) := FetchPage page_id b in
    p ←! must ptr;
    Ok ({| page_id_ := page_id; page_ := Some p; index_in_page_ := index_in_page |}, b1)
  else
    Ok ({| page_id_ := page_id; page_ := None; index_in_page_ := index_in_page |}, b).

(** [~IndexIterator()]. *)
Definition IndexIterator_delete (it : IndexIterator) (b : BufferPoolManager)
  : BufferPoolManager :=
  UnpinPage (page_id_ it) true b.

(** The leaf behind [page_]: its next-leaf id and its entries. *)
Definition leaf_of (it : IndexIterator) (b : BufferPoolManager)
  : outcome (page_id_t * list (KeyType * ValueType)) :=
  p ←! must (page_ it);
  pg ←! read_page p b;
  match data_ pg with
  | LeafData next a => Ok (next, a)
  | _ => Fault
  end.

(** [IsEnd()]. *)
Definition IsEnd (it : IndexIterator) (b : BufferPoolManager) : outcome bool :=
  '(next, a) ←! leaf_of it b;
  Ok (bool_decide (index_in_page_ it = Z.of_nat (length a) - 1)
      && bool_decide (next = INVALID_PAGE_ID)).

(** [operator*()]: the entry at [index_in_page_]; an index outside the
    entries of the leaf is a fault. *)
Definition deref (it : IndexIterator) (b : BufferPoolManager)
  : outcome (KeyType * ValueType) :=
  '(next, a) ←! leaf_of it b;
  if index_in_page_ it <? 0 then Fault
  else must (a !! Z.to_nat (index_in_page_ it)).

(** [operator++()]. *)
Definition incr (it : IndexIterator) (b : BufferPoolManager)
  : outcome (IndexIterator * BufferPoolManager) :=
  if bool_decide (page_id_ it = INVALID_PAGE_ID) then Ok (it, b)
  else
    '(next, a) ←! leaf_of it b;
    if index_in_page_ it <? Z.of_nat (length a) - 1 then
      Ok ({| page_id_ := page_id_ it; page_ := page_ it;
             index_in_page_ := index_in_page_ it + 1 |}, b)
    else
      let pre_page_id := page_id_ it in
      if bool_decide (next = INVALID_PAGE_ID) then
        Ok ({| page_id_ := next; page_ := None; index_in_page_ := -1 |},
            UnpinPage pre_page_id false b)
      else
        let '(b1, ptr) := FetchPage next b in
        p ←! must ptr;
        Ok ({| page_id_ := next; page_ := Some p; index_in_page_ := 0 |},
            UnpinPage pre_page_id false b1).

(** [operator==]. *)
Definition iter_eq (x y : IndexIterator) : bool :=
  bool_decide (page_id_ x = page_id_ y)
  && bool_decide (index_in_page_ x = index_in_page_ y).

(** The [while] loop of [Begin()]: down the first child of every internal
    page. *)
Fixpoint descend_left (fuel : nat) (p : page_id_t) (b : BufferPoolManager)
  : outcome (page_id_t * BufferPoolManager) :=
  match fuel with
  | O => OutOfFuel
  | S fuel' =>
      pg ←! read_page p b;
      match data_ pg with
      | InternalData a =>
          e0 ←! must (a !! 0%nat);
          let '(b1, ptr) := FetchPage e0.2 b in
          child ←! must ptr;
          descend_left fuel' child (UnpinPage p false b1)
      | _ => Ok (p, b)
      end
  end.

(** [Begin()]. *)
Definition Begin (fuel : nat) (t : BPlusTree) (b : BufferPoolManager)
  : outcome (IndexIterator * BufferPoolManager) :=
  let '(b1, ptr) := FetchPage (GetRootPageId t) b in
  root ←! must ptr;
  '(leaf, b2) ←! descend_left fuel root b1;
  IndexIterator_new leaf 0 b2.



(** [End()]. *)
Definition End (b : BufferPoolManager) : outcome (IndexIterator * BufferPoolManager) :=
  IndexIterator_new INVALID_PAGE_ID (-1) b.

(** A whole scan, [for (it = Begin(); it != End(); ++it)] followed by the
    destructor of [it]; the temporary [End()] of every test is destroyed
    after the test.  The entries met are returned in order. *)
Fixpoint scan_loop (fuel : nat) (it : IndexIterator) (b : BufferPoolManager)
  : outcome (list (KeyType * ValueType) * IndexIterator * BufferPoolManager) :=
  match fuel with
  | O => OutOfFuel
  | S fuel' =>
      '(e, b0) ←! End b;
      let b1 := IndexIterator_delete e b0 in
      if iter_eq it e then Ok ([], it, b1)
      else
        x ←! deref it b1;
        '(it', b2) ←! incr it b1;
        '(xs, it'', b3) ←! scan_loop fuel' it' b2;
        Ok (x :: xs, it'', b3)
  end.

Definition scan (fuel : nat) (t : BPlusTree) (b : BufferPoolManager)
  : outcome (list (KeyType * ValueType) * BufferPoolManager) :=
  '(it, b1) ←! Begin fuel t b;
  '(xs, it', b2) ←! scan_loop fuel it b1;
  Ok (xs, IndexIterator_delete it' b2).

End Tree.

(** Integer keys with the comparison of integers, as the tests of the
    repository set them with [SetFromInteger]. *)
Definition int_comparator (a b : Z) : Z :=
  match a ?= b with Lt => -1 | Eq => 0 | Gt => 1 end.

End BPT.

(** * Definitions used by the statements *)

Module LRUKSpec.

Import LRUK.
Local Open Scope Z_scope.

(** The state of the "replacer basic" scenario: a replacer of 7 frames with
    K = 2, the accesses 1,2,3,4,5,6,1,2,3,4,5, then frame 6 made
    non-evictable. *)
Definition basic_scenario : option LRUKReplacer :=
  record_all [1; 2; 3; 4; 5; 6; 1; 2; 3; 4; 5] (new 7 2) ≫= SetEvictable 6 false.

(** The victims of two calls of [Evict] in a row. *)
Definition evict_twice (s : LRUKReplacer) : option frame_id_t * option frame_id_t :=
  let r1 := Evict s in
  let r2 := Evict r1.2 in
  (r1.1, r2.1).

(** What a call of [SetEvictable] on frame [f] may change when it touches
    nothing but the evictable flag of [f] and the evictable count
    [curr_size_]. *)
Definition only_flag_and_count_change (f : frame_id_t) (s s' : LRUKReplacer) : Prop :=
  current_timestamp_ s' = current_timestamp_ s ∧
  replacer_size_ s' = replacer_size_ s ∧
  max_size_ s' = max_size_ s ∧
  k_ s' = k_ s ∧
  access_times_ s' = access_times_ s ∧
  history_list_ s' = history_list_ s ∧
  lru_less_k_ s' = lru_less_k_ s ∧
  lru_k_ s' = lru_k_ s ∧
  ∀ g, g ≠ f → get_evictable s' g = get_evictable s g.

(** The step [SetEvictable] applies to both [curr_size_] and [max_size_]. *)
Definition evictable_step (oldstatus set_evictable : bool) (x : Z) : Z :=
  if oldstatus && negb set_evictable then wrap64 (x - 1)
  else if negb oldstatus && set_evictable then wrap64 (x + 1)
  else x.

End LRUKSpec.

Module EHTSpec.
Import EHT.
Section Spec.
Context {K V : Type} `{EqDecision K}.
Variable hash : K → nat.

Abbreviation Table := (@ExtendibleHashTable K V).
Abbreviation Bucket := (@Bucket K V).

(** The number of slots of a directory that hold the pointer [p]. *)
Fixpoint count_slots (p : nat) (dir : list nat) : nat :=
  match dir with
  | [] => 0
  | q :: rest => (if decide (q = p) then 1 else 0) + count_slots p rest
  end.

(** A bucket of the table: its size bound is the one of the table, it
    holds no more pairs than that, and no key twice. *)
Definition bucket_shape (s : Table) (b : Bucket) : Prop :=
  size_ b = bucket_size_ s ∧
  length (list_ b) ≤ size_ b ∧
  NoDup (list_ b).*1.

(** Slot [i] refers to the bucket [b] through the pointer [p]: the local
    depth [L] of [b] is at most the global depth, the hash of every key of
    [b] agrees with [i] on the low [L] bits, and the slots that hold [p]
    are those that agree with [i] on the low [L] bits. *)
Definition slot_ok (s : Table) (i p : nat) (b : Bucket) : Prop :=
  depth_ b ≤ global_depth_ s ∧
  bucket_shape s b ∧
  (∀ k, k ∈ (list_ b).*1 → hash k mod 2 ^ depth_ b = i mod 2 ^ depth_ b) ∧
  (∀ j, j < 2 ^ global_depth_ s →
        dir_ s !! j = Some p ↔ j mod 2 ^ depth_ b = i mod 2 ^ depth_ b).

(** The invariant of the directory. *)
Definition Inv (s : Table) : Prop :=
  length (dir_ s) = 2 ^ global_depth_ s ∧
  ∀ i, i < 2 ^ global_depth_ s →
       ∃ p b, dir_ s !! i = Some p ∧ heap s !! p = Some b ∧ slot_ok s i p b.

(** The states of a table after a sequence of public calls that return.
    [Find] and the three getters leave the state as it is. *)
Inductive reachable (bucket_size : nat) : Table → Prop :=
  | reach_new : reachable bucket_size (new bucket_size)
  | reach_insert s fuel key value s' :
      reachable bucket_size s →
      Insert hash fuel key value s = Ok s' →
      reachable bucket_size s'
  | reach_remove s key r s' :
      reachable bucket_size s →
      Remove hash key s = Some (r, s') →
      reachable bucket_size s'.

End Spec.

(** Bit [d] of [x]. *)
Definition bit (x d : nat) : nat := (x / 2 ^ d) mod 2.

(** The bucket the second loop of [RedistributeBucket] stores in slot
    [j]. *)
Definition pick (mask p0 p1 j : nat) : nat :=
  if bool_decide (Nat.land j mask ≠ 0) then p1 else p0.

(** The "hash split" scenario: a table of bucket size 2 over integer keys
    with the identity hash, and the inserts (4,"a"), (12,"b"), (20,"c").
    Every insert may take [fuel] rounds of its loop. *)
Definition hash_split_scenario (fuel : nat)
  : outcome (@ExtendibleHashTable nat string) :=
  s1 ←! Insert id fuel 4 "a" (new 2);
  s2 ←! Insert id fuel 12 "b" s1;
  Insert id fuel 20 "c" s2.

(** The states the scenario goes through, and the state after a further
    [Remove(12)]. *)
Definition state_of {A : Type} (o : outcome A) (d : A) : A :=
  match o with Ok s => s | _ => d end.
Definition split_state_1 : @ExtendibleHashTable nat string :=
  state_of (Insert id 5 4 "a" (new 2)) (new 2).
Definition split_state_2 : @ExtendibleHashTable nat string :=
  state_of (Insert id 5 12 "b" split_state_1) (new 2).
Definition split_state_3 : @ExtendibleHashTable nat string :=
  state_of (Insert id 5 20 "c" split_state_2) (new 2).
Definition split_state_4 : @ExtendibleHashTable nat string :=
  match Remove id 12 split_state_3 with
  | Some (_, s) => s
  | None => new 2
  end.

(** A second insert of a key that is alone in a full bucket: bucket size 1,
    the insert (0,"a"), then the insert (0,"b") with [fuel] rounds. *)
Definition upsert_scenario (fuel : nat)
  : outcome (@ExtendibleHashTable nat string) :=
  s1 ←! Insert id 1 0 "a" (new 1);
  Insert id fuel 0 "b" s1.

(** The state in which the second insert of the scenario above finds the
    table, and in which every split leaves it: the bucket of slot 0 holds
    the pair (0,"a") alone, is full, and has the depth of the directory. *)
Definition stuck (s : @ExtendibleHashTable nat string) : Prop :=
  bucket_size_ s = 1 ∧
  ∃ p, dir_ s !! 0 = Some p ∧
       heap s !! p = Some {| size_ := 1; depth_ := global_depth_ s;
                             list_ := [(0, "a")] |}.

End EHTSpec.


Module BPTSpec.

Import BPT.
Local Open Scope Z_scope.

(** The result of an operation without the pool it leaves behind. *)
Definition result_of {A B : Type} (o : outcome (A * B)) : outcome A :=
  match o with
  | Ok (a, _) => Ok a
  | Fault => Fault
  | OutOfFuel => OutOfFuel
  end.

(** A tree over integer keys and values, as the tests of the repository
    build it: every key [k] is inserted with the value [10 * k]. *)
Fixpoint insert_keys (fuel : nat) (keys : list Z) (t : BPlusTree)
    (b : @BufferPoolManager Z Z) : outcome (BPlusTree * BufferPoolManager) :=
  match keys with
  | [] => Ok (t, b)
  | k :: rest =>
      '(_, t', b') ←! Insert int_comparator 0 fuel k (10 * k) t b;
      insert_keys fuel rest t' b'
  end.

(** The keys 1 to 10 in a tree of leaf and internal maximum size 4. *)
Definition tree_1_to_10 : outcome (BPlusTree * @BufferPoolManager Z Z) :=
  insert_keys 20 [1; 2; 3; 4; 5; 6; 7; 8; 9; 10] (tree_new "idx" 4 4) bpm_new.

(** A tree with the single key 7. *)
Definition tree_7 : outcome (BPlusTree * @BufferPoolManager Z Z) :=
  insert_keys 20 [7] (tree_new "idx" 4 4) bpm_new.

(** [Remove(7)] on the tree with the keys 1 to 10, followed by
    [GetValue(7)]: the value found, and the item count before and after
    the removal. *)
Definition remove_7_then_find : outcome (option Z * Z * Z) :=
  '(t, b) ←! tree_1_to_10;
  '(t', b') ←! Remove int_comparator 20 7 t b;
  '(r, _) ←! GetValue int_comparator 20 7 t' b';
  Ok (r, cur_size_ t, cur_size_ t').

(** The pins of the leaf of key 7, page 5, before and after [Remove(7)],
    and after a [Remove(11)] of a key that is not in the tree. *)
Definition remove_7_pins : outcome (nat * nat * nat) :=
  '(t, b) ←! tree_1_to_10;
  '(_, b') ←! Remove int_comparator 20 7 t b;
  '(_, b'') ←! Remove int_comparator 20 11 t b;
  Ok (GetPinCount b 5, GetPinCount b' 5, GetPinCount b'' 5).

(** A whole scan of the tree with the keys 1 to 10: the keys met, and the
    pins of the first leaf, page 1, before the scan and after the
    destructor of the iterator. *)
Definition scan_pins : outcome (list Z * nat * nat) :=
  '(t, b) ←! tree_1_to_10;
  '(xs, b') ←! scan 20 t b;
  Ok (xs.*1, GetPinCount b 1, GetPinCount b' 1).

End BPTSpec.
(** * Definitions used by the further properties *)

Module LRUKMoreSpec.

Import LRUK.
Local Open Scope Z_scope.

(** The frames of the two lists, young first. *)
Definition tracked (s : LRUKReplacer) : list frame_id_t :=
  lru_less_k_ s ++ (lru_k_ s).*1.

(** The number of frames of [l] whose evictable flag is [flag]. *)
Definition cnt (ev : frame_id_t → bool) (flag : bool) (l : list frame_id_t) : Z :=
  Z.of_nat (length (filter (λ f, ev f = flag) l)).

(** The bookkeeping of a replacer: no frame is twice in the lists; the
    young list holds the frames with 1 to [k_ - 1] accesses and the mature
    list those with [k_] or more; [curr_size_] counts the evictable frames
    of the lists, [max_size_] is [replacer_size_] less the frames of the
    lists that are not evictable, and the lists hold no more than
    [replacer_size_] frames. *)
Record wf (s : LRUKReplacer) : Prop := mk_wf {
  wf_k : 2 ≤ k_ s;
  wf_cap : 0 ≤ replacer_size_ s < 2 ^ 64;
  wf_ts : 0 ≤ current_timestamp_ s < 2 ^ 64;
  wf_access : ∀ f, 0 ≤ get_access s f ≤ current_timestamp_ s;
  wf_nodup : NoDup (tracked s);
  wf_young : ∀ f, f ∈ lru_less_k_ s ↔ 1 ≤ get_access s f < k_ s;
  wf_mature : ∀ f, f ∈ (lru_k_ s).*1 ↔ k_ s ≤ get_access s f;
  wf_size : curr_size_ s = cnt (get_evictable s) true (tracked s);
  wf_max : max_size_ s + cnt (get_evictable s) false (tracked s) = replacer_size_ s;
  wf_le : Z.of_nat (length (tracked s)) ≤ replacer_size_ s
}.

(** The choice of [Evict]: the victim [g] with the two lists [y] and [m]
    it leaves, either the first evictable frame from the back of the young
    list or, when the young list has none, the first evictable entry of
    the mature list. *)
Definition victim_rel (ev : frame_id_t → bool) (young : list frame_id_t)
    (mature : list kth_timestamp) (g : frame_id_t) (y : list frame_id_t)
    (m : list kth_timestamp) : Prop :=
  (scan_young ev (reverse young) = Some g ∧ y = list_remove g young ∧ m = mature) ∨
  (scan_young ev (reverse young) = None ∧ scan_mature ev mature = Some (g, m) ∧ y = young).

(** The mature list is ordered by the stored timestamp, read as an [int]
    like the comparator of [RecordAccess] reads it. *)
Abbreviation kth_le := (λ x y : kth_timestamp, to_int x.2 ≤ to_int y.2).
Definition mature_sorted (s : LRUKReplacer) : Prop :=
  StronglySorted kth_le (lru_k_ s).

(** The states of a replacer of [num_frames] frames and parameter [k]
    after a sequence of public calls that return without an exception, the
    clock not having wrapped around. *)
Inductive reachable (num_frames k : Z) : LRUKReplacer → Prop :=
  | reach_new : reachable num_frames k (new num_frames k)
  | reach_record f s s' :
      reachable num_frames k s →
      current_timestamp_ s < 2 ^ 64 - 1 →
      RecordAccess f s = Some s' →
      reachable num_frames k s'
  | reach_set f flag s s' :
      reachable num_frames k s →
      SetEvictable f flag s = Some s' →
      reachable num_frames k s'
  | reach_remove f s s' :
      reachable num_frames k s →
      Remove f s = Some s' →
      reachable num_frames k s'
  | reach_evict s :
      reachable num_frames k s →
      reachable num_frames k (Evict s).2.

(** A replacer of three frames with [k = 2]: frames 1, 2, 1 are accessed,
    frame 2 is pinned down, then frame 3 is accessed. *)
Definition sample_1 : LRUKReplacer := default (new 3 2) (RecordAccess 1 (new 3 2)).
Definition sample_2 : LRUKReplacer := default sample_1 (RecordAccess 2 sample_1).
Definition sample_3 : LRUKReplacer := default sample_2 (RecordAccess 1 sample_2).
Definition sample_4 : LRUKReplacer := default sample_3 (SetEvictable 2 false sample_3).
Definition sample_5 : LRUKReplacer := default sample_4 (RecordAccess 3 sample_4).


End LRUKMoreSpec.

Module EHTMoreSpec.
Import EHT.

Section Spec.
Context {K V : Type} `{EqDecision K}.
Variable hash : K → nat.

(** [Find] without the test of the shift: the bucket of the key's slot
    searched for the key. *)
Definition find_raw (key : K) (s : @ExtendibleHashTable K V) : option (option V) :=
  Bucket_Find key <$> bucket_at s (IndexOf hash key s).

(** The number of different buckets the directory refers to. *)
Definition distinct_buckets (s : @ExtendibleHashTable K V) : nat :=
  size (list_to_set (dir_ s) : gset nat).

End Spec.

(** A table of bucket size 2 over integer keys with the identity hash after
    the inserts (4,"a"), (12,"b"), (20,"c"), (5,"d"), and after a further
    [Remove(12)]. *)
Definition more_state_1 : @ExtendibleHashTable nat string :=
  EHTSpec.state_of (Insert id 5 5 "d" EHTSpec.split_state_3) (new 2).
Definition more_state_2 : @ExtendibleHashTable nat string :=
  match Remove id 12 more_state_1 with
  | Some (_, s) => s
  | None => new 2
  end.

(** A hash function under which different keys collide, and a table of
    bucket size 2 whose only bucket is full of two keys of hash 1. *)
Definition hash_mod_4 (x : nat) : nat := x mod 4.
Definition crowded_state : @ExtendibleHashTable nat string :=
  EHTSpec.state_of
    (Insert hash_mod_4 1 5 "b" (EHTSpec.state_of (Insert hash_mod_4 1 1 "a" (new 2)) (new 2)))
    (new 2).

End EHTMoreSpec.

Module BPTMoreSpec.

Import BPT.
Local Open Scope Z_scope.

Section Spec.
Context {KeyType ValueType : Type}.

(** The leaves from page [p] on, linked by their next-page ids, hold the
    entry lists [ls], none of them empty; the last leaf has no next
    leaf. *)
Fixpoint leaf_chain (pages : gmap Z (@BPlusTreePage KeyType ValueType))
    (p : page_id_t) (ls : list (list (KeyType * ValueType))) : Prop :=
  match ls with
  | [] => False
  | a :: rest =>
      p ≠ INVALID_PAGE_ID ∧ a ≠ [] ∧
      ∃ pg next, pages !! p = Some pg ∧ data_ pg = LeafData next a ∧
        match rest with
        | [] => next = INVALID_PAGE_ID
        | _ => leaf_chain pages next rest
        end
  end.

(** The iterator [End()] makes. *)
Definition end_iterator : IndexIterator :=
  {| page_id_ := INVALID_PAGE_ID; page_ := None; index_in_page_ := -1 |}.

End Spec.

(** The tree and the pool an operation leaves behind. *)
Definition tree_of (o : outcome (BPlusTree * @BufferPoolManager Z Z)) : BPlusTree :=
  match o with Ok (t, _) => t | _ => tree_new "idx" 4 4 end.
Definition pool_of (o : outcome (BPlusTree * @BufferPoolManager Z Z))
  : @BufferPoolManager Z Z :=
  match o with Ok (_, b) => b | _ => bpm_new end.

(** The keys 1 to 4 in a tree of leaf and internal maximum size 4: one
    full leaf. *)
Definition tree_1_to_4 : outcome (BPlusTree * @BufferPoolManager Z Z) :=
  BPTSpec.insert_keys 20 [1; 2; 3; 4] (tree_new "idx" 4 4) bpm_new.

(** The trees that differ from [t] in the root page id at most. *)
Definition same_but_root (t t' : BPlusTree) : Prop :=
  index_name_ t' = index_name_ t ∧ leaf_max_size_ t' = leaf_max_size_ t ∧
  internal_max_size_ t' = internal_max_size_ t ∧ cur_size_ t' = cur_size_ t.

Section Order.
Context {KeyType : Type}.

(** The comparator orders the keys as [rank] orders the integers. *)
Definition ranked (comparator_ : KeyType → KeyType → Z) (rank : KeyType → Z) : Prop :=
  ∀ x y, (comparator_ x y < 0 ↔ rank x < rank y) ∧ (comparator_ x y = 0 ↔ rank x = rank y).

(** The entries are in strictly ascending order of their keys. *)
Definition keys_ascend {X : Type} (rank : KeyType → Z) (a : list (KeyType * X)) : Prop :=
  StronglySorted (λ x y, rank x.1 < rank y.1) a.

End Order.

End BPTMoreSpec.


(** * Properties of the LRU-K replacer *)

Module LRUKFacts.

Import LRUK LRUKSpec.
Local Open Scope Z_scope.

(** In the scenario frame 6 is the only young frame, and the mature set
    is ordered by first access. *)
Example basic_scenario_sets :
  (λ s, (lru_less_k_ s, lru_k_ s, Size s)) <$> basic_scenario
  = Some ([6], [(1, 1); (2, 2); (3, 3); (4, 4); (5, 5)], 5).
Proof. vm_compute. reflexivity. Qed.

(** C6, the claim as stated fails: after one access to frame 1 of a fresh
    replacer (7 frames, K = 2), [SetEvictable(1, false)] also lowers
    [max_size_] from 7 to 6. *)
Lemma set_evictable_changes_max_size :
  ¬ (∀ s s', RecordAccess 1 (new 7 2) = Some s →
             SetEvictable 1 false s = Some s' →
             only_flag_and_count_change 1 s s').
Proof.
  intros H.
  set (s := default (new 7 2) (RecordAccess 1 (new 7 2))).
  set (s' := default s (SetEvictable 1 false s)).
  assert (RecordAccess 1 (new 7 2) = Some s) as H1 by (vm_compute; reflexivity).
  assert (SetEvictable 1 false s = Some s') as H2 by (vm_compute; reflexivity).
  destruct (H s s' H1 H2) as (_ & _ & Hmax & _).
  vm_compute in Hmax. discriminate.
Qed.

(** C6, amended: for every tracked frame and flag value, [SetEvictable]
    changes only the evictable flag of that frame, the evictable count
    [curr_size_] and [max_size_], and it moves [max_size_] by the same step
    as [curr_size_]; [replacer_size_], the number of frame slots fixed at
    construction, and everything else are unchanged. *)
Theorem set_evictable_frame (f : frame_id_t) (flag : bool) (s s' : LRUKReplacer) :
  get_access s f ≠ 0 →
  SetEvictable f flag s = Some s' →
  replacer_size_ s' = replacer_size_ s ∧
  k_ s' = k_ s ∧
  current_timestamp_ s' = current_timestamp_ s ∧
  access_times_ s' = access_times_ s ∧
  history_list_ s' = history_list_ s ∧
  lru_less_k_ s' = lru_less_k_ s ∧
  lru_k_ s' = lru_k_ s ∧
  get_evictable s' f = flag ∧
  (∀ g, g ≠ f → get_evictable s' g = get_evictable s g) ∧
  curr_size_ s' = evictable_step (get_evictable s f) flag (curr_size_ s) ∧
  max_size_ s' = evictable_step (get_evictable s f) flag (max_size_ s).
Proof.
  intros Htracked Hset. unfold SetEvictable in Hset.
  destruct (f >? to_int (replacer_size_ s)); [discriminate|].
  destruct (get_access s f =? 0) eqn:Hz.
  { apply Z.eqb_eq in Hz. contradiction. }
  injection Hset as <-. cbn.
  repeat split; try reflexivity.
  - unfold get_evictable. cbn. by rewrite lookup_insert_eq.
  - intros g Hg. unfold get_evictable. cbn. by rewrite lookup_insert_ne.
Qed.

Lemma set_evictable_frame_witness :
  ∃ s s',
    get_access s 1 ≠ 0 ∧ SetEvictable 1 false s = Some s' ∧
    replacer_size_ s' = 7 ∧ curr_size_ s' = 0 ∧ max_size_ s' = 6 ∧
    get_evictable s' 1 = false.
Proof.
  set (s := default (new 7 2) (RecordAccess 1 (new 7 2))).
  set (s' := default s (SetEvictable 1 false s)).
  assert (H1 : get_access s 1 ≠ 0) by (vm_compute; discriminate).
  assert (H2 : SetEvictable 1 false s = Some s') by (vm_compute; reflexivity).
  exists s, s'.
  destruct (set_evictable_frame 1 false s s' H1 H2)
    as (Hr & _ & _ & _ & _ & _ & _ & He & _ & Hc & Hm).
  split; [exact H1|]. split; [exact H2|].
  rewrite Hr, Hc, Hm, He. vm_compute. auto.
Defined.

(** C7, the code at the failing input: with K = 2, five accesses to frame 1
    leave five timestamps in its history, the fourth and the fifth twice,
    and the mature set keyed by 3, while the second most recent access is
    the one at time 4.  The branch for more than K accesses appends the
    timestamp a second time before it drops the front. *)
Theorem history_grows_beyond_k :
  (λ s, (get_history s 1, lru_k_ s, k_ s)) <$> record_all [1; 1; 1; 1; 1] (new 7 2)
  = Some ([3; 4; 4; 5; 5], [(1, 3)], 2).
Proof. vm_compute. reflexivity. Qed.

(** C9, the claim as stated fails: the two victims are not 5 then 1. *)
Lemma basic_scenario_not_5_then_1 :
  ¬ (evict_twice <$> basic_scenario = Some (Some 5, Some 1)).
Proof. vm_compute. discriminate. Qed.

(** C9, amended: in the scenario the first [Evict] succeeds and returns
    frame 1, and the next one returns frame 2. *)
Theorem basic_scenario_evicts_1_then_2 :
  evict_twice <$> basic_scenario = Some (Some 1, Some 2).
Proof. vm_compute. reflexivity. Qed.

End LRUKFacts.

(** * Properties of the extendible hash table *)

Module EHTFacts.
Import EHT EHTSpec.

Section Arith.

Lemma pow2_pos n : 0 < 2 ^ n.
Proof. induction n; simpl; lia. Qed.

Lemma mask_ones n : Nat.shiftl 1 n - 1 = Nat.ones n.
Proof. rewrite Nat.shiftl_1_l, Nat.ones_equiv. lia. Qed.

Lemma land_mask_mod x n : Nat.land x (Nat.shiftl 1 n - 1) = x mod 2 ^ n.
Proof. by rewrite mask_ones, Nat.land_ones. Qed.

Lemma bit_lt x d : bit x d < 2.
Proof. unfold bit. apply Nat.mod_upper_bound. lia. Qed.

Lemma land_pow2_bit x d : Nat.land x (Nat.shiftl 1 d) ≠ 0 ↔ bit x d = 1.
Proof.
  rewrite Nat.shiftl_1_l. unfold bit. rewrite <- Nat.testbit_true. split.
  - intros Hne. destruct (Nat.testbit x d) eqn:Hb; [done|].
    exfalso. apply Hne. apply Nat.bits_inj. intros m.
    rewrite Nat.land_spec, Nat.pow2_bits_eqb, Nat.bits_0.
    destruct (Nat.eqb_spec d m) as [->|]; [by rewrite Hb | by rewrite andb_false_r].
  - intros Hb Hz.
    assert (Nat.testbit (Nat.land x (2 ^ d)) d = true) as Ht.
    { rewrite Nat.land_spec, Hb, Nat.pow2_bits_eqb, Nat.eqb_refl. done. }
    rewrite Hz, Nat.bits_0 in Ht. done.
Qed.

Lemma mod_pow2_succ x d : x mod 2 ^ (d + 1) = x mod 2 ^ d + 2 ^ d * bit x d.
Proof.
  unfold bit. rewrite Nat.pow_add_r, Nat.pow_1_r. apply Nat.Div0.mod_mul_r.
Qed.

Lemma mod_pow2_succ_eq x y d :
  x mod 2 ^ (d + 1) = y mod 2 ^ (d + 1) ↔
  x mod 2 ^ d = y mod 2 ^ d ∧ bit x d = bit y d.
Proof.
  rewrite !mod_pow2_succ.
  pose proof (bit_lt x d). pose proof (bit_lt y d).
  pose proof (Nat.mod_upper_bound x (2 ^ d)) as Hx.
  pose proof (Nat.mod_upper_bound y (2 ^ d)) as Hy.
  pose proof (pow2_pos d).
  split; [|intros [-> ->]; done].
  intros Heq. assert (bit x d = bit y d) as Hb by nia. rewrite Hb in Heq. lia.
Qed.

Lemma mod_pow2_le x y d e :
  d ≤ e → x mod 2 ^ e = y mod 2 ^ e → x mod 2 ^ d = y mod 2 ^ d.
Proof.
  intros Hle Heq.
  assert (∀ z, z mod 2 ^ d = (z mod 2 ^ e) mod 2 ^ d) as Hz.
  { intros z. replace e with (d + (e - d)) by lia.
    rewrite Nat.pow_add_r, Nat.Div0.mod_mul_r.
    rewrite (Nat.mul_comm (2 ^ d)), Nat.Div0.mod_add, Nat.Div0.mod_mod. done. }
  rewrite (Hz x), (Hz y), Heq. done.
Qed.

Lemma mod_mod_pow2 x d e : d ≤ e → (x mod 2 ^ e) mod 2 ^ d = x mod 2 ^ d.
Proof.
  intros Hle. apply (mod_pow2_le _ _ d e Hle). by rewrite Nat.Div0.mod_mod.
Qed.

Lemma sub_pow2_mod x d e : d ≤ e → 2 ^ e ≤ x → (x - 2 ^ e) mod 2 ^ d = x mod 2 ^ d.
Proof.
  intros Hle Hx.
  replace x with ((x - 2 ^ e) + 2 ^ (e - d) * 2 ^ d) at 2.
  - by rewrite Nat.Div0.mod_add.
  - rewrite <- Nat.pow_add_r. replace (e - d + d) with e by lia. lia.
Qed.

(** The indices visited by the second loop of the redistribution. *)
Lemma stride_mod i0 j m :
  0 < m → i0 < m → (i0 ≤ j ∧ (j - i0) mod m = 0) ↔ j mod m = i0.
Proof.
  intros Hm Hi. split.
  - intros [Hle Hmod].
    apply Nat.Div0.mod_divides in Hmod as [q Hq].
    replace j with (i0 + q * m) by lia.
    rewrite Nat.Div0.mod_add. by apply Nat.mod_small.
  - intros Hj. pose proof (Nat.div_mod_eq j m) as Hd. split; [lia|].
    replace (j - i0) with ((j / m) * m) by lia. apply Nat.Div0.mod_mul.
Qed.

End Arith.

Section Facts.

Context {K V : Type} `{EqDecision K}.
Variable hash : K → nat.

Abbreviation Table := (@ExtendibleHashTable K V).
Abbreviation Bucket := (@Bucket K V).

Implicit Types (s : Table) (b : Bucket) (l : list (K * V)).

Lemma IndexOf_mod k s : IndexOf hash k s = hash k mod 2 ^ global_depth_ s.
Proof. apply land_mask_mod. Qed.

Lemma IndexOf_lt k s : IndexOf hash k s < 2 ^ global_depth_ s.
Proof. rewrite IndexOf_mod. apply Nat.mod_upper_bound. pose proof (pow2_pos (global_depth_ s)). lia. Qed.

(** ** Lists of pairs *)

Lemma list_find_key_None k l : list_find_key k l = None ↔ k ∉ l.*1.
Proof.
  induction l as [|[k' v'] l IH]; cbn [list_find_key].
  - split; [intros _; apply not_elem_of_nil | done].
  - rewrite fmap_cons. destruct (decide (k' = k)) as [->|Hne].
    + split; [done|]. intros Hn. exfalso. apply Hn. apply list_elem_of_here.
    + rewrite IH, not_elem_of_cons. cbn. split; [auto | by intros [_ ?]].
Qed.

Lemma list_find_key_assign k v l :
  k ∈ l.*1 → list_find_key k (list_assign_key k v l) = Some v.
Proof.
  induction l as [|[k' v'] l IH]; simpl.
  - intros Hin. by apply elem_of_nil in Hin.
  - intros Hin. destruct (decide (k' = k)) as [->|Hne]; simpl.
    + by rewrite decide_True.
    + rewrite decide_False by done. apply IH.
      apply elem_of_cons in Hin as [?|?]; [congruence | done].
Qed.

Lemma list_assign_key_keys k v l : (list_assign_key k v l).*1 = l.*1.
Proof.
  induction l as [|[k' v'] l IH]; [done|]. cbn [list_assign_key].
  destruct (decide (k' = k)); [done|]. by rewrite !fmap_cons, IH.
Qed.

Lemma list_erase_key_sublist k l : sublist (list_erase_key k l).*1 l.*1.
Proof.
  induction l as [|[k' v'] l IH]; simpl; [done|].
  destruct (decide (k' = k)); simpl.
  - by apply sublist_cons.
  - by apply sublist_skip.
Qed.

(** ** Buckets *)

Lemma Bucket_Insert_depth k v b : depth_ (Bucket_Insert k v b).2 = depth_ b.
Proof.
  unfold Bucket_Insert. destruct (IsFull b); [done|].
  by destruct (list_find_key k (list_ b)).
Qed.

Lemma Bucket_Insert_size k v b : size_ (Bucket_Insert k v b).2 = size_ b.
Proof.
  unfold Bucket_Insert. destruct (IsFull b); [done|].
  by destruct (list_find_key k (list_ b)).
Qed.

Lemma Bucket_Insert_length k v b :
  length (list_ b) ≤ size_ b →
  length (list_ (Bucket_Insert k v b).2) ≤ size_ (Bucket_Insert k v b).2.
Proof.
  intros Hle. unfold Bucket_Insert, IsFull. case_bool_decide as Hfull; [done|].
  destruct (list_find_key k (list_ b)); simpl.
  - rewrite <- (length_fmap fst), list_assign_key_keys, length_fmap. done.
  - lia.
Qed.

Lemma Bucket_Insert_keys k v b x :
  x ∈ (list_ (Bucket_Insert k v b).2).*1 → x = k ∨ x ∈ (list_ b).*1.
Proof.
  unfold Bucket_Insert. destruct (IsFull b); [by right|].
  destruct (list_find_key k (list_ b)); simpl.
  - rewrite list_assign_key_keys. by right.
  - rewrite elem_of_cons. done.
Qed.

Lemma Bucket_Insert_NoDup k v b :
  NoDup (list_ b).*1 → NoDup (list_ (Bucket_Insert k v b).2).*1.
Proof.
  intros Hnd. unfold Bucket_Insert. destruct (IsFull b); [done|].
  destruct (list_find_key k (list_ b)) eqn:Hf; simpl.
  - by rewrite list_assign_key_keys.
  - apply NoDup_cons. split; [|done]. by apply list_find_key_None.
Qed.

Lemma Bucket_Insert_Find k v b b' :
  Bucket_Insert k v b = (true, b') → Bucket_Find k b' = Some v.
Proof.
  unfold Bucket_Insert, Bucket_Find. destruct (IsFull b); [done|].
  destruct (list_find_key k (list_ b)) eqn:Hf; intros [= <-]; simpl.
  - apply list_find_key_assign.
    destruct (decide (k ∈ (list_ b).*1)) as [|Hn]; [done|].
    apply list_find_key_None in Hn. congruence.
  - by rewrite decide_True.
Qed.

Lemma Bucket_Insert_full k v b : IsFull b = true → Bucket_Insert k v b = (false, b).
Proof. unfold Bucket_Insert. by intros ->. Qed.

Lemma Bucket_Insert_ok k v b : IsFull b = false → (Bucket_Insert k v b).1 = true.
Proof.
  unfold Bucket_Insert. intros ->. by destruct (list_find_key k (list_ b)).
Qed.

Lemma Bucket_Remove_depth k b : depth_ (Bucket_Remove k b).2 = depth_ b.
Proof. unfold Bucket_Remove. by destruct (list_find_key k (list_ b)). Qed.

Lemma Bucket_Remove_size k b : size_ (Bucket_Remove k b).2 = size_ b.
Proof. unfold Bucket_Remove. by destruct (list_find_key k (list_ b)). Qed.

Lemma Bucket_Remove_sublist k b :
  sublist (list_ (Bucket_Remove k b).2).*1 (list_ b).*1.
Proof.
  unfold Bucket_Remove. destruct (list_find_key k (list_ b)); simpl; [|done].
  apply list_erase_key_sublist.
Qed.

(** ** The two loops of the redistribution *)

Lemma distribute_spec mask items b0 b1 b0' b1' :
  distribute hash mask items b0 b1 = (b0', b1') →
  (depth_ b0' = depth_ b0 ∧ size_ b0' = size_ b0 ∧
   depth_ b1' = depth_ b1 ∧ size_ b1' = size_ b1) ∧
  (length (list_ b0) ≤ size_ b0 → length (list_ b0') ≤ size_ b0') ∧
  (length (list_ b1) ≤ size_ b1 → length (list_ b1') ≤ size_ b1') ∧
  (NoDup (list_ b0).*1 → NoDup (list_ b0').*1) ∧
  (NoDup (list_ b1).*1 → NoDup (list_ b1').*1) ∧
  (∀ x, x ∈ (list_ b0').*1 →
        x ∈ (list_ b0).*1 ∨ (x ∈ items.*1 ∧ ¬ Nat.land (hash x) mask ≠ 0)) ∧
  (∀ x, x ∈ (list_ b1').*1 →
        x ∈ (list_ b1).*1 ∨ (x ∈ items.*1 ∧ Nat.land (hash x) mask ≠ 0)).
Proof.
  revert b0 b1. induction items as [|[k v] items IH]; intros b0 b1; simpl.
  - intros [= <- <-]. naive_solver.
  - case_bool_decide as Hbit; intros Hd; apply IH in Hd;
      destruct Hd as ((Hd0 & Hs0 & Hd1 & Hs1) & Hl0 & Hl1 & Hn0 & Hn1 & Hk0 & Hk1).
    + rewrite Bucket_Insert_depth in Hd1. rewrite Bucket_Insert_size in Hs1.
      split_and!; try done.
      * intros Hle. apply Hl1. by apply Bucket_Insert_length.
      * intros Hnd. apply Hn1. by apply Bucket_Insert_NoDup.
      * intros x Hx. destruct (Hk0 x Hx) as [?|[? ?]]; [by left|right].
        split; [|done]. by apply elem_of_cons; right.
      * intros x Hx. destruct (Hk1 x Hx) as [Hx'|[? ?]].
        -- apply Bucket_Insert_keys in Hx' as [->|?]; [right|by left].
           split; [apply list_elem_of_here | done].
        -- right. split; [|done]. by apply elem_of_cons; right.
    + rewrite Bucket_Insert_depth in Hd0. rewrite Bucket_Insert_size in Hs0.
      split_and!; try done.
      * intros Hle. apply Hl0. by apply Bucket_Insert_length.
      * intros Hnd. apply Hn0. by apply Bucket_Insert_NoDup.
      * intros x Hx. destruct (Hk0 x Hx) as [Hx'|[? ?]].
        -- apply Bucket_Insert_keys in Hx' as [->|?]; [right|by left].
           split; [apply list_elem_of_here | congruence].
        -- right. split; [|done]. by apply elem_of_cons; right.
      * intros x Hx. destruct (Hk1 x Hx) as [?|[? ?]]; [by left|right].
        split; [|done]. by apply elem_of_cons; right.
Qed.

Lemma repoint_length fuel i mask p0 p1 dir :
  length (repoint fuel i mask p0 p1 dir) = length dir.
Proof.
  revert i dir. induction fuel as [|fuel IH]; intros i dir; simpl; [done|].
  case_bool_decide; [|done]. by rewrite IH, length_insert.
Qed.

Lemma repoint_lookup fuel i mask p0 p1 dir j :
  0 < mask → length dir ≤ i + fuel →
  repoint fuel i mask p0 p1 dir !! j =
    if decide (i ≤ j ∧ (j - i) mod mask = 0 ∧ j < length dir)
    then Some (pick mask p0 p1 j) else dir !! j.
Proof.
  intros Hm. revert i dir. induction fuel as [|fuel IH]; intros i dir Hfuel; simpl.
  - case_decide as Hc; [lia|done].
  - case_bool_decide as Hi.
    + rewrite IH by (rewrite length_insert; lia). rewrite length_insert.
      destruct (decide (j = i)) as [->|Hne].
      * rewrite decide_False by lia.
        rewrite decide_True by (rewrite Nat.sub_diag, Nat.Div0.mod_0_l; done).
        by rewrite list_lookup_insert_eq.
      * rewrite list_lookup_insert_ne by done.
        case_decide as Hc1; case_decide as Hc2; try done.
        -- exfalso. apply Hc2. destruct Hc1 as (? & Hmod & ?). split_and!; [lia| |done].
           replace (j - i) with (j - (i + mask) + 1 * mask) by lia.
           by rewrite Nat.Div0.mod_add.
        -- exfalso. apply Hc1. destruct Hc2 as (? & Hmod & ?).
           assert (mask ≤ j - i) as Hge.
           { destruct (decide (mask ≤ j - i)); [done|].
             rewrite Nat.mod_small in Hmod by lia. lia. }
           split_and!; [lia| |done].
           replace (j - i) with (j - (i + mask) + 1 * mask) in Hmod by lia.
           by rewrite Nat.Div0.mod_add in Hmod.
    + rewrite decide_False by lia. done.
Qed.


(** ** The directory invariant is kept by every step *)

Ltac table_simpl :=
  cbn [global_depth_ bucket_size_ num_buckets_ dir_ heap set_heap grow
       depth_ size_ list_ Bucket_new] in *.

Lemma slot_ok_bucket s i p b : slot_ok hash s i p b → bucket_shape s b.
Proof. by intros (_ & ? & _). Qed.

Lemma Inv_new bucket_size : Inv hash (new (K:=K) (V:=V) bucket_size).
Proof.
  split; [done|]. intros i Hi. cbn in Hi. assert (i = 0) as -> by lia.
  exists 0, (Bucket_new bucket_size 0). split_and!; [done..|].
  split_and!; cbn.
  - done.
  - split_and!; cbn; [done | lia | apply NoDup_nil_2].
  - intros k Hk. by apply elem_of_nil in Hk.
  - intros j Hj. assert (j = 0) as -> by lia. done.
Qed.

Lemma Inv_lookup_lt s j q : Inv hash s → dir_ s !! j = Some q → q < length (heap s).
Proof.
  intros [Hlen Hslots] Hq.
  assert (j < 2 ^ global_depth_ s) as Hj.
  { rewrite <- Hlen. by eapply lookup_lt_Some. }
  destruct (Hslots j Hj) as (q' & b & Hq' & Hb & _).
  rewrite Hq in Hq'. injection Hq' as <-. by eapply lookup_lt_Some.
Qed.

Lemma Inv_set_bucket s i0 p b b' :
  Inv hash s →
  i0 < 2 ^ global_depth_ s →
  dir_ s !! i0 = Some p →
  heap s !! p = Some b →
  depth_ b' = depth_ b →
  bucket_shape s b' →
  (∀ k, k ∈ (list_ b').*1 → hash k mod 2 ^ depth_ b = i0 mod 2 ^ depth_ b) →
  Inv hash (set_heap s (<[p := b']> (heap s))).
Proof.
  intros [Hlen Hslots] Hi0 Hp Hb Hdepth Hshape Hkeys.
  split; [done|]. intros i Hi. table_simpl.
  destruct (Hslots i Hi) as (q & bq & Hq & Hbq & Hok).
  destruct (decide (q = p)) as [->|Hne].
  - exists p, b'. split_and!; [done| |].
    + apply list_lookup_insert_eq. by eapply lookup_lt_Some.
    + rewrite Hb in Hbq. injection Hbq as <-.
      destruct Hok as (Hd & _ & _ & Hdir).
      split_and!; table_simpl; rewrite ?Hdepth; [done..| |done].
      intros k Hk. rewrite (Hkeys k Hk). by apply Hdir.
  - exists q, bq. split_and!; [done| |done].
    table_simpl. by rewrite list_lookup_insert_ne.
Qed.

Lemma grow_lookup (dir : list nat) G i :
  length dir = 2 ^ G → i < 2 ^ (G + 1) →
  ∃ i', i' < 2 ^ G ∧ (dir ++ dir) !! i = dir !! i' ∧
        ∀ d, d ≤ G → i' mod 2 ^ d = i mod 2 ^ d.
Proof.
  intros Hlen Hi. rewrite Nat.pow_add_r, Nat.pow_1_r in Hi.
  destruct (decide (i < 2 ^ G)) as [Hlt|Hge].
  - exists i. split_and!; [done| |done]. apply lookup_app_l. lia.
  - exists (i - 2 ^ G). split_and!; [lia| |].
    + rewrite lookup_app_r by lia. by rewrite Hlen.
    + intros d Hd. apply sub_pow2_mod; [done|lia].
Qed.

Lemma Inv_grow s : Inv hash s → Inv hash (grow s).
Proof.
  intros [Hlen Hslots]. split; table_simpl.
  { rewrite length_app, Hlen, Nat.pow_add_r, Nat.pow_1_r. lia. }
  intros i Hi.
  destruct (grow_lookup _ _ i Hlen Hi) as (i' & Hi' & Hlook & Hmod).
  destruct (Hslots i' Hi') as (p & b & Hp & Hb & Hd & Hshape & Hkeys & Hdir).
  exists p, b. split_and!; [by rewrite Hlook | done |].
  split_and!; table_simpl; [lia | done | |].
  - intros k Hk. rewrite (Hkeys k Hk). by apply Hmod.
  - intros j Hj.
    destruct (grow_lookup _ _ j Hlen Hj) as (j' & Hj' & Hlookj & Hmodj).
    rewrite Hlookj, (Hdir j' Hj'), (Hmodj _ Hd), (Hmod _ Hd). done.
Qed.


Lemma pick_bit d p0 p1 j :
  pick (Nat.shiftl 1 d) p0 p1 j = if decide (bit j d = 1) then p1 else p0.
Proof.
  unfold pick. pose proof (land_pow2_bit j d) as Hb.
  case_bool_decide as H1; case_decide as H2; try done.
  - exfalso. by apply H2, Hb.
  - exfalso. apply Hb in H2. done.
Qed.

Lemma redistribute_lookup s di d j :
  length (dir_ s) = 2 ^ global_depth_ s →
  j < 2 ^ global_depth_ s →
  repoint (length (dir_ s)) (Nat.land di (Nat.shiftl 1 d - 1)) (Nat.shiftl 1 d)
          (length (heap s)) (S (length (heap s))) (dir_ s) !! j
  = if decide (j mod 2 ^ d = di mod 2 ^ d)
    then Some (if decide (bit j d = 1) then S (length (heap s)) else length (heap s))
    else dir_ s !! j.
Proof.
  intros Hlen Hj.
  rewrite repoint_lookup; [|rewrite Nat.shiftl_1_l; apply pow2_pos|lia].
  rewrite pick_bit, land_mask_mod, Nat.shiftl_1_l.
  assert (di mod 2 ^ d < 2 ^ d) as Hlt.
  { apply Nat.mod_upper_bound. pose proof (pow2_pos d). lia. }
  pose proof (stride_mod (di mod 2 ^ d) j (2 ^ d) (pow2_pos d) Hlt) as Hst.
  destruct (decide (j mod 2 ^ d = di mod 2 ^ d)) as [Hc|Hc].
  - apply Hst in Hc. rewrite decide_True; [done|]. split_and!; [tauto..|lia].
  - rewrite decide_False; [done|]. intros (? & ? & _). apply Hc, Hst. done.
Qed.

Lemma Inv_redistribute s di p b s' :
  Inv hash s →
  di < 2 ^ global_depth_ s →
  dir_ s !! di = Some p →
  heap s !! p = Some b →
  depth_ b < global_depth_ s →
  RedistributeBucket hash p di s = Some s' →
  Inv hash s'.
Proof.
  intros HInv Hdi Hp Hb Hdepth Hred.
  pose proof HInv as [Hlen Hslots].
  unfold RedistributeBucket in Hred. rewrite Hb in Hred. simpl in Hred.
  destruct (shift_fits (depth_ b)); [|done].
  destruct (distribute _ _ _ _ _) as [B0 B1] eqn:Hdist. injection Hred as <-.
  apply distribute_spec in Hdist
    as ((Hd0 & Hs0 & Hd1 & Hs1) & Hl0 & Hl1 & Hn0 & Hn1 & Hk0 & Hk1).
  table_simpl.
  destruct (Hslots di Hdi) as (p' & b' & Hp' & Hb' & Hokp).
  rewrite Hp in Hp'. injection Hp' as <-.
  rewrite Hb in Hb'. injection Hb' as <-.
  destruct Hokp as (_ & _ & Hkeysp & Hdirp).
  set (d := depth_ b) in *.
  assert (∀ x, bit x d ≠ 1 → bit x d = 0) as Hbit0.
  { intros x. pose proof (bit_lt x d). lia. }
  split; table_simpl; [by rewrite repoint_length|].
  intros i Hi. rewrite (redistribute_lookup s di d i Hlen Hi).
  destruct (decide (i mod 2 ^ d = di mod 2 ^ d)) as [Hc|Hc].
  - (* the slot referred to the bucket that is split *)
    assert (∀ j, j < 2 ^ global_depth_ s → j mod 2 ^ d ≠ di mod 2 ^ d →
                 ∀ q, length (heap s) ≤ q →
                 (dir_ s !! j = Some q ↔ j mod 2 ^ (d + 1) = i mod 2 ^ (d + 1))) as Hother.
    { intros j Hj Hcj q Hq. split.
      - intros Hjq. apply (Inv_lookup_lt s j q HInv) in Hjq. lia.
      - intros Hmod. apply mod_pow2_succ_eq in Hmod as [Hmod _]. congruence. }
    destruct (decide (bit i d = 1)) as [Hbi|Hbi].
    + exists (S (length (heap s))), B1. split_and!; [done| |].
      { rewrite lookup_app_r by lia.
        by replace (S (length (heap s)) - length (heap s)) with 1 by lia. }
      split_and!; table_simpl.
      * rewrite Hd1. lia.
      * split_and!; [done | apply Hl1; cbn; lia | apply Hn1, NoDup_nil_2].
      * intros k Hk. rewrite Hd1. apply mod_pow2_succ_eq.
        destruct (Hk1 k Hk) as [Hnil|[Hin Hbk]]; [by apply elem_of_nil in Hnil|].
        apply land_pow2_bit in Hbk. split; [|congruence].
        rewrite (Hkeysp k Hin). done.
      * intros j Hj. rewrite (redistribute_lookup s di d j Hlen Hj), Hd1.
        case_decide as Hcj; [|apply Hother; [done..|lia]].
        rewrite mod_pow2_succ_eq. case_decide as Hbj; split.
        -- intros _. split; congruence.
        -- done.
        -- intros [= ?]. lia.
        -- intros [_ ?]. congruence.
    + exists (length (heap s)), B0. split_and!; [done| |].
      { rewrite lookup_app_r by lia. by rewrite Nat.sub_diag. }
      split_and!; table_simpl.
      * rewrite Hd0. lia.
      * split_and!; [done | apply Hl0; cbn; lia | apply Hn0, NoDup_nil_2].
      * intros k Hk. rewrite Hd0. apply mod_pow2_succ_eq.
        destruct (Hk0 k Hk) as [Hnil|[Hin Hbk]]; [by apply elem_of_nil in Hnil|].
        rewrite land_pow2_bit in Hbk. split.
        -- rewrite (Hkeysp k Hin). done.
        -- rewrite (Hbit0 _ Hbk), (Hbit0 _ Hbi). done.
      * intros j Hj. rewrite (redistribute_lookup s di d j Hlen Hj), Hd0.
        case_decide as Hcj; [|apply Hother; [done..|lia]].
        rewrite mod_pow2_succ_eq. case_decide as Hbj; split.
        -- intros [= ?]. lia.
        -- intros [_ ?]. congruence.
        -- intros _. split; [congruence|]. by rewrite (Hbit0 _ Hbj), (Hbit0 _ Hbi).
        -- done.
  - (* the slot referred to another bucket *)
    destruct (Hslots i Hi) as (q & bq & Hq & Hbq & Hdq & Hshq & Hkq & Hdirq).
    exists q, bq. split_and!; [done| |].
    { by apply lookup_app_l_Some. }
    split_and!; table_simpl; [done..|].
    intros j Hj. rewrite (redistribute_lookup s di d j Hlen Hj).
    case_decide as Hcj; [|by apply Hdirq].
    split.
    + intros [= Heq]. pose proof (Inv_lookup_lt s i q HInv Hq). case_decide; lia.
    + intros Hmod. exfalso. apply Hc.
      apply Hdirq in Hmod; [|done]. apply Hdirp in Hcj; [|done].
      rewrite Hcj in Hmod. injection Hmod as <-. by apply Hdirp.
Qed.


Lemma Inv_split k s s' : Inv hash s → split hash k s = Some s' → Inv hash s'.
Proof.
  intros HInv Hsplit. pose proof HInv as [Hlen Hslots].
  pose proof (IndexOf_lt k s) as Hi.
  unfold split, bucket_at in Hsplit.
  destruct (Hslots _ Hi) as (p & b & Hp & Hb & Hd & _).
  rewrite Hp in Hsplit. simpl in Hsplit. rewrite Hb in Hsplit. simpl in Hsplit.
  case_bool_decide as Hfull.
  - assert (dir_ (grow s) !! IndexOf hash k s = Some p) as Hp'.
    { table_simpl. rewrite lookup_app_l by lia. done. }
    rewrite Hp' in Hsplit. simpl in Hsplit.
    eapply (Inv_redistribute (grow s)); [by apply Inv_grow| |done|done| |done];
      table_simpl; [|lia].
    rewrite Nat.pow_add_r. pose proof (pow2_pos 1). nia.
  - rewrite Hp in Hsplit. simpl in Hsplit.
    eapply Inv_redistribute; [done..|lia|done].
Qed.

Lemma Inv_Insert fuel k v s s' :
  Inv hash s → Insert hash fuel k v s = Ok s' → Inv hash s'.
Proof.
  revert s. induction fuel as [|fuel IH]; intros s HInv Hins; [done|].
  pose proof HInv as [Hlen Hslots].
  pose proof (IndexOf_lt k s) as Hi.
  destruct (Hslots _ Hi) as (p & b & Hp & Hb & Hd & Hshape & Hkeys & Hdir).
  simpl in Hins. destruct (shift_fits (global_depth_ s)); [|done].
  rewrite Hp in Hins. simpl in Hins. rewrite Hb in Hins. simpl in Hins.
  destruct (Bucket_Insert k v b) as [[] b'] eqn:Hbi.
  - injection Hins as <-.
    assert (b' = (Bucket_Insert k v b).2) as -> by (by rewrite Hbi).
    destruct Hshape as (Hsize & Hlength & Hnd).
    eapply Inv_set_bucket; [done..| apply Bucket_Insert_depth | |].
    + split_and!.
      * by rewrite Bucket_Insert_size.
      * by apply Bucket_Insert_length.
      * by apply Bucket_Insert_NoDup.
    + intros x Hx. apply Bucket_Insert_keys in Hx as [->|Hx]; [|by apply Hkeys].
      rewrite IndexOf_mod. by rewrite mod_mod_pow2.
  - destruct (split hash k s) as [s1|] eqn:Hsplit; [|done]. simpl in Hins.
    eapply IH; [|done]. by eapply Inv_split.
Qed.

Lemma Inv_Remove k s r s' : Inv hash s → Remove hash k s = Some (r, s') → Inv hash s'.
Proof.
  intros HInv Hrem. pose proof HInv as [Hlen Hslots].
  pose proof (IndexOf_lt k s) as Hi.
  destruct (Hslots _ Hi) as (p & b & Hp & Hb & Hd & Hshape & Hkeys & Hdir).
  unfold Remove in Hrem. destruct (shift_fits (global_depth_ s)); [|done].
  rewrite Hp in Hrem. simpl in Hrem.
  rewrite Hb in Hrem. simpl in Hrem.
  destruct (Bucket_Remove k b) as [r' b'] eqn:Hbr. injection Hrem as <- <-.
  assert (b' = (Bucket_Remove k b).2) as -> by (by rewrite Hbr).
  destruct Hshape as (Hsize & Hlength & Hnd).
  pose proof (Bucket_Remove_sublist k b) as Hsub.
  eapply Inv_set_bucket; [done..| apply Bucket_Remove_depth | |].
  - split_and!.
    + by rewrite Bucket_Remove_size.
    + rewrite Bucket_Remove_size. apply sublist_length in Hsub.
      rewrite !length_fmap in Hsub. lia.
    + by eapply sublist_NoDup.
  - intros x Hx. apply Hkeys. by eapply elem_of_sublist.
Qed.

Lemma reachable_Inv bucket_size s : reachable hash bucket_size s → Inv hash s.
Proof.
  induction 1 as [|s fuel k v s' _ IH Hins|s k r s' _ IH Hrem].
  - apply Inv_new.
  - by eapply Inv_Insert.
  - by eapply Inv_Remove.
Qed.

(** ** Counting the slots that refer to a bucket *)

Lemma count_slots_app p (l1 l2 : list nat) :
  count_slots p (l1 ++ l2) = count_slots p l1 + count_slots p l2.
Proof. induction l1 as [|q l1 IH]; simpl; [done|]. rewrite IH. lia. Qed.

Lemma count_slots_none p (l : list nat) :
  (∀ j, l !! j ≠ Some p) → count_slots p l = 0.
Proof.
  induction l as [|q l IH]; intros Hnone; simpl; [done|].
  rewrite decide_False.
  - rewrite IH; [done|]. intros j. apply (Hnone (S j)).
  - intros ->. by apply (Hnone 0).
Qed.

Lemma count_slots_single p r (l : list nat) :
  r < length l → (∀ j, j < length l → l !! j = Some p ↔ j = r) →
  count_slots p l = 1.
Proof.
  revert r. induction l as [|q l IH]; intros r Hr Hone; simpl in *; [lia|].
  destruct r as [|r].
  - rewrite decide_True.
    + rewrite count_slots_none; [done|]. intros j Hj.
      apply (Hone (S j)) in Hj; [done|].
      apply lookup_lt_Some in Hj. lia.
    + assert (Some q = Some p) as [= ->]; [|done]. apply (Hone 0); [lia|done].
  - rewrite decide_False.
    + rewrite (IH r); [done|lia|]. intros j Hj.
      pose proof (Hone (S j) ltac:(lia)) as Hj'. simpl in Hj'. rewrite Hj'. lia.
    + intros ->. assert (0 = S r); [|done]. apply Hone; [lia|done].
Qed.

Lemma count_slots_residue p n m r (l : list nat) :
  r < m → length l = n * m →
  (∀ j, j < n * m → l !! j = Some p ↔ j mod m = r) →
  count_slots p l = n.
Proof.
  intros Hr. revert l. induction n as [|n IH]; intros l Hlen Hres.
  - destruct l; [done|]. simpl in Hlen. lia.
  - rewrite <- (take_drop m l), count_slots_app.
    rewrite (count_slots_single p r).
    + rewrite IH; [done| |].
      * rewrite length_drop. lia.
      * intros j Hj. rewrite lookup_drop, Hres by lia.
        replace (m + j) with (j + 1 * m) by lia. by rewrite Nat.Div0.mod_add.
    + rewrite length_take. lia.
    + intros j Hj. rewrite length_take in Hj.
      rewrite lookup_take_lt by lia. rewrite Hres by lia.
      by rewrite Nat.mod_small by lia.
Qed.

Lemma Inv_count s i p b :
  Inv hash s → i < 2 ^ global_depth_ s →
  dir_ s !! i = Some p → heap s !! p = Some b →
  count_slots p (dir_ s) = 2 ^ (global_depth_ s - depth_ b).
Proof.
  intros [Hlen Hslots] Hi Hp Hb.
  destruct (Hslots i Hi) as (p' & b' & Hp' & Hb' & Hd & _ & _ & Hdir).
  rewrite Hp in Hp'. injection Hp' as <-. rewrite Hb in Hb'. injection Hb' as <-.
  assert (2 ^ (global_depth_ s - depth_ b) * 2 ^ depth_ b = 2 ^ global_depth_ s) as Hpow.
  { rewrite <- Nat.pow_add_r. f_equal. lia. }
  apply (count_slots_residue p _ (2 ^ depth_ b) (i mod 2 ^ depth_ b)).
  - apply Nat.mod_upper_bound. pose proof (pow2_pos (depth_ b)). lia.
  - by rewrite Hpow.
  - intros j Hj. rewrite Hpow in Hj. by apply Hdir.
Qed.


(** ** What a call of [Insert] that returns has done *)

Lemma Insert_fuel_mono fuel fuel' k v s s' :
  fuel ≤ fuel' → Insert hash fuel k v s = Ok s' → Insert hash fuel' k v s = Ok s'.
Proof.
  revert fuel' s. induction fuel as [|fuel IH]; intros fuel' s Hle Hins; [done|].
  destruct fuel' as [|fuel']; [lia|]. simpl in *.
  destruct (shift_fits (global_depth_ s)); [|done].
  destruct (dir_ s !! IndexOf hash k s) as [p|]; [simpl in *|done].
  destruct (heap s !! p) as [b|]; [simpl in *|done].
  destruct (Bucket_Insert k v b) as [[] b']; [done|].
  destruct (split hash k s) as [s1|]; [simpl in *|done].
  apply IH; [lia|done].
Qed.

Lemma Insert_deterministic fuel fuel' k v s s1 s2 :
  Insert hash fuel k v s = Ok s1 → Insert hash fuel' k v s = Ok s2 → s1 = s2.
Proof.
  intros H1 H2.
  apply (Insert_fuel_mono _ (fuel `max` fuel')) in H1; [|lia].
  apply (Insert_fuel_mono _ (fuel `max` fuel')) in H2; [|lia].
  congruence.
Qed.

(** Whenever [Insert(k, v)] returns, [Find(k)] returns [v]. *)
Lemma Insert_Find fuel k v s s' :
  Insert hash fuel k v s = Ok s' → Find hash k s' = Some (Some v).
Proof.
  revert s. induction fuel as [|fuel IH]; intros s Hins; [done|]. simpl in Hins.
  destruct (shift_fits (global_depth_ s)) eqn:Hfits; [|done].
  destruct (dir_ s !! IndexOf hash k s) as [p|] eqn:Hp; [simpl in Hins|done].
  destruct (heap s !! p) as [b|] eqn:Hb; [simpl in Hins|done].
  destruct (Bucket_Insert k v b) as [[] b'] eqn:Hbi.
  - injection Hins as <-. unfold Find, bucket_at, IndexOf in *. table_simpl.
    rewrite Hfits, Hp. simpl. rewrite list_lookup_insert_eq by (by eapply lookup_lt_Some).
    simpl. by rewrite (Bucket_Insert_Find k v b b').
  - destruct (split hash k s) as [s1|]; [simpl in Hins|done]. by eapply IH.
Qed.

(** [Insert] returns at once when the bucket of the key has room. *)
Lemma Insert_room k v s p b :
  shift_fits (global_depth_ s) = true →
  dir_ s !! IndexOf hash k s = Some p → heap s !! p = Some b → IsFull b = false →
  ∃ s', Insert hash 1 k v s = Ok s'.
Proof.
  intros Hfits Hp Hb Hfull. simpl. rewrite Hfits, Hp. simpl. rewrite Hb. simpl.
  pose proof (Bucket_Insert_ok k v b Hfull) as Hok.
  destruct (Bucket_Insert k v b) as [ok b']. simpl in Hok. subst ok. eauto.
Qed.

(** C4: after every sequence of calls of [Insert] and [Remove] that return,
    on a table made with any bucket size, the directory has [2^G] slots;
    every slot refers to a bucket of local depth [L ≤ G]; exactly
    [2^(G-L)] slots refer to that bucket; a key occurs at most once in it;
    and for every key [k] stored in it, the slot [IndexOf(k)] refers to the
    same bucket, which is thus the only bucket of the directory that
    contains [k]. *)
Theorem directory_invariants bucket_size s :
  reachable hash bucket_size s →
  length (dir_ s) = 2 ^ GetGlobalDepth s ∧
  ∀ i, i < length (dir_ s) →
    ∃ p b, dir_ s !! i = Some p ∧ heap s !! p = Some b ∧
      GetLocalDepth i s = Some (depth_ b) ∧
      depth_ b ≤ GetGlobalDepth s ∧
      count_slots p (dir_ s) = 2 ^ (GetGlobalDepth s - depth_ b) ∧
      NoDup (list_ b).*1 ∧
      ∀ k, k ∈ (list_ b).*1 → dir_ s !! IndexOf hash k s = Some p.
Proof.
  intros Hreach. apply reachable_Inv in Hreach as HInv.
  pose proof HInv as [Hlen Hslots]. unfold GetGlobalDepth.
  split; [done|]. intros i Hi. rewrite Hlen in Hi.
  destruct (Hslots i Hi) as (p & b & Hp & Hb & Hd & (_ & _ & Hnd) & Hkeys & Hdir).
  exists p, b. split_and!; [done..| | | | |].
  - unfold GetLocalDepth, bucket_at. rewrite Hp. simpl. by rewrite Hb.
  - done.
  - by eapply Inv_count.
  - done.
  - intros k Hk. apply Hdir; [apply IndexOf_lt|].
    rewrite IndexOf_mod, mod_mod_pow2 by done. by apply Hkeys.
Qed.

End Facts.

Lemma directory_invariants_witness :
  reachable id 2 split_state_4 ∧
  length (dir_ split_state_4) = 2 ^ GetGlobalDepth split_state_4 ∧
  ∀ i, i < length (dir_ split_state_4) →
    ∃ p b, dir_ split_state_4 !! i = Some p ∧ heap split_state_4 !! p = Some b ∧
      GetLocalDepth i split_state_4 = Some (depth_ b) ∧
      depth_ b ≤ GetGlobalDepth split_state_4 ∧
      count_slots p (dir_ split_state_4) = 2 ^ (GetGlobalDepth split_state_4 - depth_ b) ∧
      NoDup (list_ b).*1 ∧
      ∀ k, k ∈ (list_ b).*1 → dir_ split_state_4 !! IndexOf id k split_state_4 = Some p.
Proof.
  assert (reachable id 2 split_state_4) as Hr.
  { apply (reach_remove id 2 split_state_3 12 true); [|vm_compute; reflexivity].
    apply (reach_insert id 2 split_state_2 5 20 "c"); [|vm_compute; reflexivity].
    apply (reach_insert id 2 split_state_1 5 12 "b"); [|vm_compute; reflexivity].
    apply (reach_insert id 2 (new 2) 5 4 "a"); [|vm_compute; reflexivity].
    apply reach_new. }
  split; [exact Hr|].
  exact (directory_invariants id 2 split_state_4 Hr).
Defined.

(** ** The scenarios *)

Lemma hash_split_result :
  ∃ s, hash_split_scenario 5 = Ok s ∧ GetGlobalDepth s = 4 ∧ GetNumBuckets s = 5.
Proof. eexists. split; [vm_compute; reflexivity|]. split; reflexivity. Qed.

Lemma obind_Ok {A B : Type} (m : outcome A) (f : A → outcome B) (y : B) :
  obind m f = Ok y → ∃ x, m = Ok x ∧ f x = Ok y.
Proof. destruct m as [x| |]; [|done..]. intros Hf. by exists x. Qed.

Lemma hash_split_any_fuel fuel s :
  hash_split_scenario fuel = Ok s → GetGlobalDepth s = 4 ∧ GetNumBuckets s = 5.
Proof.
  destruct hash_split_result as (s5 & H5 & Hd & Hn).
  intros Hf. enough (s = s5) as -> by (split; assumption).
  unfold hash_split_scenario in Hf, H5.
  apply obind_Ok in Hf as (a1 & Ha1 & Hf). apply obind_Ok in Hf as (a2 & Ha2 & Hf).
  apply obind_Ok in H5 as (b1 & Hb1 & H5). apply obind_Ok in H5 as (b2 & Hb2 & H5).
  pose proof (Insert_deterministic id _ _ _ _ _ _ _ Ha1 Hb1) as ->.
  pose proof (Insert_deterministic id _ _ _ _ _ _ _ Ha2 Hb2) as ->.
  exact (Insert_deterministic id _ _ _ _ _ _ _ Hf H5).
Qed.

(** C8, the claim as stated fails: whatever number of rounds the inserts
    are allowed, the scenario does not end with global depth 2 and two
    buckets. *)
Lemma hash_split_not_depth_2 :
  ¬ ∃ fuel s, hash_split_scenario fuel = Ok s ∧
              GetGlobalDepth s = 2 ∧ GetNumBuckets s = 2.
Proof.
  intros (fuel & s & Hs & Hd & _).
  apply hash_split_any_fuel in Hs as [Hd' _]. congruence.
Qed.

(** C8, amended: with bucket capacity 2 and the identity hash, the inserts
    (4,"a"), (12,"b"), (20,"c") into a fresh table return, within five
    rounds of the loop each, and leave the table with global depth 4 and a
    bucket count of 5. *)
Theorem hash_split_depth_4_buckets_5 :
  ∃ s, hash_split_scenario 5 = Ok s ∧ GetGlobalDepth s = 4 ∧ GetNumBuckets s = 5.
Proof. exact hash_split_result. Qed.

Lemma stuck_split s :
  stuck s → shift_fits (global_depth_ s) = true →
  ∃ s', split id 0 s = Some s' ∧ stuck s'.
Proof.
  intros (Hsz & p & Hp & Hb) Hfits.
  assert (0 < length (dir_ s)) as Hlen by (by eapply lookup_lt_Some).
  unfold split, bucket_at, IndexOf. rewrite Nat.land_0_l, Hp. simpl.
  rewrite Hb. simpl. rewrite bool_decide_eq_true_2 by done.
  cbn [grow dir_]. rewrite lookup_app_l, Hp by done. simpl.
  unfold RedistributeBucket. cbn [grow heap dir_ global_depth_ bucket_size_ num_buckets_].
  rewrite Hb. simpl. rewrite Hfits, Hsz. cbn.
  eexists. split; [reflexivity|]. split; [done|]. simpl.
  exists (length (heap s)). split.
  - rewrite repoint_lookup; [|rewrite Nat.shiftl_1_l; apply pow2_pos|lia].
    rewrite decide_True.
    + unfold pick. by rewrite Nat.land_0_l.
    + rewrite length_app. split_and!; [done| |lia].
      apply Nat.Div0.mod_0_l.
  - rewrite lookup_app_r by lia. by rewrite Nat.sub_diag.
Qed.

Lemma stuck_Insert fuel s s' : stuck s → Insert id fuel 0 "b" s ≠ Ok s'.
Proof.
  revert s. induction fuel as [|fuel IH]; intros s Hstuck; [done|].
  simpl. destruct (shift_fits (global_depth_ s)) eqn:Hfits; [|done].
  destruct (stuck_split s Hstuck Hfits) as (s1 & Hsplit & Hstuck1).
  destruct Hstuck as (Hsz & p & Hp & Hb).
  unfold IndexOf. rewrite Nat.land_0_l, Hp. simpl. rewrite Hb. simpl.
  rewrite Hsplit. simpl. by apply IH.
Qed.

(** C3, the code at the failing input: in a table of bucket size 1 over
    integer keys with the identity hash, after [Insert(0, "a")] the call
    [Insert(0, "b")] never returns, whatever number of rounds its loop is
    allowed.  [Bucket::Insert] refuses the pair because the bucket is full
    before it looks for the key, and every split puts the key 0 back into
    a full bucket, until the directory is too deep for the shift. *)
Theorem upsert_full_bucket_never_returns (fuel : nat) :
  ¬ ∃ s, upsert_scenario fuel = Ok s.
Proof.
  intros [s Hs]. unfold upsert_scenario in Hs.
  assert (∃ s1, Insert id 1 0 "a" (new 1) = Ok s1 ∧ stuck s1) as (s1 & Hs1 & Hstuck).
  { eexists. split; [vm_compute; reflexivity|]. split; [done|]. by exists 0. }
  rewrite Hs1 in Hs. simpl in Hs. by apply stuck_Insert in Hs.
Qed.

End EHTFacts.

(** * Properties of the B+-tree index and its iterator *)

Module BPTFacts.

Import BPT BPTSpec.
Local Open Scope Z_scope.

Section Facts.

Context {KeyType ValueType : Type}.
Variable comparator_ : KeyType → KeyType → Z.

Abbreviation Pool := (@BufferPoolManager KeyType ValueType).

Implicit Types (b : Pool) (t : BPlusTree) (p : page_id_t).

(** ** The calls of the pool *)

Lemma FetchPage_pages p b : pages_ (FetchPage p b).1 = pages_ b.
Proof. unfold FetchPage. by destruct (_ || _). Qed.

Lemma FetchPage_calls p b : calls_ (FetchPage p b).1 = CallFetch p :: calls_ b.
Proof. unfold FetchPage. by destruct (_ || _). Qed.

Lemma FetchPage_null p b :
  p ≠ HEADER_PAGE_ID → pages_ b !! p = None → (FetchPage p b).2 = None.
Proof.
  intros Hp Hnone. unfold FetchPage.
  rewrite bool_decide_eq_false_2 by done.
  rewrite bool_decide_eq_false_2; [done|]. rewrite Hnone. by intros [? ?].
Qed.

Lemma UnpinPage_pages p d b : pages_ (UnpinPage p d b) = pages_ b.
Proof. done. Qed.

Lemma UnpinPage_calls p d b : calls_ (UnpinPage p d b) = CallUnpin p d :: calls_ b.
Proof. done. Qed.

(** ** The descent to a leaf *)

Lemma descend_pages fuel key p b leaf b' :
  descend comparator_ fuel key p b = Ok (leaf, b') → pages_ b' = pages_ b.
Proof.
  revert p b. induction fuel as [|fuel IH]; intros p b Hd; [done|]. simpl in Hd.
  destruct (read_page p b) as [pg| |]; [simpl in Hd|done..].
  destruct (IsLeafPage pg); [by injection Hd as <- <-|].
  destruct (Internal_Find comparator_ key pg) as [value|]; [simpl in Hd|done].
  pose proof (FetchPage_pages value b) as Hf.
  destruct (FetchPage value b) as [b1 [child|]]; [simpl in *|done].
  apply IH in Hd. by rewrite Hd, UnpinPage_pages.
Qed.

(** The descent fetches as many pages as it unpins. *)
Lemma descend_balance fuel key p b leaf b' :
  descend comparator_ fuel key p b = Ok (leaf, b') →
  pin_balance (calls_ b') = pin_balance (calls_ b).
Proof.
  revert p b. induction fuel as [|fuel IH]; intros p b Hd; [done|]. simpl in Hd.
  destruct (read_page p b) as [pg| |]; [simpl in Hd|done..].
  destruct (IsLeafPage pg); [by injection Hd as <- <-|].
  destruct (Internal_Find comparator_ key pg) as [value|]; [simpl in Hd|done].
  pose proof (FetchPage_calls value b) as Hf.
  destruct (FetchPage value b) as [b1 [child|]]; [simpl in *|done].
  apply IH in Hd. rewrite Hd, UnpinPage_calls. simpl. rewrite Hf. simpl. lia.
Qed.

Lemma TreeTraversal_pages fuel key t b r leaf b' :
  TreeTraversal comparator_ fuel key t b = Ok (r, leaf, b') → pages_ b' = pages_ b.
Proof.
  unfold TreeTraversal. intros Ht.
  pose proof (FetchPage_pages (GetRootPageId t) b) as Hf.
  destruct (FetchPage (GetRootPageId t) b) as [b1 [root|]]; [simpl in *|done].
  destruct (descend _ _ _ _ _) as [[leaf' b2]| |] eqn:Hd; [simpl in Ht|done..].
  apply descend_pages in Hd.
  destruct (read_page leaf' b2) as [pg| |]; [simpl in Ht|done..].
  destruct (Leaf_Find _ _ _); injection Ht as <- <- <-; congruence.
Qed.

(** [TreeTraversal] returns with one page more fetched than unpinned: the
    leaf it hands to its caller. *)
Lemma TreeTraversal_balance fuel key t b r leaf b' :
  TreeTraversal comparator_ fuel key t b = Ok (r, leaf, b') →
  pin_balance (calls_ b') = pin_balance (calls_ b) + 1.
Proof.
  unfold TreeTraversal. intros Ht.
  pose proof (FetchPage_calls (GetRootPageId t) b) as Hf.
  destruct (FetchPage (GetRootPageId t) b) as [b1 [root|]]; [simpl in *|done].
  destruct (descend _ _ _ _ _) as [[leaf' b2]| |] eqn:Hd; [simpl in Ht|done..].
  apply descend_balance in Hd.
  destruct (read_page leaf' b2) as [pg| |]; [simpl in Ht|done..].
  destruct (Leaf_Find _ _ _); injection Ht as <- <- <-; rewrite Hd, Hf; done.
Qed.


(** ** [Remove] *)

(** A call of [Remove] that returns has changed neither the tree, its item
    count included, nor any page. *)
Lemma Remove_changes_nothing fuel key t b t' b' :
  Remove comparator_ fuel key t b = Ok (t', b') → t' = t ∧ pages_ b' = pages_ b.
Proof.
  unfold Remove. case_bool_decide; [by intros [= <- <-]|]. intros Hr.
  destruct (TreeTraversal _ _ _ _ _) as [[[r leaf] b1]| |] eqn:Ht; [simpl in Hr|done..].
  apply TreeTraversal_pages in Ht.
  destruct r; injection Hr as <- <-; done.
Qed.

(** On a tree that is not empty, a call of [Remove] that returns has
    fetched one page more than it has unpinned. *)
Lemma Remove_leaves_a_pin fuel key t b t' b' :
  GetRootPageId t ≠ INVALID_PAGE_ID →
  Remove comparator_ fuel key t b = Ok (t', b') →
  pin_balance (calls_ b') = pin_balance (calls_ b) + 1.
Proof.
  unfold Remove. intros Hroot. rewrite bool_decide_eq_false_2 by done. intros Hr.
  destruct (TreeTraversal _ _ _ _ _) as [[[r leaf] b1]| |] eqn:Ht; [simpl in Hr|done..].
  apply TreeTraversal_balance in Ht.
  destruct r; injection Hr as <- <-; done.
Qed.


(** ** [GetValue] on an empty tree *)

(** C5, the code on an empty tree: [GetValue] does not test the root page
    id.  With the root [INVALID_PAGE_ID] in a pool that holds no page of
    that id, its first step is the call [FetchPage(INVALID_PAGE_ID)], which
    yields a null pointer, and the call faults on it instead of returning
    that the key is absent. *)
Theorem GetValue_empty_tree_faults fuel key t b :
  GetRootPageId t = INVALID_PAGE_ID →
  pages_ b !! INVALID_PAGE_ID = None →
  calls_ (FetchPage (GetRootPageId t) b).1 = CallFetch INVALID_PAGE_ID :: calls_ b ∧
  (FetchPage (GetRootPageId t) b).2 = None ∧
  GetValue comparator_ fuel key t b = Fault.
Proof.
  intros Hroot Hnone. rewrite Hroot.
  pose proof (FetchPage_null INVALID_PAGE_ID b ltac:(done) Hnone) as Hnull.
  split_and!; [apply FetchPage_calls | done |].
  unfold GetValue. rewrite Hroot.
  destruct (FetchPage INVALID_PAGE_ID b) as [b1 ptr]. simpl in Hnull. by subst ptr.
Qed.

(** ** The iterator at the last entry and at [End()] *)

Lemma last_lookup {A : Type} (a : list A) :
  a ≠ [] → a !! (length a - 1)%nat = last a.
Proof.
  intros Hne. rewrite last_lookup. f_equal. lia.
Qed.

(** C10: an iterator on the last slot of a leaf without next leaf answers
    [true] to [IsEnd()] although dereferencing it yields the last entry of
    the leaf; the iterator made by [End()] has a null page pointer, so
    [IsEnd()] and dereferencing fault on it, and the iterators that
    [operator==] equates with it are those with page id [INVALID_PAGE_ID]
    and index -1. *)
Theorem IsEnd_last_entry_and_End_sentinel b :
  (∀ it p pg a,
     page_ it = Some p →
     pages_ b !! p = Some pg →
     data_ pg = LeafData INVALID_PAGE_ID a →
     a ≠ [] →
     index_in_page_ it = Z.of_nat (length a) - 1 →
     IsEnd it b = Ok true ∧
     ∃ e, deref it b = Ok e ∧ last a = Some e) ∧
  ∃ e, End b = Ok (e, b) ∧
       page_ e = None ∧
       IsEnd e b = Fault ∧
       deref e b = Fault ∧
       ∀ x, iter_eq x e = true ↔
            page_id_ x = INVALID_PAGE_ID ∧ index_in_page_ x = -1.
Proof.
  split.
  - intros it p pg a Hp Hpg Hdata Hne Hidx.
    assert (leaf_of it b = Ok (INVALID_PAGE_ID, a)) as Hleaf.
    { unfold leaf_of, read_page. rewrite Hp. simpl. rewrite Hpg. simpl.
      by rewrite Hdata. }
    split.
    + unfold IsEnd. rewrite Hleaf. simpl.
      by rewrite !bool_decide_eq_true_2.
    + unfold deref. rewrite Hleaf. simpl.
      assert (length a ≠ 0%nat) as Hlen by (by destruct a).
      destruct (Z.ltb_spec (index_in_page_ it) 0) as [?|_]; [lia|].
      replace (Z.to_nat (index_in_page_ it)) with (length a - 1)%nat by lia.
      rewrite last_lookup by done.
      destruct (last a) as [e|] eqn:Hlast; [by exists e|].
      apply last_None in Hlast. done.
  - eexists. split; [reflexivity|]. split_and!; [done..|].
    intros x. unfold iter_eq. simpl.
    rewrite andb_true_iff, !bool_decide_eq_true. done.
Qed.

End Facts.

(** ** The scenarios *)

Lemma GetValue_empty_tree_faults_witness :
  GetRootPageId (tree_new "idx" 4 4) = INVALID_PAGE_ID ∧
  pages_ (@bpm_new Z Z) !! INVALID_PAGE_ID = None ∧
  GetValue int_comparator 20 7 (tree_new "idx" 4 4) (@bpm_new Z Z) = Fault.
Proof.
  split; [reflexivity|]. split; [reflexivity|].
  apply (GetValue_empty_tree_faults int_comparator 20 7 (tree_new "idx" 4 4) bpm_new);
    reflexivity.
Defined.

(** The tree with the keys 1 to 10 has the root page 3 over the four
    leaves 1, 2, 4 and 5, and no page of it is pinned. *)
Example tree_1_to_10_shape :
  result_of ('(t, b) ←! tree_1_to_10;
             Ok ((root_page_id_ t, cur_size_ t,
                  data_ <$> pages_ b !! 3, data_ <$> pages_ b !! 5,
                  map_to_list (pin_count_ b)), b))
  = Ok (3, 10,
        Some (InternalData [(0, 1); (3, 2); (5, 4); (7, 5)]),
        Some (LeafData (-1) [(7, 70); (8, 80); (9, 90); (10, 100)]),
        [(5, 0%nat); (3, 0%nat); (4, 0%nat); (2, 0%nat); (1, 0%nat); (0, 0%nat)]).
Proof. vm_compute. reflexivity. Qed.

(** C1, the code at the failing input: in the tree with the keys 1 to 10,
    [GetValue(7)] after [Remove(7)] still finds the value 70, and the item
    count is 10 before and after.  The body of [Remove] after the descent
    is empty, and so is [SimpleDelete]. *)
Theorem remove_keeps_the_key :
  remove_7_then_find = Ok (Some 70, 10, 10).
Proof. vm_compute. reflexivity. Qed.

(** C2, the code at the failing inputs: [Remove], of a key that is stored
    or not, leaves the leaf it has reached pinned, and a whole scan leaves
    the first leaf pinned after the iterator is destroyed.  [Remove] never
    unpins the leaf [TreeTraversal] hands over, and [Begin] fetches the
    first leaf once itself and once more in the constructor of the
    iterator. *)
Theorem remove_and_scan_leave_pins :
  remove_7_pins = Ok (0, 1, 1)%nat ∧
  scan_pins = Ok ([1; 2; 3; 4; 5; 6; 7; 8; 9; 10], 0%nat, 1%nat).
Proof. split; vm_compute; reflexivity. Qed.

Lemma IsEnd_last_entry_and_End_sentinel_witness :
  ∃ (b : @BufferPoolManager Z Z) it a,
    result_of ('(t, b) ←! tree_7; Ok (b, b)) = Ok b ∧
    it = {| page_id_ := 1; page_ := Some 1; index_in_page_ := 0 |} ∧
    a = [(7, 70)] ∧
    IsEnd it b = Ok true ∧ ∃ e, deref it b = Ok e ∧ last a = Some e.
Proof.
  set (b := match tree_7 with Ok (_, b) => b | _ => bpm_new end).
  set (it := {| page_id_ := 1; page_ := Some 1; index_in_page_ := 0 |}).
  set (pg := match pages_ b !! 1 with
             | Some pg => pg
             | None => Leaf_Init INVALID_PAGE_ID 4
             end).
  exists b, it, [(7, 70)].
  split; [vm_compute; reflexivity|]. split; [reflexivity|]. split; [reflexivity|].
  apply (proj1 (IsEnd_last_entry_and_End_sentinel b) it 1 pg [(7, 70)]).
  - reflexivity.
  - vm_compute. reflexivity.
  - vm_compute. reflexivity.
  - discriminate.
  - reflexivity.
Defined.

End BPTFacts.

(** * More properties of the LRU-K replacer *)

Module LRUKMore.

Import LRUK LRUKMoreSpec.
Local Open Scope Z_scope.

(** ** The lists *)

Lemma erase_frame_perm f l : f ∈ l → l ≡ₚ f :: erase_frame f l.
Proof.
  induction l as [|g l IH]; [by intros ?%elem_of_nil|]. cbn.
  case_bool_decide as Hg; [by subst|].
  intros Hin. apply elem_of_cons in Hin as [?|Hin]; [congruence|].
  rewrite (IH Hin) at 1. apply Permutation_swap.
Qed.

Lemma erase_frame_notin f l : f ∉ l → erase_frame f l = l.
Proof.
  induction l as [|g l IH]; [done|]. cbn. rewrite not_elem_of_cons.
  intros [Hne Hnin]. rewrite bool_decide_eq_false_2 by done. by rewrite IH.
Qed.

Lemma list_remove_perm f l : NoDup l → f ∈ l → l ≡ₚ f :: list_remove f l.
Proof.
  unfold list_remove. induction l as [|g l IH]; [by intros _ ?%elem_of_nil|].
  rewrite NoDup_cons. intros [Hg Hnd] Hin.
  destruct (decide (g = f)) as [->|Hne].
  - rewrite filter_cons_False by (by intros ?).
    assert (filter (λ g, g ≠ f) l = l) as ->; [|done].
    clear -Hg. induction l as [|h l IH]; [done|].
    apply not_elem_of_cons in Hg as [? ?].
    rewrite filter_cons_True by done. by rewrite IH.
  - rewrite filter_cons_True by done.
    apply elem_of_cons in Hin as [?|Hin]; [congruence|].
    rewrite (IH Hnd Hin) at 1. apply Permutation_swap.
Qed.

Lemma erase_kth_perm f l :
  f ∈ l.*1 → ∃ t, l ≡ₚ (f, t) :: erase_kth f l.
Proof.
  induction l as [|[g u] l IH]; [by intros ?%elem_of_nil|]. cbn.
  case_bool_decide as Hg; [subst; by exists u|].
  intros Hin. apply elem_of_cons in Hin as [?|Hin]; [congruence|].
  destruct (IH Hin) as [t Ht]. exists t.
  rewrite Ht at 1. apply Permutation_swap.
Qed.

Lemma insert_upper_bound_perm e l : insert_upper_bound e l ≡ₚ e :: l.
Proof.
  induction l as [|x l IH]; [done|]. cbn.
  destruct (to_int e.2 <? to_int x.2); [done|].
  rewrite IH. apply Permutation_swap.
Qed.

Lemma scan_young_Some ev l f : scan_young ev l = Some f → f ∈ l ∧ ev f = true.
Proof.
  induction l as [|g l IH]; [done|]. cbn.
  destruct (ev g) eqn:Hg.
  - intros [= <-]. split; [apply list_elem_of_here|done].
  - intros Hs. destruct (IH Hs). split; [by apply list_elem_of_further|done].
Qed.

Lemma scan_young_None ev l : scan_young ev l = None → ∀ f, f ∈ l → ev f = false.
Proof.
  induction l as [|g l IH]; [by intros _ f ?%elem_of_nil|]. cbn.
  destruct (ev g) eqn:Hg; [done|].
  intros Hs f Hin. apply elem_of_cons in Hin as [->|Hin]; [done|by apply IH].
Qed.

Lemma scan_mature_Some ev l f rest :
  scan_mature ev l = Some (f, rest) →
  ev f = true ∧ ∃ t, l ≡ₚ (f, t) :: rest.
Proof.
  revert rest. induction l as [|[g u] l IH]; intros rest; [done|]. cbn.
  destruct (ev g) eqn:Hg.
  - intros [= <- <-]. split; [done|]. by exists u.
  - destruct (scan_mature ev l) as [[f' rest']|]; [|done].
    intros [= <- <-]. destruct (IH rest' eq_refl) as [Hev [t Ht]].
    split; [done|]. exists t. rewrite Ht. apply Permutation_swap.
Qed.

Lemma scan_mature_None ev l :
  scan_mature ev l = None → ∀ f, f ∈ l.*1 → ev f = false.
Proof.
  induction l as [|[g u] l IH]; [by intros _ f ?%elem_of_nil|]. cbn.
  destruct (ev g) eqn:Hg; [done|].
  destruct (scan_mature ev l) as [[f' rest']|]; [done|].
  intros _ f Hin. apply elem_of_cons in Hin as [->|Hin]; [done|by apply IH].
Qed.

(** ** Counting flags *)

Lemma cnt_nil ev flag : cnt ev flag [] = 0.
Proof. done. Qed.

Lemma cnt_cons ev flag f l :
  cnt ev flag (f :: l) = (if bool_decide (ev f = flag) then 1 else 0) + cnt ev flag l.
Proof.
  unfold cnt. case_bool_decide.
  - rewrite filter_cons_True by done. cbn [length]. lia.
  - rewrite filter_cons_False by done. lia.
Qed.

Lemma cnt_perm ev flag l l' : l ≡ₚ l' → cnt ev flag l = cnt ev flag l'.
Proof. intros Hp. unfold cnt. by rewrite Hp. Qed.

Lemma cnt_ext ev ev' flag l :
  (∀ f, f ∈ l → ev' f = ev f) → cnt ev' flag l = cnt ev flag l.
Proof.
  induction l as [|g l IH]; intros Hext; [done|].
  rewrite !cnt_cons, IH, Hext; [done|apply list_elem_of_here|].
  intros f Hf. apply Hext. by apply list_elem_of_further.
Qed.

Lemma cnt_total ev l : cnt ev true l + cnt ev false l = Z.of_nat (length l).
Proof.
  induction l as [|g l IH]; [done|]. rewrite !cnt_cons. cbn [length].
  rewrite Nat2Z.inj_succ.
  destruct (ev g); repeat case_bool_decide; try done; lia.
Qed.

Lemma cnt_nonneg ev flag l : 0 ≤ cnt ev flag l.
Proof. unfold cnt. lia. Qed.

Lemma cnt_zero ev flag l : (∀ f, f ∈ l → ev f ≠ flag) → cnt ev flag l = 0.
Proof.
  induction l as [|g l IH]; intros Hz; [done|].
  rewrite cnt_cons, IH.
  - rewrite bool_decide_eq_false_2; [done|]. apply Hz, list_elem_of_here.
  - intros f Hf. apply Hz. by apply list_elem_of_further.
Qed.


(** ** The maps *)

Lemma default_insert {A : Type} (m : gmap Z A) (f g : frame_id_t) (x d : A) :
  default d (<[f := x]> m !! g) = if decide (g = f) then x else default d (m !! g).
Proof.
  case_decide as Hg; [subst; by rewrite lookup_insert_eq|by rewrite lookup_insert_ne].
Qed.

Lemma default_delete_ne {A : Type} (m : gmap Z A) (f g : Z) (d : A) :
  g ≠ f → default d (delete f m !! g) = default d (m !! g).
Proof. intros Hg. by rewrite lookup_delete_ne. Qed.

Lemma wrap64_small x : 0 ≤ x < 2 ^ 64 → wrap64 x = x.
Proof. intros Hx. unfold wrap64. by apply Z.mod_small. Qed.

(** ** The bookkeeping is kept by every call *)

Lemma wf_new num_frames k :
  0 ≤ num_frames < 2 ^ 64 → 2 ≤ k → wf (new num_frames k).
Proof.
  intros HN Hk.
  assert (∀ f, get_access (new num_frames k) f = 0) as Hacc.
  { intros f. unfold get_access. cbn. by rewrite lookup_empty. }
  constructor; unfold tracked; cbn [new k_ replacer_size_ current_timestamp_ curr_size_
    max_size_ lru_less_k_ lru_k_ fmap list_fmap app]; rewrite ?cnt_nil.
  - done.
  - done.
  - lia.
  - intros f. rewrite Hacc. lia.
  - apply NoDup_nil_2.
  - intros f. rewrite Hacc. split; [by intros ?%elem_of_nil|lia].
  - intros f. rewrite Hacc. split; [by intros ?%elem_of_nil|lia].
  - done.
  - lia.
  - cbn. lia.
Qed.

Lemma wf_curr_bounds s :
  wf s → 0 ≤ curr_size_ s ≤ max_size_ s ∧ max_size_ s ≤ replacer_size_ s.
Proof.
  intros [? ? ? ? ? ? ? Hsize Hmax Hle].
  pose proof (cnt_total (get_evictable s) (tracked s)).
  pose proof (cnt_nonneg (get_evictable s) true (tracked s)).
  pose proof (cnt_nonneg (get_evictable s) false (tracked s)).
  lia.
Qed.

(** A frame leaves the lists: the common part of [Evict] and [Remove]. *)
Lemma wf_drop s s' f :
  wf s →
  get_evictable s f = true →
  k_ s' = k_ s →
  replacer_size_ s' = replacer_size_ s →
  current_timestamp_ s' = current_timestamp_ s →
  (∀ g, get_access s' g = if decide (g = f) then 0 else get_access s g) →
  (∀ g, g ≠ f → get_evictable s' g = get_evictable s g) →
  (lru_less_k_ s ≡ₚ f :: lru_less_k_ s' ∧ lru_k_ s' = lru_k_ s) ∨
  (lru_less_k_ s' = lru_less_k_ s ∧ (lru_k_ s).*1 ≡ₚ f :: (lru_k_ s').*1) →
  curr_size_ s' = wrap64 (curr_size_ s - 1) →
  max_size_ s' = max_size_ s →
  wf s' ∧ curr_size_ s' = curr_size_ s - 1.
Proof.
  intros Hwf Hev Hk HN Hts Hacc Hev' Hlists Hcurr Hmaxeq.
  pose proof (wf_curr_bounds s Hwf) as Hb.
  destruct Hwf as [Hk2 Hcap Htsb Haccb Hnd Hyoung Hmature Hsize Hmax Hle].
  assert (tracked s ≡ₚ f :: tracked s') as Hperm.
  { unfold tracked. destruct Hlists as [[Hy ->]|[-> Hm]].
    - by rewrite Hy.
    - rewrite Hm. by rewrite Permutation_middle. }
  assert (NoDup (f :: tracked s')) as Hnd' by (by rewrite <- Hperm).
  apply NoDup_cons in Hnd' as [Hfnot Hnd'].
  assert (cnt (get_evictable s') true (tracked s') = curr_size_ s - 1) as Hcnt.
  { rewrite Hsize, (cnt_perm _ _ _ _ Hperm), cnt_cons.
    rewrite bool_decide_eq_true_2 by done.
    rewrite (cnt_ext (get_evictable s) (get_evictable s')); [lia|].
    intros g Hg. apply Hev'. by intros ->. }
  assert (curr_size_ s' = curr_size_ s - 1) as Hcurr'.
  { rewrite Hcurr. apply wrap64_small.
    pose proof (cnt_nonneg (get_evictable s') true (tracked s')). lia. }
  split; [|done].
  assert ((f ∉ lru_less_k_ s') ∧ (f ∉ (lru_k_ s').*1)) as [Hfy Hfm].
  { unfold tracked in Hfnot. rewrite elem_of_app in Hfnot. tauto. }
  constructor.
  - lia.
  - lia.
  - lia.
  - intros g. rewrite Hacc, Hts. case_decide; [lia|apply Haccb].
  - done.
  - intros g. rewrite Hacc, Hk. case_decide as Hg.
    + subst g. split; [done|lia].
    + rewrite <- Hyoung. destruct Hlists as [[Hy _]|[-> _]]; [|done].
      rewrite Hy, elem_of_cons. tauto.
  - intros g. rewrite Hacc, Hk. case_decide as Hg.
    + subst g. split; [done|lia].
    + rewrite <- Hmature. destruct Hlists as [[_ ->]|[_ Hm]]; [done|].
      rewrite Hm, elem_of_cons. tauto.
  - lia.
  - rewrite Hmaxeq, HN, <- Hmax. f_equal.
    rewrite (cnt_perm _ _ _ _ Hperm), cnt_cons.
    rewrite bool_decide_eq_false_2 by (by rewrite Hev).
    rewrite (cnt_ext (get_evictable s) (get_evictable s')); [lia|].
    intros g Hg. apply Hev'. by intros ->.
  - rewrite HN. rewrite Hperm in Hle. cbn [length] in Hle. lia.
Qed.


(** A frame changes its evictable flag: [SetEvictable]. *)
Lemma wf_flag s s' f flag :
  wf s →
  get_access s f ≠ 0 →
  k_ s' = k_ s →
  replacer_size_ s' = replacer_size_ s →
  current_timestamp_ s' = current_timestamp_ s →
  (∀ g, get_access s' g = get_access s g) →
  (∀ g, get_evictable s' g = if decide (g = f) then flag else get_evictable s g) →
  lru_less_k_ s' = lru_less_k_ s →
  lru_k_ s' = lru_k_ s →
  curr_size_ s' = LRUKSpec.evictable_step (get_evictable s f) flag (curr_size_ s) →
  max_size_ s' = LRUKSpec.evictable_step (get_evictable s f) flag (max_size_ s) →
  wf s'.
Proof.
  intros Hwf Htr Hk HN Hts Hacc Hev Hy Hm Hcurr Hmaxeq.
  pose proof (wf_curr_bounds s Hwf) as Hb.
  destruct Hwf as [Hk2 Hcap Htsb Haccb Hnd Hyoung Hmature Hsize Hmax Hle].
  assert (tracked s' = tracked s) as Htr' by (unfold tracked; by rewrite Hy, Hm).
  assert (f ∈ tracked s) as Hin.
  { unfold tracked. rewrite elem_of_app, Hyoung, Hmature.
    specialize (Haccb f). lia. }
  apply elem_of_Permutation in Hin as [rest Hperm].
  assert (NoDup (f :: rest)) as Hnd' by (by rewrite <- Hperm).
  apply NoDup_cons in Hnd' as [Hfnot _].
  assert (∀ b, cnt (get_evictable s') b (tracked s) =
               (if bool_decide (flag = b) then 1 else 0) + cnt (get_evictable s) b rest) as Hnewcnt.
  { intros b. rewrite (cnt_perm _ _ _ _ Hperm), cnt_cons, Hev, decide_True by done.
    f_equal. apply cnt_ext. intros g Hg. rewrite Hev, decide_False; [done|].
    by intros ->. }
  assert (∀ b, cnt (get_evictable s) b (tracked s) =
               (if bool_decide (get_evictable s f = b) then 1 else 0)
               + cnt (get_evictable s) b rest) as Holdcnt.
  { intros b. by rewrite (cnt_perm _ _ _ _ Hperm), cnt_cons. }
  pose proof (cnt_nonneg (get_evictable s) true rest).
  pose proof (cnt_nonneg (get_evictable s) false rest).
  pose proof (cnt_total (get_evictable s) (tracked s)) as Htot.
  rewrite (Holdcnt true), (Holdcnt false) in Htot.
  rewrite (Holdcnt true) in Hsize. rewrite (Holdcnt false) in Hmax.
  assert (curr_size_ s' = cnt (get_evictable s') true (tracked s) ∧
          max_size_ s' + cnt (get_evictable s') false (tracked s) = replacer_size_ s)
    as [Hc Hm'].
  { rewrite Hcurr, Hmaxeq, (Hnewcnt true), (Hnewcnt false).
    unfold LRUKSpec.evictable_step.
    destruct (get_evictable s f), flag; cbn [andb negb];
      repeat case_bool_decide; try done;
      rewrite ?wrap64_small by lia; lia. }
  constructor; rewrite ?Htr', ?Hk, ?HN, ?Hts, ?Hy, ?Hm; try done.
  - intros g. by rewrite Hacc.
  - intros g. by rewrite Hacc.
  - intros g. by rewrite Hacc.
Qed.

(** A new frame enters the young list: the first branch of [RecordAccess]. *)
Lemma wf_add s s' f :
  wf s →
  get_access s f = 0 →
  curr_size_ s < max_size_ s →
  current_timestamp_ s < 2 ^ 64 - 1 →
  k_ s' = k_ s →
  replacer_size_ s' = replacer_size_ s →
  current_timestamp_ s' = current_timestamp_ s + 1 →
  (∀ g, get_access s' g = if decide (g = f) then 1 else get_access s g) →
  (∀ g, get_evictable s' g = if decide (g = f) then true else get_evictable s g) →
  lru_less_k_ s' = f :: lru_less_k_ s →
  lru_k_ s' = lru_k_ s →
  curr_size_ s' = wrap64 (curr_size_ s + 1) →
  max_size_ s' = max_size_ s →
  wf s' ∧ curr_size_ s' = curr_size_ s + 1.
Proof.
  intros Hwf Hf0 Hroom Htslt Hk HN Hts Hacc Hev Hy Hm Hcurr Hmaxeq.
  pose proof (wf_curr_bounds s Hwf) as Hb.
  destruct Hwf as [Hk2 Hcap Htsb Haccb Hnd Hyoung Hmature Hsize Hmax Hle].
  assert (tracked s' = f :: tracked s) as Htr' by (unfold tracked; by rewrite Hy, Hm).
  assert (f ∉ tracked s) as Hfnot.
  { unfold tracked. rewrite elem_of_app, Hyoung, Hmature. lia. }
  assert (∀ b, cnt (get_evictable s') b (tracked s) = cnt (get_evictable s) b (tracked s))
    as Hext.
  { intros b. apply cnt_ext. intros g Hg. rewrite Hev, decide_False; [done|].
    by intros ->. }
  pose proof (cnt_total (get_evictable s) (tracked s)) as Htot.
  assert (curr_size_ s' = curr_size_ s + 1) as Hcurr'.
  { rewrite Hcurr. apply wrap64_small. lia. }
  split; [|done].
  constructor; rewrite ?Htr', ?Hk, ?HN, ?Hts, ?Hy, ?Hm; try done; try lia.
  - intros g. rewrite Hacc. case_decide; [lia|]. specialize (Haccb g). lia.
  - by apply NoDup_cons.
  - intros g. rewrite Hacc, elem_of_cons, Hyoung. case_decide; [subst; lia|].
    split; [intros [?|?]; [done|lia]|auto].
  - intros g. rewrite Hacc, Hmature. case_decide; [subst; lia|done].
  - rewrite cnt_cons, Hev, decide_True, bool_decide_eq_true_2, Hext by done. lia.
  - rewrite cnt_cons, Hev, decide_True, bool_decide_eq_false_2, Hext by done. lia.
  - cbn [length]. lia.
Qed.

(** A tracked frame is accessed once more: the other branches of
    [RecordAccess]. *)
Lemma wf_move s s' f :
  wf s →
  1 ≤ get_access s f →
  current_timestamp_ s < 2 ^ 64 - 1 →
  k_ s' = k_ s →
  replacer_size_ s' = replacer_size_ s →
  current_timestamp_ s' = current_timestamp_ s + 1 →
  (∀ g, get_access s' g = if decide (g = f) then get_access s f + 1 else get_access s g) →
  evictable_ s' = evictable_ s →
  (∀ g, g ∈ lru_less_k_ s' ↔ 1 ≤ get_access s' g < k_ s) →
  (∀ g, g ∈ (lru_k_ s').*1 ↔ k_ s ≤ get_access s' g) →
  tracked s' ≡ₚ tracked s →
  curr_size_ s' = curr_size_ s →
  max_size_ s' = max_size_ s →
  wf s'.
Proof.
  intros Hwf Hf1 Htslt Hk HN Hts Hacc Hev Hy Hm Hperm Hcurr Hmaxeq.
  destruct Hwf as [Hk2 Hcap Htsb Haccb Hnd Hyoung Hmature Hsize Hmax Hle].
  assert (∀ b l, cnt (get_evictable s') b l = cnt (get_evictable s) b l) as Hext.
  { intros b l. apply cnt_ext. intros g _. unfold get_evictable. by rewrite Hev. }
  constructor;
    rewrite ?Hk, ?HN, ?Hts, ?Hcurr, ?Hmaxeq, ?Hext, ?(cnt_perm _ _ _ _ Hperm), ?Hperm;
    try done; try lia.
  intros g. rewrite Hacc. pose proof (Haccb g). pose proof (Haccb f).
  case_decide; lia.
Qed.


Ltac proj :=
  cbn [current_timestamp_ curr_size_ replacer_size_ max_size_ k_ access_times_
       history_list_ evictable_ lru_less_k_ lru_k_] in *.

(** ** [Evict] *)

Lemma Evict_cases s :
  (Evict s = (None, s) ∧
   (curr_size_ s = 0 ∨
    (scan_young (get_evictable s) (reverse (lru_less_k_ s)) = None ∧
     scan_mature (get_evictable s) (lru_k_ s) = None))) ∨
  (∃ g y m,
     Evict s = (Some g,
                mkReplacer (current_timestamp_ s) (wrap64 (curr_size_ s - 1))
                  (replacer_size_ s) (max_size_ s) (k_ s)
                  (<[g := 0]> (access_times_ s)) (<[g := []]> (history_list_ s))
                  (evictable_ s) y m) ∧
     curr_size_ s ≠ 0 ∧
     victim_rel (get_evictable s) (lru_less_k_ s) (lru_k_ s) g y m).
Proof.
  unfold Evict. destruct (Z.eqb_spec (curr_size_ s) 0) as [Hz|Hz]; [left; auto|].
  destruct (scan_young _ _) as [g|] eqn:Hy.
  - right. exists g, (list_remove g (lru_less_k_ s)), (lru_k_ s).
    split_and!; [done..|]. left. done.
  - destruct (scan_mature _ _) as [[g m]|] eqn:Hm.
    + right. exists g, (lru_less_k_ s), m. split_and!; [done..|]. right. done.
    + left. auto.
Qed.

Lemma victim_rel_wf s g y m :
  wf s →
  victim_rel (get_evictable s) (lru_less_k_ s) (lru_k_ s) g y m →
  get_evictable s g = true ∧
  ((lru_less_k_ s ≡ₚ g :: y ∧ m = lru_k_ s) ∨
   (y = lru_less_k_ s ∧ (lru_k_ s).*1 ≡ₚ g :: m.*1)).
Proof.
  intros Hwf [(Hy & -> & ->)|(_ & Hm & ->)].
  - apply scan_young_Some in Hy as [Hin Hev]. split; [done|]. left. split; [|done].
    apply list_remove_perm.
    + pose proof (wf_nodup s Hwf) as Hnd. unfold tracked in Hnd.
      by apply NoDup_app in Hnd as [? _].
    + exact (proj1 (elem_of_reverse _ _) Hin).
  - apply scan_mature_Some in Hm as [Hev [t Ht]]. split; [done|]. right.
    split; [done|]. by rewrite Ht.
Qed.

Lemma some_victim_wf s :
  wf s → curr_size_ s ≠ 0 →
  ¬ (scan_young (get_evictable s) (reverse (lru_less_k_ s)) = None ∧
     scan_mature (get_evictable s) (lru_k_ s) = None).
Proof.
  intros Hwf Hz [Hy Hm]. apply Hz. rewrite (wf_size s Hwf).
  apply cnt_zero. intros f Hf. unfold tracked in Hf. apply elem_of_app in Hf as [Hf|Hf].
  - rewrite (scan_young_None _ _ Hy f); [done|]. by apply elem_of_reverse.
  - by rewrite (scan_mature_None _ _ Hm f).
Qed.

Lemma get_access_mk a b c d e acc h ev y m g :
  get_access (mkReplacer a b c d e acc h ev y m) g = default 0 (acc !! g).
Proof. done. Qed.

Lemma get_evictable_mk a b c d e acc h ev y m g :
  get_evictable (mkReplacer a b c d e acc h ev y m) g = default false (ev !! g).
Proof. done. Qed.

(** The state a victim leaves behind. *)
Lemma wf_victim s g y m :
  wf s →
  curr_size_ s ≠ 0 →
  victim_rel (get_evictable s) (lru_less_k_ s) (lru_k_ s) g y m →
  let s' := mkReplacer (current_timestamp_ s) (wrap64 (curr_size_ s - 1))
              (replacer_size_ s) (max_size_ s) (k_ s)
              (<[g := 0]> (access_times_ s)) (<[g := []]> (history_list_ s))
              (evictable_ s) y m in
  wf s' ∧ curr_size_ s' = curr_size_ s - 1 ∧
  get_evictable s g = true ∧ get_access s g ≠ 0.
Proof.
  intros Hwf Hz Hrel s'.
  destruct (victim_rel_wf s g y m Hwf Hrel) as [Hev Hlists].
  assert (wf s' ∧ curr_size_ s' = curr_size_ s - 1) as [Hwf' Hc].
  { apply (wf_drop s s' g); try done.
    intros h. unfold s'. rewrite get_access_mk, default_insert. done. }
  split_and!; [done..|].
  assert (g ∈ tracked s) as Hin.
  { unfold tracked. rewrite elem_of_app. destruct Hlists as [[Hp _]|[_ Hp]].
    - left. rewrite Hp. apply list_elem_of_here.
    - right. rewrite Hp. apply list_elem_of_here. }
  unfold tracked in Hin. rewrite elem_of_app, (wf_young s Hwf), (wf_mature s Hwf) in Hin.
  pose proof (wf_k s Hwf). lia.
Qed.

Lemma Evict_wf s : wf s → wf (Evict s).2.
Proof.
  intros Hwf. destruct (Evict_cases s) as [[-> _]|(g & y & m & -> & Hz & Hrel)]; [done|].
  by apply wf_victim.
Qed.

(** ** [SetEvictable] and [Remove] *)

Lemma SetEvictable_wf f flag s s' : wf s → SetEvictable f flag s = Some s' → wf s'.
Proof.
  intros Hwf Hset. unfold SetEvictable in Hset.
  destruct (f >? to_int (replacer_size_ s)); [done|].
  destruct (Z.eqb_spec (get_access s f) 0) as [Hz|Hz]; [by injection Hset as <-|].
  injection Hset as <-.
  apply (wf_flag s _ f flag); try done.
  intros g. rewrite get_evictable_mk, default_insert. done.
Qed.

Lemma Remove_wf f s s' : wf s → Remove f s = Some s' → wf s'.
Proof.
  intros Hwf Hrem. unfold Remove in Hrem.
  destruct (f >? to_int (replacer_size_ s)); [done|].
  destruct (Z.eqb_spec (get_access s f) 0) as [Hz|Hz]; [by injection Hrem as <-|].
  destruct (get_evictable s f) eqn:Hev; [cbn [negb] in Hrem|done].
  pose proof (wf_access s Hwf f) as Hacc.
  destruct (Z.ltb_spec (get_access s f) (k_ s)) as [Hlt|Hge]; injection Hrem as <-.
  - apply (wf_drop s _ f); try done.
    + intros g. rewrite get_access_mk, default_insert. done.
    + intros g Hg. rewrite get_evictable_mk. by apply default_delete_ne.
    + left. split; [|done]. apply erase_frame_perm. apply (wf_young s Hwf). lia.
  - apply (wf_drop s _ f); try done.
    + intros g. rewrite get_access_mk, default_insert. done.
    + intros g Hg. rewrite get_evictable_mk. by apply default_delete_ne.
    + right. split; [done|]. proj.
      destruct (erase_kth_perm f (lru_k_ s)) as [t Ht]; [by apply (wf_mature s Hwf)|].
      by rewrite Ht at 1.
Qed.

(** ** [RecordAccess] *)

Lemma RecordAccess_wf f s s' :
  wf s → current_timestamp_ s < 2 ^ 64 - 1 → RecordAccess f s = Some s' → wf s'.
Proof.
  intros Hwf Hts Hrec. unfold RecordAccess in Hrec.
  destruct (f >? to_int (replacer_size_ s)); [done|].
  pose proof (wf_access s Hwf f) as Hacc.
  pose proof (wf_ts s Hwf) as Htsb.
  pose proof (wf_k s Hwf) as Hk2.
  pose proof (wf_curr_bounds s Hwf) as Hb.
  rewrite !(wrap64_small (get_access s f + 1)) in Hrec by lia.
  rewrite !(wrap64_small (current_timestamp_ s + 1)) in Hrec by lia.
  cbv zeta in Hrec. proj.
  destruct (Z.eqb_spec (get_access s f + 1) 1) as [H1|H1].
  - assert (get_access s f = 0) as Hf0 by lia.
    destruct (Z.eqb_spec (curr_size_ s) (max_size_ s)) as [Hfull|Hroom].
    + match type of Hrec with context [Evict ?s1] =>
        destruct (Evict_cases s1) as [[He _]|(g & y & m & He & Hz & Hrel)]; rewrite He in Hrec
      end; [done|]. proj.
      injection Hrec as <-.
      destruct (wf_victim s g y m Hwf Hz Hrel) as (Hwf2 & Hc2 & Hevg & Haccg).
      cbv zeta in Hwf2. proj.
      match type of Hwf2 with wf ?s2 =>
        eapply (proj1 (wf_add s2 _ f Hwf2 _ _ _ _ _ _ _ _ _ _ _ _))
      end.
      Unshelve. all: proj; try done; try lia.
      * rewrite get_access_mk, default_insert. case_decide; [done|]. exact Hf0.
      * intros h. rewrite !get_access_mk, !default_insert.
        repeat case_decide; subst; try done; congruence.
      * intros h. rewrite !get_evictable_mk, default_insert. done.
    + injection Hrec as <-.
      eapply (proj1 (wf_add s _ f Hwf Hf0 _ Hts _ _ _ _ _ _ _ _ _)).
      Unshelve. all: proj; try done; try lia.
      * intros h. rewrite get_access_mk, default_insert.
        repeat case_decide; subst; try done; lia.
      * intros h. rewrite get_evictable_mk, default_insert. done.
  - assert (1 ≤ get_access s f) as Hf1 by lia.
    pose proof (wf_nodup s Hwf) as Hnd. unfold tracked in Hnd.
    apply NoDup_app in Hnd as (Hndy & Hdisj & Hndm).
    destruct (Z.eqb_spec (get_access s f + 1) (k_ s)) as [Hk|Hk].
    + injection Hrec as <-.
      assert (f ∈ lru_less_k_ s) as Hin by (apply (wf_young s Hwf); lia).
      pose proof (erase_frame_perm f _ Hin) as Hperm.
      assert (NoDup (f :: erase_frame f (lru_less_k_ s))) as Hnd' by (by rewrite <- Hperm).
      apply NoDup_cons in Hnd' as [Hfnot _].
      apply (wf_move s _ f); proj; try done; try lia.
      * intros h. rewrite get_access_mk, default_insert. done.
      * intros h. rewrite get_access_mk, default_insert. fold (get_access s h).
        pose proof (wf_young s Hwf h) as Hy. rewrite Hperm, elem_of_cons in Hy.
        destruct (decide (h = f)) as [->|Hne]; [split; [done|lia]|].
        split; [intros Hh; apply Hy; by right|].
        intros Hh. apply Hy in Hh as [?|?]; done.
      * intros h. rewrite get_access_mk, default_insert. fold (get_access s h).
        rewrite insert_upper_bound_perm, fmap_cons, elem_of_cons. cbn [fst].
        rewrite (wf_mature s Hwf h).
        destruct (decide (h = f)) as [->|Hne]; [split; [lia|by left]|].
        split; [by intros [?|?]|by right].
      * unfold tracked. proj. rewrite insert_upper_bound_perm, fmap_cons. cbn [fst].
        rewrite <- Permutation_middle. symmetry.
        exact (Permutation_app_tail _ Hperm).
    + destruct (Z.gtb_spec (get_access s f + 1) (k_ s)) as [Hgt|Hle]; injection Hrec as <-.
      * assert (f ∈ (lru_k_ s).*1) as Hin by (apply (wf_mature s Hwf); lia).
        destruct (erase_kth_perm f _ Hin) as [t Hperm].
        assert ((lru_k_ s).*1 ≡ₚ f :: (erase_kth f (lru_k_ s)).*1) as Hperm1
          by (by rewrite Hperm at 1).
        apply (wf_move s _ f); proj; try done; try lia.
        -- intros h. rewrite get_access_mk, default_insert. done.
        -- intros h. rewrite get_access_mk, default_insert. fold (get_access s h).
           rewrite (wf_young s Hwf h).
           destruct (decide (h = f)) as [->|Hne]; [lia|done].
        -- intros h. rewrite get_access_mk, default_insert. fold (get_access s h).
           rewrite insert_upper_bound_perm, fmap_cons. cbn [fst]. rewrite <- Hperm1.
           rewrite (wf_mature s Hwf h).
           destruct (decide (h = f)) as [->|Hne]; [lia|done].
        -- unfold tracked. proj. rewrite insert_upper_bound_perm, fmap_cons. cbn [fst].
           by rewrite <- Hperm1.
      * apply (wf_move s _ f); proj; try done; try lia.
        -- intros h. rewrite get_access_mk, default_insert. done.
        -- intros h. rewrite get_access_mk, default_insert. fold (get_access s h).
           rewrite (wf_young s Hwf h).
           destruct (decide (h = f)) as [->|Hne]; [lia|done].
        -- intros h. rewrite get_access_mk, default_insert. fold (get_access s h).
           rewrite (wf_mature s Hwf h).
           destruct (decide (h = f)) as [->|Hne]; [lia|done].
Qed.

(** ** The order of the mature list *)

Lemma insert_upper_bound_sorted e l :
  StronglySorted kth_le l → StronglySorted kth_le (insert_upper_bound e l).
Proof.
  induction 1 as [|x l Hs IH Hall]; cbn.
  - repeat constructor.
  - destruct (Z.ltb_spec (to_int e.2) (to_int x.2)) as [Hlt|Hge].
    + constructor; [by constructor|]. constructor; [cbn; lia|].
      eapply Forall_impl; [exact Hall|]. cbn. intros y Hy. lia.
    + constructor; [exact IH|]. rewrite insert_upper_bound_perm.
      constructor; [cbn; lia|exact Hall].
Qed.

Lemma Forall_erase_kth (P : kth_timestamp → Prop) f l :
  Forall P l → Forall P (erase_kth f l).
Proof.
  induction 1 as [|x l Hx Hl IH]; cbn; [constructor|].
  case_bool_decide; [done|by constructor].
Qed.

Lemma erase_kth_sorted f l :
  StronglySorted kth_le l → StronglySorted kth_le (erase_kth f l).
Proof.
  induction 1 as [|x l Hs IH Hall]; cbn; [constructor|].
  case_bool_decide; [done|]. constructor; [done|by apply Forall_erase_kth].
Qed.

Lemma scan_mature_split ev l f rest :
  scan_mature ev l = Some (f, rest) →
  ∃ l1 t l2, l = l1 ++ (f, t) :: l2 ∧ rest = l1 ++ l2 ∧
             Forall (λ e : kth_timestamp, ev e.1 = false) l1.
Proof.
  revert rest. induction l as [|[g u] l IH]; intros rest; [done|]. cbn.
  destruct (ev g) eqn:Hg.
  - intros [= <- <-]. by exists [], u, l.
  - destruct (scan_mature ev l) as [[f' rest']|]; [|done].
    intros [= <- <-]. destruct (IH rest' eq_refl) as (l1 & t & l2 & -> & -> & Hall).
    exists ((g, u) :: l1), t, l2. split_and!; [done..|]. by constructor.
Qed.

Lemma scan_young_split ev l f :
  scan_young ev l = Some f →
  ∃ l1 l2, l = l1 ++ f :: l2 ∧ Forall (λ g, ev g = false) l1.
Proof.
  induction l as [|g l IH]; [done|]. cbn.
  destruct (ev g) eqn:Hg.
  - intros [= <-]. by exists [], l.
  - intros Hs. destruct (IH Hs) as (l1 & l2 & -> & Hall).
    exists (g :: l1), l2. split; [done|by constructor].
Qed.

Lemma victim_rel_sorted ev young mature g y m :
  victim_rel ev young mature g y m →
  StronglySorted kth_le mature → StronglySorted kth_le m.
Proof.
  intros [(_ & _ & ->)|(_ & Hm & _)] Hs; [done|].
  apply scan_mature_split in Hm as (l1 & t & l2 & -> & -> & _).
  apply StronglySorted_app in Hs as (H12 & H1 & H2).
  apply StronglySorted_cons in H2 as [_ H2].
  apply StronglySorted_app_2; [|done..].
  intros x1 x2 Hx1 Hx2. apply H12; [done|by apply list_elem_of_further].
Qed.

Lemma Evict_sorted s : mature_sorted s → mature_sorted (Evict s).2.
Proof.
  intros Hs. destruct (Evict_cases s) as [[-> _]|(g & y & m & -> & _ & Hrel)]; [done|].
  unfold mature_sorted. proj. by eapply victim_rel_sorted.
Qed.

Lemma RecordAccess_sorted f s s' :
  mature_sorted s → RecordAccess f s = Some s' → mature_sorted s'.
Proof.
  unfold mature_sorted. intros Hs Hrec. unfold RecordAccess in Hrec.
  destruct (f >? to_int (replacer_size_ s)); [done|].
  cbv zeta in Hrec. proj.
  destruct (_ =? 1).
  - destruct (curr_size_ s =? max_size_ s).
    + match type of Hrec with context [Evict ?s1] =>
        destruct (Evict_cases s1) as [[He _]|(g & y & m & He & _ & Hrel)]; rewrite He in Hrec
      end; [done|]. proj. injection Hrec as <-. proj.
      by eapply victim_rel_sorted.
    + by injection Hrec as <-.
  - destruct (_ =? k_ s).
    + injection Hrec as <-. proj. by apply insert_upper_bound_sorted.
    + destruct (_ >? k_ s); injection Hrec as <-; proj; [|done].
      by apply insert_upper_bound_sorted, erase_kth_sorted.
Qed.

Lemma SetEvictable_sorted f flag s s' :
  mature_sorted s → SetEvictable f flag s = Some s' → mature_sorted s'.
Proof.
  unfold mature_sorted, SetEvictable. intros Hs Hset.
  destruct (f >? to_int (replacer_size_ s)); [done|].
  destruct (get_access s f =? 0); by injection Hset as <-.
Qed.

Lemma Remove_sorted f s s' :
  mature_sorted s → Remove f s = Some s' → mature_sorted s'.
Proof.
  unfold mature_sorted, Remove. intros Hs Hrem.
  destruct (f >? to_int (replacer_size_ s)); [done|].
  destruct (get_access s f =? 0); [by injection Hrem as <-|].
  destruct (negb _); [done|].
  destruct (get_access s f <? k_ s); injection Hrem as <-; proj; [done|].
  by apply erase_kth_sorted.
Qed.

(** ** Reachable states *)

Lemma Evict_params s :
  replacer_size_ (Evict s).2 = replacer_size_ s ∧ k_ (Evict s).2 = k_ s.
Proof.
  by destruct (Evict_cases s) as [[-> _]|(g & y & m & -> & _ & _)].
Qed.

Lemma RecordAccess_params f s s' :
  RecordAccess f s = Some s' → replacer_size_ s' = replacer_size_ s ∧ k_ s' = k_ s.
Proof.
  intros Hrec. unfold RecordAccess in Hrec.
  destruct (f >? to_int (replacer_size_ s)); [done|].
  cbv zeta in Hrec. proj.
  destruct (_ =? 1).
  - destruct (curr_size_ s =? max_size_ s).
    + match type of Hrec with context [Evict ?s1] =>
        destruct (Evict_cases s1) as [[He _]|(g & y & m & He & _ & _)]; rewrite He in Hrec
      end; [done|]. proj. by injection Hrec as <-.
    + by injection Hrec as <-.
  - destruct (_ =? k_ s); [by injection Hrec as <-|].
    destruct (_ >? k_ s); by injection Hrec as <-.
Qed.

Lemma SetEvictable_params f flag s s' :
  SetEvictable f flag s = Some s' → replacer_size_ s' = replacer_size_ s ∧ k_ s' = k_ s.
Proof.
  unfold SetEvictable. intros Hset.
  destruct (f >? to_int (replacer_size_ s)); [done|].
  destruct (get_access s f =? 0); by injection Hset as <-.
Qed.

Lemma Remove_params f s s' :
  Remove f s = Some s' → replacer_size_ s' = replacer_size_ s ∧ k_ s' = k_ s.
Proof.
  unfold Remove. intros Hrem.
  destruct (f >? to_int (replacer_size_ s)); [done|].
  destruct (get_access s f =? 0); [by injection Hrem as <-|].
  destruct (negb _); [done|].
  destruct (get_access s f <? k_ s); by injection Hrem as <-.
Qed.

Lemma reachable_params num_frames k s :
  reachable num_frames k s → replacer_size_ s = num_frames ∧ k_ s = k.
Proof.
  induction 1 as [|f s s' _ IH _ Hop|f flag s s' _ IH Hop|f s s' _ IH Hop|s _ IH].
  - done.
  - apply RecordAccess_params in Hop. destruct Hop, IH. split; congruence.
  - apply SetEvictable_params in Hop. destruct Hop, IH. split; congruence.
  - apply Remove_params in Hop. destruct Hop, IH. split; congruence.
  - destruct (Evict_params s), IH. split; congruence.
Qed.

Lemma reachable_wf num_frames k s :
  0 ≤ num_frames < 2 ^ 64 → 2 ≤ k → reachable num_frames k s → wf s.
Proof.
  intros HN Hk. induction 1 as [|f s s' _ IH Hts Hop|f flag s s' _ IH Hop|f s s' _ IH Hop|s _ IH].
  - by apply wf_new.
  - by eapply RecordAccess_wf.
  - by eapply SetEvictable_wf.
  - by eapply Remove_wf.
  - by apply Evict_wf.
Qed.

Lemma reachable_sorted num_frames k s : reachable num_frames k s → mature_sorted s.
Proof.
  induction 1 as [|f s s' _ IH Hts Hop|f flag s s' _ IH Hop|f s s' _ IH Hop|s _ IH].
  - constructor.
  - by eapply RecordAccess_sorted.
  - by eapply SetEvictable_sorted.
  - by eapply Remove_sorted.
  - by apply Evict_sorted.
Qed.

Lemma wf_tracked s f : wf s → f ∈ tracked s ↔ get_access s f ≠ 0.
Proof.
  intros Hwf. unfold tracked.
  rewrite elem_of_app, (wf_young s Hwf), (wf_mature s Hwf).
  pose proof (wf_access s Hwf f). pose proof (wf_k s Hwf). lia.
Qed.

(** The calls that lead to the sample states. *)
Ltac reach_sample_5 :=
  apply (reach_record 3 2 3 sample_4); [|vm_compute; reflexivity..];
  apply (reach_set 3 2 2 false sample_3); [|vm_compute; reflexivity];
  apply (reach_record 3 2 1 sample_2); [|vm_compute; reflexivity..];
  apply (reach_record 3 2 2 sample_1); [|vm_compute; reflexivity..];
  apply (reach_record 3 2 1 (new 3 2)); [|vm_compute; reflexivity..];
  apply reach_new.


(** ** The properties *)

(** X1. [Size()] is the number of evictable tracked frames: in every state
    reached from the constructor by calls that return, no frame is twice
    in the two lists, the lists hold exactly the frames with a non-zero
    access count, and [Size()] counts those of them whose evictable flag
    is set. *)
Theorem Size_counts_evictable_tracked_frames num_frames k s :
  0 ≤ num_frames < 2 ^ 64 → 2 ≤ k →
  reachable num_frames k s →
  NoDup (tracked s) ∧
  (∀ f, f ∈ tracked s ↔ get_access s f ≠ 0) ∧
  Size s = cnt (get_evictable s) true (tracked s).
Proof.
  intros HN Hk Hr. pose proof (reachable_wf _ _ _ HN Hk Hr) as Hwf.
  split_and!.
  - exact (wf_nodup s Hwf).
  - intros f. by apply wf_tracked.
  - exact (wf_size s Hwf).
Qed.

Lemma Size_counts_evictable_tracked_frames_witness :
  NoDup (tracked sample_5) ∧
  (∀ f, f ∈ tracked sample_5 ↔ get_access sample_5 f ≠ 0) ∧
  Size sample_5 = cnt (get_evictable sample_5) true (tracked sample_5).
Proof.
  apply (Size_counts_evictable_tracked_frames 3 2 sample_5); [lia|lia|].
  reach_sample_5.
Defined.

(** X2. The replacer never tracks more frames than it was constructed
    for: the two lists together hold at most [num_frames] frames,
    [max_size_] is [num_frames] less the tracked frames that are not
    evictable, and [0 ≤ Size() ≤ max_size_ ≤ num_frames]. *)
Theorem tracked_frames_within_capacity num_frames k s :
  0 ≤ num_frames < 2 ^ 64 → 2 ≤ k →
  reachable num_frames k s →
  Z.of_nat (length (tracked s)) ≤ num_frames ∧
  max_size_ s = num_frames - cnt (get_evictable s) false (tracked s) ∧
  0 ≤ Size s ≤ max_size_ s ∧ max_size_ s ≤ num_frames.
Proof.
  intros HN Hk Hr. pose proof (reachable_wf _ _ _ HN Hk Hr) as Hwf.
  destruct (reachable_params _ _ _ Hr) as [HNs _].
  pose proof (wf_le s Hwf). pose proof (wf_max s Hwf).
  pose proof (wf_curr_bounds s Hwf). unfold Size. lia.
Qed.

Lemma tracked_frames_within_capacity_witness :
  Z.of_nat (length (tracked sample_5)) ≤ 3 ∧
  max_size_ sample_5 = 3 - cnt (get_evictable sample_5) false (tracked sample_5) ∧
  0 ≤ Size sample_5 ≤ max_size_ sample_5 ∧ max_size_ sample_5 ≤ 3.
Proof.
  apply (tracked_frames_within_capacity 3 2 sample_5); [lia|lia|].
  reach_sample_5.
Defined.

(** X3. The two lists split the tracked frames by access count: a frame
    is in [lru_less_k_] exactly when it has between 1 and [k - 1]
    accesses since it was last evicted or removed, and in [lru_k_]
    exactly when it has [k] or more. *)
Theorem lists_split_frames_by_access_count num_frames k s f :
  0 ≤ num_frames < 2 ^ 64 → 2 ≤ k →
  reachable num_frames k s →
  (f ∈ lru_less_k_ s ↔ 1 ≤ get_access s f < k) ∧
  (f ∈ (lru_k_ s).*1 ↔ k ≤ get_access s f).
Proof.
  intros HN Hk Hr. pose proof (reachable_wf _ _ _ HN Hk Hr) as Hwf.
  destruct (reachable_params _ _ _ Hr) as [_ <-].
  split; [apply (wf_young s Hwf)|apply (wf_mature s Hwf)].
Qed.

Lemma lists_split_frames_by_access_count_witness :
  (1 ∈ lru_less_k_ sample_5 ↔ 1 ≤ get_access sample_5 1 < 2) ∧
  (1 ∈ (lru_k_ sample_5).*1 ↔ 2 ≤ get_access sample_5 1).
Proof.
  apply (lists_split_frames_by_access_count 3 2 sample_5 1); [lia|lia|].
  reach_sample_5.
Defined.

(** X4. [lru_k_] stays ordered by the stored timestamp, compared as the
    comparator of [std::upper_bound] compares it (after the cast to
    [int]), in every state reached by calls that return. *)
Theorem mature_list_is_sorted num_frames k s :
  reachable num_frames k s → mature_sorted s.
Proof. apply reachable_sorted. Qed.

Lemma mature_list_is_sorted_witness : mature_sorted sample_5.
Proof. apply (mature_list_is_sorted 3 2 sample_5). reach_sample_5. Defined.

(** X5. [Evict] returns false exactly when [Size()] is 0, and then it
    changes nothing. *)
Theorem Evict_fails_iff_Size_0 num_frames k s :
  0 ≤ num_frames < 2 ^ 64 → 2 ≤ k →
  reachable num_frames k s →
  ((Evict s).1 = None ↔ Size s = 0) ∧ ((Evict s).1 = None → (Evict s).2 = s).
Proof.
  intros HN Hk Hr. pose proof (reachable_wf _ _ _ HN Hk Hr) as Hwf.
  destruct (Evict_cases s) as [[-> Hnone]|(g & y & m & -> & Hz & _)]; cbn [fst snd].
  - split; [|done]. split; [|done]. intros _. destruct Hnone as [?|Hscan]; [done|].
    destruct (decide (curr_size_ s = 0)) as [?|Hz]; [done|].
    by destruct (some_victim_wf s Hwf Hz).
  - split; [|done]. split; [done|]. intros ?. by destruct Hz.
Qed.

Lemma Evict_fails_iff_Size_0_witness :
  ((Evict sample_5).1 = None ↔ Size sample_5 = 0) ∧
  ((Evict sample_5).1 = None → (Evict sample_5).2 = sample_5).
Proof.
  apply (Evict_fails_iff_Size_0 3 2 sample_5); [lia|lia|].
  reach_sample_5.
Defined.

(** X6. A successful [Evict] takes a tracked, evictable frame, resets its
    access count to 0, takes it and no other frame out of the lists,
    and lowers [Size()] by exactly one. *)
Theorem Evict_takes_an_evictable_frame num_frames k s f s' :
  0 ≤ num_frames < 2 ^ 64 → 2 ≤ k →
  reachable num_frames k s →
  Evict s = (Some f, s') →
  get_evictable s f = true ∧ f ∈ tracked s ∧
  tracked s ≡ₚ f :: tracked s' ∧ (f ∉ tracked s') ∧
  get_access s' f = 0 ∧ (∀ g, g ≠ f → get_access s' g = get_access s g) ∧
  Size s' = Size s - 1.
Proof.
  intros HN Hk Hr He. pose proof (reachable_wf _ _ _ HN Hk Hr) as Hwf.
  destruct (Evict_cases s) as [[He' _]|(g & y & m & He' & Hz & Hrel)];
    rewrite He' in He; [done|].
  injection He as <- <-.
  destruct (wf_victim s g y m Hwf Hz Hrel) as (Hwf' & Hc & Hev & Hacc).
  destruct (victim_rel_wf s g y m Hwf Hrel) as [_ Hlists].
  cbv zeta in Hwf', Hc.
  assert (tracked s ≡ₚ g :: tracked (mkReplacer (current_timestamp_ s)
            (wrap64 (curr_size_ s - 1)) (replacer_size_ s) (max_size_ s) (k_ s)
            (<[g := 0]> (access_times_ s)) (<[g := []]> (history_list_ s))
            (evictable_ s) y m)) as Hperm.
  { unfold tracked. proj. destruct Hlists as [[Hy ->]|[-> Hm]].
    - by rewrite Hy.
    - rewrite Hm. by rewrite Permutation_middle. }
  split_and!.
  - done.
  - by apply wf_tracked.
  - done.
  - rewrite (wf_tracked _ g Hwf'), get_access_mk, default_insert.
    rewrite decide_True by done. by intros ?.
  - rewrite get_access_mk, default_insert. by rewrite decide_True.
  - intros h Hh. rewrite get_access_mk, default_insert. by rewrite decide_False.
  - exact Hc.
Qed.

Lemma Evict_takes_an_evictable_frame_witness :
  get_evictable sample_5 3 = true ∧ 3 ∈ tracked sample_5 ∧
  tracked sample_5 ≡ₚ 3 :: tracked (Evict sample_5).2 ∧ (3 ∉ tracked (Evict sample_5).2) ∧
  get_access (Evict sample_5).2 3 = 0 ∧
  (∀ g, g ≠ 3 → get_access (Evict sample_5).2 g = get_access sample_5 g) ∧
  Size (Evict sample_5).2 = Size sample_5 - 1.
Proof.
  apply (Evict_takes_an_evictable_frame 3 2 sample_5 3 (Evict sample_5).2); [lia|lia| |].
  - reach_sample_5.
  - vm_compute. reflexivity.
Defined.

(** X7. The victim of [Evict]: a frame of [lru_less_k_] goes first, the
    evictable one nearest the back of that list; only when no frame of
    [lru_less_k_] is evictable a frame of [lru_k_] is taken, and then no
    evictable frame of [lru_k_] has a smaller stored timestamp. *)
Theorem Evict_victim_order num_frames k s f s' :
  reachable num_frames k s →
  Evict s = (Some f, s') →
  (∃ front back, lru_less_k_ s = front ++ f :: back ∧
     Forall (λ g, get_evictable s g = false) back) ∨
  (Forall (λ g, get_evictable s g = false) (lru_less_k_ s) ∧
   ∃ t, (f, t) ∈ lru_k_ s ∧
     ∀ g u, (g, u) ∈ lru_k_ s → get_evictable s g = true → to_int t ≤ to_int u).
Proof.
  intros Hr He. pose proof (reachable_sorted _ _ _ Hr) as Hs.
  destruct (Evict_cases s) as [[He' _]|(g & y & m & He' & Hz & Hrel)];
    rewrite He' in He; [done|].
  injection He as <- <-. destruct Hrel as [(Hy & _ & _)|(Hy & Hm & _)].
  - left. apply scan_young_split in Hy as (l1 & l2 & Hrev & Hall).
    exists (reverse l2), (reverse l1). split.
    + rewrite <- (reverse_involutive (lru_less_k_ s)), Hrev.
      by rewrite reverse_app, reverse_cons, <- app_assoc.
    + by apply Forall_reverse.
  - right. split.
    + apply Forall_forall. intros h Hh. apply (scan_young_None _ _ Hy).
      by apply elem_of_reverse.
    + apply scan_mature_split in Hm as (l1 & t & l2 & Hl & _ & Hall).
      exists t. unfold mature_sorted in Hs. rewrite Hl in *. split.
      * apply elem_of_app. right. apply list_elem_of_here.
      * intros h u Hin Hev. apply elem_of_app in Hin as [Hin|Hin].
        -- rewrite Forall_forall in Hall. apply Hall in Hin. cbn in Hin. congruence.
        -- apply elem_of_cons in Hin as [[= -> ->]|Hin]; [lia|].
           apply StronglySorted_app_1_r, StronglySorted_cons in Hs as [Hf _].
           rewrite Forall_forall in Hf. exact (Hf _ Hin).
Qed.

Lemma Evict_victim_order_witness :
  (∃ front back, lru_less_k_ sample_5 = front ++ 3 :: back ∧
     Forall (λ g, get_evictable sample_5 g = false) back) ∨
  (Forall (λ g, get_evictable sample_5 g = false) (lru_less_k_ sample_5) ∧
   ∃ t, (3, t) ∈ lru_k_ sample_5 ∧
     ∀ g u, (g, u) ∈ lru_k_ sample_5 → get_evictable sample_5 g = true →
       to_int t ≤ to_int u).
Proof.
  apply (Evict_victim_order 3 2 sample_5 3 (Evict sample_5).2).
  - reach_sample_5.
  - vm_compute. reflexivity.
Defined.



(** X9. [Remove] of a tracked frame that returns takes the frame, and no
    other, out of the lists, clears its access count and its evictable
    flag, and lowers [Size()] by exactly one. *)
Theorem Remove_untracks_the_frame num_frames k s f s' :
  0 ≤ num_frames < 2 ^ 64 → 2 ≤ k →
  reachable num_frames k s →
  get_access s f ≠ 0 →
  Remove f s = Some s' →
  get_evictable s f = true ∧
  tracked s ≡ₚ f :: tracked s' ∧ (f ∉ tracked s') ∧
  get_access s' f = 0 ∧ get_evictable s' f = false ∧
  Size s' = Size s - 1.
Proof.
  intros HN Hk Hr Htr Hrem. pose proof (reachable_wf _ _ _ HN Hk Hr) as Hwf.
  pose proof (Remove_wf f s s' Hwf Hrem) as Hwf'.
  pose proof (wf_curr_bounds s Hwf) as Hb.
  pose proof (wf_access s Hwf f) as Hacc.
  assert (curr_size_ s ≠ 0) as Hpos.
  { unfold Remove in Hrem.
    destruct (f >? to_int (replacer_size_ s)); [done|].
    destruct (Z.eqb_spec (get_access s f) 0); [done|].
    destruct (get_evictable s f) eqn:Hev; [|done].
    rewrite (wf_size s Hwf).
    assert (f ∈ tracked s) as Hin by (by apply wf_tracked).
    apply elem_of_Permutation in Hin as [rest Hperm].
    rewrite (cnt_perm _ _ _ _ Hperm), cnt_cons, bool_decide_eq_true_2 by done.
    pose proof (cnt_nonneg (get_evictable s) true rest). lia. }
  unfold Remove in Hrem.
  destruct (f >? to_int (replacer_size_ s)); [done|].
  destruct (Z.eqb_spec (get_access s f) 0); [done|].
  destruct (get_evictable s f) eqn:Hev; [cbn [negb] in Hrem|done].
  assert (get_access s' f = 0 ∧ get_evictable s' f = false ∧
          curr_size_ s' = wrap64 (curr_size_ s - 1) ∧
          tracked s ≡ₚ f :: tracked s') as (Ha & He & Hc & Hperm).
  { destruct (Z.ltb_spec (get_access s f) (k_ s)) as [Hlt|Hge]; injection Hrem as <-.
    - split_and!.
      + rewrite get_access_mk, default_insert. by rewrite decide_True.
      + rewrite get_evictable_mk. by rewrite lookup_delete_eq.
      + done.
      + unfold tracked. proj.
        assert (f ∈ lru_less_k_ s) as Hin by (apply (wf_young s Hwf); lia).
        exact (Permutation_app_tail _ (erase_frame_perm f _ Hin)).
    - split_and!.
      + rewrite get_access_mk, default_insert. by rewrite decide_True.
      + rewrite get_evictable_mk. by rewrite lookup_delete_eq.
      + done.
      + unfold tracked. proj.
        destruct (erase_kth_perm f (lru_k_ s)) as [t Ht]; [by apply (wf_mature s Hwf)|].
        rewrite Ht at 1. rewrite fmap_cons. cbn [fst]. by rewrite Permutation_middle. }
  split_and!; try done.
  - rewrite (wf_tracked _ f Hwf'), Ha. by intros ?.
  - unfold Size. rewrite Hc. apply wrap64_small.
    pose proof (wf_cap s Hwf). lia.
Qed.

Lemma Remove_untracks_the_frame_witness :
  ∃ s', Remove 1 sample_5 = Some s' ∧
    get_evictable sample_5 1 = true ∧
    tracked sample_5 ≡ₚ 1 :: tracked s' ∧ (1 ∉ tracked s') ∧
    get_access s' 1 = 0 ∧ get_evictable s' 1 = false ∧
    Size s' = Size sample_5 - 1.
Proof.
  set (s' := default sample_5 (Remove 1 sample_5)).
  assert (H1 : get_access sample_5 1 ≠ 0) by (vm_compute; discriminate).
  assert (H2 : Remove 1 sample_5 = Some s') by (vm_compute; reflexivity).
  exists s'. split; [exact H2|].
  apply (Remove_untracks_the_frame 3 2 sample_5 1 s'); [lia|lia| | exact H1 | exact H2].
  reach_sample_5.
Defined.



End LRUKMore.

(** * More properties of the extendible hash table *)

Module EHTMore.
Import EHT EHTSpec EHTFacts EHTMoreSpec.

Lemma size_replace_one_by_two (D : gset nat) (p p0 p1 : nat) :
  p ∈ D → p0 ∉ D → p1 ∉ D → p0 ≠ p1 →
  size ((D ∖ {[p]}) ∪ ({[p0]} ∪ {[p1]})) = size D + 1.
Proof.
  intros Hp Hp0 Hp1 Hne.
  rewrite (size_union (D ∖ {[p]}) ({[p0]} ∪ {[p1]})).
  2:{ apply disjoint_union_r. split; apply disjoint_singleton_r;
        rewrite elem_of_difference; by intros [? _]. }
  rewrite (size_union ({[p0]} : gset nat) {[p1]}) by set_solver.
  rewrite (size_difference D {[p]}) by set_solver.
  rewrite !size_singleton.
  assert (size D ≠ 0); [|lia].
  intros Hz. apply size_empty_inv in Hz. set_solver.
Qed.

Section More.

Context {K V : Type} `{EqDecision K}.
Variable hash : K → nat.

Implicit Types (s : @ExtendibleHashTable K V) (b : @Bucket K V) (l : list (K * V)).

Ltac table_simpl :=
  cbn [global_depth_ bucket_size_ num_buckets_ dir_ heap set_heap grow
       depth_ size_ list_ Bucket_new] in *.

(** ** Lists of pairs *)

Lemma list_find_key_assign_ne k k' v l :
  k' ≠ k → list_find_key k' (list_assign_key k v l) = list_find_key k' l.
Proof.
  intros Hne. induction l as [|[x w] l IH]; [done|]. cbn.
  destruct (decide (x = k)) as [->|Hx]; cbn.
  - by rewrite !decide_False by done.
  - by rewrite IH.
Qed.

Lemma list_find_key_erase_ne k k' l :
  k' ≠ k → list_find_key k' (list_erase_key k l) = list_find_key k' l.
Proof.
  intros Hne. induction l as [|[x w] l IH]; [done|]. cbn.
  destruct (decide (x = k)) as [->|Hx]; cbn.
  - by rewrite decide_False by done.
  - by rewrite IH.
Qed.

Lemma list_find_key_erase k l :
  NoDup l.*1 → list_find_key k (list_erase_key k l) = None.
Proof.
  induction l as [|[x w] l IH]; [done|]. rewrite fmap_cons, NoDup_cons. cbn.
  intros [Hx Hnd]. destruct (decide (x = k)) as [->|Hne]; cbn.
  - by apply list_find_key_None.
  - rewrite decide_False by done. by apply IH.
Qed.

Lemma Bucket_Insert_Find_ne k k' v b :
  k' ≠ k → Bucket_Find k' (Bucket_Insert k v b).2 = Bucket_Find k' b.
Proof.
  intros Hne. unfold Bucket_Insert, Bucket_Find. destruct (IsFull b); [done|].
  destruct (list_find_key k (list_ b)); cbn.
  - by apply list_find_key_assign_ne.
  - by rewrite decide_False by done.
Qed.

(** ** The first loop of the redistribution loses no pair *)

Lemma distribute_find mask items b0 b1 b0' b1' :
  distribute hash mask items b0 b1 = (b0', b1') →
  NoDup (items.*1) →
  (∀ x, x ∈ items.*1 → (x ∉ (list_ b0).*1) ∧ (x ∉ (list_ b1).*1)) →
  length (list_ b0) + length items ≤ size_ b0 →
  length (list_ b1) + length items ≤ size_ b1 →
  ∀ x,
    list_find_key x (list_ b0') =
      (if decide (Nat.land (hash x) mask ≠ 0) then list_find_key x (list_ b0)
       else match list_find_key x items with
            | Some v => Some v
            | None => list_find_key x (list_ b0)
            end) ∧
    list_find_key x (list_ b1') =
      (if decide (Nat.land (hash x) mask ≠ 0)
       then match list_find_key x items with
            | Some v => Some v
            | None => list_find_key x (list_ b1)
            end
       else list_find_key x (list_ b1)).
Proof.
  revert b0 b1. induction items as [|[k v] items IH]; intros b0 b1 Hd Hnd Hdisj Hl0 Hl1 x.
  - cbn in Hd. injection Hd as <- <-. cbn. by case_decide.
  - rewrite fmap_cons, NoDup_cons in Hnd. destruct Hnd as [Hk Hnd].
    cbn [length] in Hl0, Hl1.
    destruct (Hdisj k) as [Hk0 Hk1]; [rewrite fmap_cons; apply list_elem_of_here|].
    apply list_find_key_None in Hk0, Hk1.
    assert (∀ y, y ∈ items.*1 → y ≠ k) as Hrest.
    { intros y Hy ->. done. }
    cbn [distribute] in Hd. case_bool_decide as Hbit.
    + assert ((Bucket_Insert k v b1).2 =
              {| size_ := size_ b1; depth_ := depth_ b1; list_ := (k, v) :: list_ b1 |}) as Hins.
      { unfold Bucket_Insert, IsFull. rewrite bool_decide_eq_false_2 by lia.
        by rewrite Hk1. }
      rewrite Hins in Hd. apply IH with (x := x) in Hd; [|done| |cbn; lia|cbn; lia].
      * cbn [list_ size_] in Hd. destruct Hd as [-> ->]. cbn [list_find_key].
        apply list_find_key_None in Hk. cbn [fst] in Hk.
        destruct (decide (k = x)) as [->|Hne];
          destruct (decide (Nat.land (hash x) mask ≠ 0)); try done;
          by rewrite ?Hk, ?Hk0, ?Hk1.
      * intros y Hy. cbn [list_]. rewrite fmap_cons, not_elem_of_cons.
        destruct (Hdisj y) as [? ?]; [rewrite fmap_cons; by apply list_elem_of_further|].
        split_and!; [done| |done]. by apply Hrest.
    + assert ((Bucket_Insert k v b0).2 =
              {| size_ := size_ b0; depth_ := depth_ b0; list_ := (k, v) :: list_ b0 |}) as Hins.
      { unfold Bucket_Insert, IsFull. rewrite bool_decide_eq_false_2 by lia.
        by rewrite Hk0. }
      rewrite Hins in Hd. apply IH with (x := x) in Hd; [|done| |cbn; lia|cbn; lia].
      * cbn [list_ size_] in Hd. destruct Hd as [-> ->]. cbn [list_find_key].
        apply list_find_key_None in Hk. cbn [fst] in Hk.
        destruct (decide (k = x)) as [->|Hne];
          destruct (decide (Nat.land (hash x) mask ≠ 0)); try done;
          by rewrite ?Hk, ?Hk0, ?Hk1.
      * intros y Hy. cbn [list_]. rewrite fmap_cons, not_elem_of_cons.
        destruct (Hdisj y) as [? ?]; [rewrite fmap_cons; by apply list_elem_of_further|].
        split_and!; [|done..]. by apply Hrest.
Qed.


(** ** [Find] through the steps of [Insert] and [Remove] *)

Lemma Find_raw s k :
  shift_fits (global_depth_ s) = true → Find hash k s = find_raw hash k s.
Proof. unfold Find, find_raw. by intros ->. Qed.

Lemma find_raw_set_bucket s p b b' k :
  heap s !! p = Some b →
  Bucket_Find k b' = Bucket_Find k b →
  find_raw hash k (set_heap s (<[p := b']> (heap s))) = find_raw hash k s.
Proof.
  intros Hb Hfind. unfold find_raw, bucket_at, IndexOf. table_simpl.
  destruct (dir_ s !! _) as [q|]; [cbn|done].
  destruct (decide (q = p)) as [->|Hne].
  - rewrite list_lookup_insert_eq by (by eapply lookup_lt_Some).
    rewrite Hb. cbn. by rewrite Hfind.
  - by rewrite list_lookup_insert_ne.
Qed.

Lemma find_raw_grow s k :
  Inv hash s → find_raw hash k (grow s) = find_raw hash k s.
Proof.
  intros [Hlen Hslots]. unfold find_raw, bucket_at. rewrite !IndexOf_mod. table_simpl.
  assert (hash k mod 2 ^ (global_depth_ s + 1) < 2 ^ (global_depth_ s + 1)) as Hi.
  { apply Nat.mod_upper_bound. pose proof (pow2_pos (global_depth_ s + 1)). lia. }
  destruct (grow_lookup _ _ _ Hlen Hi) as (i' & Hi' & -> & Hmod).
  specialize (Hmod (global_depth_ s) ltac:(lia)).
  rewrite Nat.mod_small in Hmod by done.
  rewrite mod_mod_pow2 in Hmod by lia. by rewrite Hmod.
Qed.

Lemma find_raw_redistribute s di p b s' k :
  Inv hash s →
  di < 2 ^ global_depth_ s →
  dir_ s !! di = Some p →
  heap s !! p = Some b →
  depth_ b < global_depth_ s →
  RedistributeBucket hash p di s = Some s' →
  find_raw hash k s' = find_raw hash k s.
Proof.
  intros HInv Hdi Hp Hb Hdepth Hred.
  pose proof HInv as [Hlen Hslots].
  unfold RedistributeBucket in Hred. rewrite Hb in Hred. simpl in Hred.
  destruct (shift_fits (depth_ b)); [|done].
  destruct (distribute _ _ _ _ _) as [B0 B1] eqn:Hdist. injection Hred as <-.
  destruct (Hslots di Hdi) as (p' & b' & Hp' & Hb' & Hokp).
  rewrite Hp in Hp'. injection Hp' as <-.
  rewrite Hb in Hb'. injection Hb' as <-.
  destruct Hokp as (_ & (Hsize & Hlength & Hnd) & Hkeysp & Hdirp).
  pose proof (distribute_find _ _ _ _ _ _ Hdist Hnd) as Hfind.
  specialize (Hfind ltac:(intros x _; split; apply not_elem_of_nil)
                    ltac:(cbn; lia) ltac:(cbn; lia) k) as [Hf0 Hf1].
  cbn [list_ Bucket_new list_find_key] in Hf0, Hf1.
  set (d := depth_ b) in *.
  unfold find_raw, bucket_at. rewrite !IndexOf_mod. table_simpl.
  set (i := hash k mod 2 ^ global_depth_ s).
  assert (i < 2 ^ global_depth_ s) as Hi.
  { apply Nat.mod_upper_bound. pose proof (pow2_pos (global_depth_ s)). lia. }
  rewrite (redistribute_lookup s di d i Hlen Hi).
  destruct (decide (i mod 2 ^ d = di mod 2 ^ d)) as [Hc|Hc].
  - assert (dir_ s !! i = Some p) as -> by (by apply Hdirp).
    assert (bit i d = bit (hash k) d) as Hbit.
    { assert (i mod 2 ^ (d + 1) = hash k mod 2 ^ (d + 1)) as Hm
        by (apply mod_mod_pow2; lia).
      by apply mod_pow2_succ_eq in Hm as [_ ?]. }
    pose proof (land_pow2_bit (hash k) d) as Hland.
    destruct (decide (bit i d = 1)) as [Hb1|Hb1]; cbn; rewrite Hb; cbn.
    + rewrite lookup_app_r by lia.
      replace (S (length (heap s)) - length (heap s)) with 1 by lia. cbn.
      unfold Bucket_Find. rewrite Hf1, decide_True by (apply Hland; congruence).
      by destruct (list_find_key k (list_ b)).
    + rewrite lookup_app_r by lia. rewrite Nat.sub_diag. cbn.
      unfold Bucket_Find. rewrite Hf0, decide_False.
      * by destruct (list_find_key k (list_ b)).
      * intros Hl. apply Hland in Hl. congruence.
  - destruct (Hslots i Hi) as (q & bq & Hq & Hbq & _). rewrite Hq. cbn.
    by rewrite (lookup_app_l_Some _ _ _ _ Hbq), Hbq.
Qed.

Lemma find_raw_split s s' k k' :
  Inv hash s → split hash k s = Some s' → find_raw hash k' s' = find_raw hash k' s.
Proof.
  intros HInv Hsplit. pose proof HInv as [Hlen Hslots].
  pose proof (IndexOf_lt hash k s) as Hi.
  unfold split, bucket_at in Hsplit.
  destruct (Hslots _ Hi) as (p & b & Hp & Hb & Hd & _).
  rewrite Hp in Hsplit. simpl in Hsplit. rewrite Hb in Hsplit. simpl in Hsplit.
  case_bool_decide as Hfull.
  - assert (dir_ (grow s) !! IndexOf hash k s = Some p) as Hp'.
    { table_simpl. rewrite lookup_app_l by lia. done. }
    rewrite Hp' in Hsplit. simpl in Hsplit.
    rewrite <- (find_raw_grow s k' HInv).
    eapply (find_raw_redistribute (grow s)); [by apply Inv_grow| |done|done| |done];
      table_simpl; [|lia].
    rewrite Nat.pow_add_r. pose proof (pow2_pos 1). nia.
  - rewrite Hp in Hsplit. simpl in Hsplit.
    eapply find_raw_redistribute; [done..|lia|done].
Qed.

Lemma Insert_fits fuel k v s s' :
  Insert hash fuel k v s = Ok s' →
  shift_fits (global_depth_ s) = true ∧ shift_fits (global_depth_ s') = true.
Proof.
  revert s. induction fuel as [|fuel IH]; intros s Hins; [done|]. simpl in Hins.
  destruct (shift_fits (global_depth_ s)) eqn:Hfits; [|done]. split; [done|].
  destruct (dir_ s !! IndexOf hash k s) as [p|]; [simpl in Hins|done].
  destruct (heap s !! p) as [b|]; [simpl in Hins|done].
  destruct (Bucket_Insert k v b) as [[] b'].
  - by injection Hins as <-.
  - destruct (split hash k s) as [s1|]; [simpl in Hins|done]. by apply IH in Hins as [_ ?].
Qed.

Lemma Insert_find_raw_other fuel k v s s' k' :
  Inv hash s → Insert hash fuel k v s = Ok s' → k' ≠ k →
  find_raw hash k' s' = find_raw hash k' s.
Proof.
  revert s. induction fuel as [|fuel IH]; intros s HInv Hins Hne; [done|].
  simpl in Hins. destruct (shift_fits (global_depth_ s)); [|done].
  destruct (dir_ s !! IndexOf hash k s) as [p|] eqn:Hp; [simpl in Hins|done].
  destruct (heap s !! p) as [b|] eqn:Hb; [simpl in Hins|done].
  destruct (Bucket_Insert k v b) as [[] b'] eqn:Hbi.
  - injection Hins as <-. apply (find_raw_set_bucket s p b); [done|].
    replace b' with (Bucket_Insert k v b).2 by (by rewrite Hbi).
    by apply Bucket_Insert_Find_ne.
  - destruct (split hash k s) as [s1|] eqn:Hsplit; [simpl in Hins|done].
    rewrite (IH s1); [|by eapply Inv_split|done..].
    by eapply find_raw_split.
Qed.

(** X11. Every other key keeps its value through a call of [Insert] that
    returns, splits included: for a table reached from the constructor and
    [k' ≠ k], [Find(k')] answers after [Insert(k, v)] what it answered
    before. *)
Theorem Insert_keeps_other_keys bucket_size fuel k v s s' k' :
  reachable hash bucket_size s →
  Insert hash fuel k v s = Ok s' →
  k' ≠ k →
  Find hash k' s' = Find hash k' s.
Proof.
  intros Hreach Hins Hne. apply reachable_Inv in Hreach.
  destruct (Insert_fits _ _ _ _ _ Hins) as [Hf Hf'].
  rewrite !Find_raw by done. by eapply Insert_find_raw_other.
Qed.

(** X12. [Remove(k)] returns whether the key was stored, and after it [Find(k)]
    finds nothing, in every table reached from the constructor. *)
Theorem Remove_then_Find bucket_size k s r s' :
  reachable hash bucket_size s →
  Remove hash k s = Some (r, s') →
  Find hash k s' = Some None ∧
  (r = true ↔ ∃ v, Find hash k s = Some (Some v)).
Proof.
  intros Hreach Hrem. apply reachable_Inv in Hreach as [Hlen Hslots].
  pose proof (IndexOf_lt hash k s) as Hi.
  destruct (Hslots _ Hi) as (p & b & Hp & Hb & _ & (_ & _ & Hnd) & _).
  unfold Remove in Hrem. unfold Find, bucket_at.
  destruct (shift_fits (global_depth_ s)) eqn:Hfits; [|done].
  rewrite Hp in Hrem. simpl in Hrem. rewrite Hb in Hrem. simpl in Hrem.
  unfold Bucket_Remove in Hrem. rewrite Hp. cbn. rewrite Hb. cbn. unfold Bucket_Find.
  destruct (list_find_key k (list_ b)) as [v|] eqn:Hfind; injection Hrem as <- <-.
  - unfold IndexOf. table_simpl. rewrite Hfits. fold (IndexOf hash k s). rewrite Hp. cbn.
    rewrite list_lookup_insert_eq by (by eapply lookup_lt_Some). cbn.
    rewrite list_find_key_erase by done. split; [done|]. split; [by exists v|done].
  - unfold IndexOf. table_simpl. rewrite Hfits. fold (IndexOf hash k s). rewrite Hp. cbn.
    rewrite list_lookup_insert_eq by (by eapply lookup_lt_Some). cbn.
    rewrite Hfind. split; [done|]. split; [done|]. by intros [? ?].
Qed.

(** X13. Every other key keeps its value through [Remove]: for [k' ≠ k],
    [Find(k')] answers after [Remove(k)] what it answered before, in any
    state of the table. *)
Theorem Remove_keeps_other_keys k s r s' k' :
  Remove hash k s = Some (r, s') →
  k' ≠ k →
  Find hash k' s' = Find hash k' s.
Proof.
  intros Hrem Hne. unfold Remove in Hrem.
  destruct (shift_fits (global_depth_ s)) eqn:Hfits; [|done].
  destruct (dir_ s !! IndexOf hash k s) as [p|]; [simpl in Hrem|done].
  destruct (heap s !! p) as [b|] eqn:Hb; [simpl in Hrem|done].
  destruct (Bucket_Remove k b) as [r' b'] eqn:Hbr. injection Hrem as <- <-.
  rewrite !Find_raw by done. apply (find_raw_set_bucket s p b); [done|].
  unfold Bucket_Remove in Hbr. unfold Bucket_Find.
  destruct (list_find_key k (list_ b)); injection Hbr as <- <-; [|done].
  by apply list_find_key_erase_ne.
Qed.

(** X14. When the bucket of the key is not full, [Insert] returns in its first
    round and leaves the directory, the global depth and the number of
    buckets as they are. *)
Theorem Insert_with_room fuel k v s p b :
  shift_fits (global_depth_ s) = true →
  dir_ s !! IndexOf hash k s = Some p →
  heap s !! p = Some b →
  IsFull b = false →
  ∃ s', Insert hash (S fuel) k v s = Ok s' ∧
        dir_ s' = dir_ s ∧
        GetGlobalDepth s' = GetGlobalDepth s ∧
        GetNumBuckets s' = GetNumBuckets s ∧
        Find hash k s' = Some (Some v).
Proof.
  intros Hfits Hp Hb Hfull.
  assert (∃ s', Insert hash (S fuel) k v s = Ok s' ∧ dir_ s' = dir_ s ∧
                GetGlobalDepth s' = GetGlobalDepth s ∧
                GetNumBuckets s' = GetNumBuckets s) as (s' & Hins & ? & ? & ?).
  { simpl. rewrite Hfits, Hp. simpl. rewrite Hb. simpl.
    pose proof (Bucket_Insert_ok k v b Hfull) as Hok.
    destruct (Bucket_Insert k v b) as [ok b']. simpl in Hok. subst ok. eauto. }
  exists s'. split_and!; [done..|]. by eapply Insert_Find.
Qed.


(** ** The number of buckets *)

Lemma bit_small x d : x < 2 ^ d → bit x d = 0.
Proof. intros Hx. unfold bit. by rewrite Nat.div_small. Qed.

Lemma bit_add_pow2 x d : x < 2 ^ d → bit (x + 2 ^ d) d = 1.
Proof.
  intros Hx. unfold bit. pose proof (pow2_pos d).
  replace (x + 2 ^ d) with (x + 1 * 2 ^ d) by lia.
  rewrite Nat.div_add by lia. by rewrite Nat.div_small.
Qed.

Lemma distinct_redistribute s di p b s' :
  Inv hash s →
  di < 2 ^ global_depth_ s →
  dir_ s !! di = Some p →
  heap s !! p = Some b →
  depth_ b < global_depth_ s →
  RedistributeBucket hash p di s = Some s' →
  distinct_buckets s' = distinct_buckets s + 1 ∧
  num_buckets_ s' = num_buckets_ s + 1.
Proof.
  intros HInv Hdi Hp Hb Hdepth Hred.
  pose proof HInv as [Hlen Hslots].
  unfold RedistributeBucket in Hred. rewrite Hb in Hred. simpl in Hred.
  destruct (shift_fits (depth_ b)); [|done].
  destruct (distribute _ _ _ _ _) as [B0 B1] eqn:Hdist. injection Hred as <-.
  split; [|done].
  destruct (Hslots di Hdi) as (p' & b' & Hp' & Hb' & Hokp).
  rewrite Hp in Hp'. injection Hp' as <-.
  rewrite Hb in Hb'. injection Hb' as <-.
  destruct Hokp as (_ & _ & _ & Hdirp).
  set (d := depth_ b) in *.
  remember (length (heap s)) as p0 eqn:Hp0eq.
  remember (S p0) as p1 eqn:Hp1eq.
  remember (repoint _ _ _ _ _ _) as dir' eqn:Hdir'.
  assert (∀ j, j < 2 ^ global_depth_ s →
               dir' !! j = if decide (j mod 2 ^ d = di mod 2 ^ d)
                           then Some (if decide (bit j d = 1) then p1 else p0)
                           else dir_ s !! j) as Hnew.
  { intros j Hj. subst. by apply redistribute_lookup. }
  assert (length dir' = 2 ^ global_depth_ s) as Hlen'.
  { subst dir'. by rewrite repoint_length. }
  assert (∀ j x, dir_ s !! j = Some x → x < p0) as Hold.
  { intros j x Hx. subst p0. by eapply Inv_lookup_lt. }
  clear Hdir' Hp0eq.
  pose proof (pow2_pos d) as Hpos.
  assert (2 ^ (d + 1) ≤ 2 ^ global_depth_ s) as Hpow.
  { apply Nat.pow_le_mono_r; lia. }
  rewrite Nat.pow_add_r, Nat.pow_1_r in Hpow.
  set (i0 := di mod 2 ^ d).
  assert (i0 < 2 ^ d) as Hi0 by (apply Nat.mod_upper_bound; lia).
  unfold distinct_buckets. table_simpl.
  assert ((list_to_set dir' : gset nat) =
          (list_to_set (dir_ s) ∖ {[p]}) ∪ ({[p0]} ∪ {[p1]})) as ->.
  { apply set_eq. intros x.
    rewrite elem_of_union, elem_of_difference, !elem_of_list_to_set, elem_of_union,
      !elem_of_singleton, !list_elem_of_lookup.
    split.
    - intros [j Hj].
      assert (j < 2 ^ global_depth_ s) as Hjlt.
      { rewrite <- Hlen'. by eapply lookup_lt_Some. }
      rewrite (Hnew j Hjlt) in Hj. case_decide as Hc.
      + right. injection Hj as <-. case_decide; auto.
      + left. split; [by exists j|]. intros ->. by apply Hc, Hdirp.
    - intros [[[j Hj] Hne]|[->| ->]].
      + exists j.
        assert (j < 2 ^ global_depth_ s) as Hjlt.
        { rewrite <- Hlen. by eapply lookup_lt_Some. }
        rewrite (Hnew j Hjlt). rewrite decide_False; [done|].
        intros Hc. apply Hdirp in Hc; [|done]. congruence.
      + exists i0. rewrite Hnew by lia.
        rewrite decide_True by (by apply Nat.mod_small).
        by rewrite decide_False by (rewrite bit_small; done).
      + exists (i0 + 2 ^ d). rewrite Hnew by lia.
        rewrite decide_True.
        * by rewrite decide_True by (by apply bit_add_pow2).
        * replace (i0 + 2 ^ d) with (i0 + 1 * 2 ^ d) by lia.
          rewrite Nat.Div0.mod_add. by apply Nat.mod_small. }
  assert (p ∈ (list_to_set (dir_ s) : gset nat)) as Hin.
  { apply elem_of_list_to_set, list_elem_of_lookup. by exists di. }
  assert (p0 ∉ (list_to_set (dir_ s) : gset nat)) as Hp0.
  { rewrite elem_of_list_to_set, list_elem_of_lookup. intros [j Hj].
    apply Hold in Hj. lia. }
  assert (p1 ∉ (list_to_set (dir_ s) : gset nat)) as Hp1.
  { rewrite elem_of_list_to_set, list_elem_of_lookup. intros [j Hj].
    apply Hold in Hj. lia. }
  assert (p0 ≠ p1) as Hp01 by lia.
  by apply size_replace_one_by_two.
Qed.

Lemma distinct_grow s : distinct_buckets (grow s) = distinct_buckets s.
Proof.
  unfold distinct_buckets. table_simpl.
  by rewrite list_to_set_app_L, union_idemp_L.
Qed.

Lemma distinct_split s s' k :
  Inv hash s → split hash k s = Some s' →
  distinct_buckets s' = distinct_buckets s + 1 ∧ num_buckets_ s' = num_buckets_ s + 1.
Proof.
  intros HInv Hsplit. pose proof HInv as [Hlen Hslots].
  pose proof (IndexOf_lt hash k s) as Hi.
  unfold split, bucket_at in Hsplit.
  destruct (Hslots _ Hi) as (p & b & Hp & Hb & Hd & _).
  rewrite Hp in Hsplit. simpl in Hsplit. rewrite Hb in Hsplit. simpl in Hsplit.
  case_bool_decide as Hfull.
  - assert (dir_ (grow s) !! IndexOf hash k s = Some p) as Hp'.
    { table_simpl. rewrite lookup_app_l by lia. done. }
    rewrite Hp' in Hsplit. simpl in Hsplit.
    rewrite <- (distinct_grow s).
    change (num_buckets_ s) with (num_buckets_ (grow s)).
    eapply (distinct_redistribute (grow s)); [by apply Inv_grow| |done|done| |done];
      table_simpl; [|lia].
    rewrite Nat.pow_add_r. pose proof (pow2_pos 1). nia.
  - rewrite Hp in Hsplit. simpl in Hsplit.
    eapply distinct_redistribute; [done..|lia|done].
Qed.

Lemma distinct_Insert fuel k v s s' :
  Inv hash s → Insert hash fuel k v s = Ok s' →
  num_buckets_ s = distinct_buckets s → num_buckets_ s' = distinct_buckets s'.
Proof.
  revert s. induction fuel as [|fuel IH]; intros s HInv Hins Hnum; [done|].
  simpl in Hins. destruct (shift_fits (global_depth_ s)); [|done].
  destruct (dir_ s !! IndexOf hash k s) as [p|] eqn:Hp; [simpl in Hins|done].
  destruct (heap s !! p) as [b|] eqn:Hb; [simpl in Hins|done].
  destruct (Bucket_Insert k v b) as [[] b'] eqn:Hbi.
  - by injection Hins as <-.
  - destruct (split hash k s) as [s1|] eqn:Hsplit; [simpl in Hins|done].
    apply (IH s1); [by eapply Inv_split|done|].
    destruct (distinct_split s s1 k HInv Hsplit) as [-> ->]. lia.
Qed.

(** X15. [GetNumBuckets] is the number of different buckets the directory
    refers to, in every table reached from the constructor: a split takes
    one bucket out of the directory and puts two in. *)
Theorem GetNumBuckets_counts_buckets bucket_size s :
  reachable hash bucket_size s →
  GetNumBuckets s = distinct_buckets s.
Proof.
  unfold GetNumBuckets.
  induction 1 as [|s fuel k v s' Hreach IH Hins|s k r s' Hreach IH Hrem].
  - done.
  - eapply distinct_Insert; [by eapply reachable_Inv|done..].
  - unfold Remove in Hrem. destruct (shift_fits (global_depth_ s)); [|done].
    destruct (dir_ s !! IndexOf hash k s) as [p|]; [simpl in Hrem|done].
    destruct (heap s !! p) as [b|]; [simpl in Hrem|done].
    destruct (Bucket_Remove k b). by injection Hrem as <- <-.
Qed.

(** X10. Whenever [Insert(k, v)] returns, a following [Find(k)] returns [v],
    however many times the bucket was split on the way and in whatever
    state the table was. *)
Theorem Insert_then_Find fuel k v s s' :
  Insert hash fuel k v s = Ok s' → Find hash k s' = Some (Some v).
Proof. apply Insert_Find. Qed.

(** ** Keys that collide *)

Lemma split_bucket_size k s s' :
  split hash k s = Some s' → bucket_size_ s' = bucket_size_ s.
Proof.
  unfold split. intros Hsplit.
  destruct (bucket_at s _) as [b0|]; [cbn [mbind option_bind] in Hsplit|done].
  set (s1 := if bool_decide (depth_ b0 = global_depth_ s) then grow s else s) in *.
  assert (bucket_size_ s1 = bucket_size_ s) as <- by (unfold s1; by case_bool_decide).
  clearbody s1.
  destruct (dir_ s1 !! _) as [p0|]; [cbn [mbind option_bind] in Hsplit|done].
  unfold RedistributeBucket in Hsplit.
  destruct (heap s1 !! p0) as [b1|]; [cbn [mbind option_bind] in Hsplit|done].
  destruct (shift_fits (depth_ b1)); [|done].
  destruct (distribute _ _ _ _ _). by injection Hsplit as <-.
Qed.

(** The bucket of the key's slot is full of keys that have the hash of
    the key: a split leaves the table so. *)
Lemma crowded_split k s s' p b :
  Inv hash s →
  dir_ s !! IndexOf hash k s = Some p → heap s !! p = Some b →
  IsFull b = true →
  (∀ x, x ∈ (list_ b).*1 → hash x = hash k) →
  split hash k s = Some s' →
  ∃ p' b', dir_ s' !! IndexOf hash k s' = Some p' ∧ heap s' !! p' = Some b' ∧
           IsFull b' = true ∧ (∀ x, x ∈ (list_ b').*1 → hash x = hash k).
Proof.
  intros HInv Hp Hb Hfull Hhash Hsplit.
  pose proof (Inv_split hash k s s' HInv Hsplit) as HInv'.
  pose proof HInv as [_ Hslots]. pose proof HInv' as [_ Hslots'].
  destruct (Hslots _ (IndexOf_lt hash k s)) as (q & bq & Hq & Hbq & _ & (Hsz & _ & Hnd) & _).
  rewrite Hp in Hq. injection Hq as <-. rewrite Hb in Hbq. injection Hbq as <-.
  destruct (Hslots' _ (IndexOf_lt hash k s'))
    as (p' & b' & Hp' & Hb' & _ & (Hsz' & Hlen' & Hnd') & _).
  pose proof (split_bucket_size k s s' Hsplit) as Hbs.
  unfold IsFull in Hfull. apply bool_decide_eq_true in Hfull.
  assert (∀ x, x ∈ (list_ b).*1 → x ∈ (list_ b').*1) as Hsub.
  { intros x Hx.
    pose proof (find_raw_split s s' k x HInv Hsplit) as Hfind.
    unfold find_raw, bucket_at in Hfind.
    rewrite !IndexOf_mod, (Hhash x Hx), <- !IndexOf_mod in Hfind.
    rewrite Hp', Hp in Hfind. cbn in Hfind. rewrite Hb', Hb in Hfind. cbn in Hfind.
    unfold Bucket_Find in Hfind. injection Hfind as Hfind.
    destruct (decide (x ∈ (list_ b').*1)) as [?|Hnot]; [done|].
    apply list_find_key_None in Hnot. rewrite Hnot in Hfind.
    symmetry in Hfind. apply list_find_key_None in Hfind. done. }
  assert ((list_ b).*1 ≡ₚ (list_ b').*1) as Hperm.
  { apply submseteq_length_Permutation.
    - by apply NoDup_submseteq.
    - rewrite !length_fmap. lia. }
  exists p', b'. split_and!; [done..| |].
  - unfold IsFull. apply bool_decide_eq_true.
    apply Permutation_length in Hperm. rewrite !length_fmap in Hperm. lia.
  - intros x Hx. apply Hhash. by rewrite Hperm.
Qed.

Lemma crowded_Insert fuel k v s p b :
  Inv hash s →
  dir_ s !! IndexOf hash k s = Some p → heap s !! p = Some b →
  IsFull b = true →
  (∀ x, x ∈ (list_ b).*1 → hash x = hash k) →
  ∀ s', Insert hash fuel k v s ≠ Ok s'.
Proof.
  revert s p b. induction fuel as [|fuel IH]; intros s p b HInv Hp Hb Hfull Hhash s'; [done|].
  cbn [Insert]. destruct (shift_fits (global_depth_ s)); [|done].
  rewrite Hp. cbn [must obind]. rewrite Hb. cbn [must obind].
  rewrite (Bucket_Insert_full k v b Hfull).
  destruct (split hash k s) as [s1|] eqn:Hsplit; [cbn [must obind]|done].
  destruct (crowded_split k s s1 p b HInv Hp Hb Hfull Hhash Hsplit)
    as (p' & b' & Hp' & Hb' & Hfull' & Hhash').
  eapply IH; [by eapply Inv_split|done..].
Qed.

(** X26. [Insert] does not return when the bucket of the key is full of
    keys that have the very hash of the key, the key itself perhaps among
    them: every split puts all of them into one bucket again, which is
    full again, and the loop goes on until [1 << global_depth_] no longer
    fits an [int].  This holds in every table reached from the
    constructor, for every hash function and every bucket size. *)
Theorem Insert_never_returns_among_colliding_keys bucket_size fuel k v s p b :
  reachable hash bucket_size s →
  dir_ s !! IndexOf hash k s = Some p → heap s !! p = Some b →
  IsFull b = true →
  (∀ x, x ∈ (list_ b).*1 → hash x = hash k) →
  ∀ s', Insert hash fuel k v s ≠ Ok s'.
Proof.
  intros Hreach. apply crowded_Insert. by eapply reachable_Inv.
Qed.

End More.

Ltac reach_split_state_3 :=
  apply (reach_insert id 2 split_state_2 5 20 "c"); [|vm_compute; reflexivity];
  apply (reach_insert id 2 split_state_1 5 12 "b"); [|vm_compute; reflexivity];
  apply (reach_insert id 2 (new 2) 5 4 "a"); [|vm_compute; reflexivity];
  apply reach_new.

Ltac reach_more_state_1 :=
  apply (reach_insert id 2 split_state_3 5 5 "d"); [|vm_compute; reflexivity];
  reach_split_state_3.

Ltac reach_more_state_2 :=
  apply (reach_remove id 2 more_state_1 12 true); [|vm_compute; reflexivity];
  reach_more_state_1.

Lemma Insert_then_Find_witness : Find id 5 more_state_1 = Some (Some "d").
Proof.
  apply (Insert_then_Find id 5 5 "d" split_state_3 more_state_1).
  vm_compute. reflexivity.
Defined.

Lemma Insert_keeps_other_keys_witness :
  Find id 12 more_state_1 = Find id 12 split_state_3.
Proof.
  apply (Insert_keeps_other_keys id 2 5 5 "d" split_state_3 more_state_1 12).
  - reach_split_state_3.
  - vm_compute. reflexivity.
  - lia.
Defined.

Lemma Remove_then_Find_witness :
  Find id 12 more_state_2 = Some None ∧
  (true = true ↔ ∃ v, Find id 12 more_state_1 = Some (Some v)).
Proof.
  apply (Remove_then_Find id 2 12 more_state_1 true more_state_2).
  - reach_more_state_1.
  - vm_compute. reflexivity.
Defined.

Lemma Remove_keeps_other_keys_witness :
  Find id 4 more_state_2 = Find id 4 more_state_1.
Proof.
  apply (Remove_keeps_other_keys id 12 more_state_1 true more_state_2 4).
  - vm_compute. reflexivity.
  - lia.
Defined.

Lemma Insert_with_room_witness :
  ∃ s', Insert id 1 7 "x" (new 2) = Ok s' ∧
        dir_ s' = dir_ (new (K:=nat) (V:=string) 2) ∧
        GetGlobalDepth s' = GetGlobalDepth (new (K:=nat) (V:=string) 2) ∧
        GetNumBuckets s' = GetNumBuckets (new (K:=nat) (V:=string) 2) ∧
        Find id 7 s' = Some (Some "x").
Proof.
  apply (Insert_with_room id 0 7 "x" (new 2) 0 (Bucket_new 2 0)); reflexivity.
Defined.

Lemma GetNumBuckets_counts_buckets_witness :
  GetNumBuckets more_state_2 = distinct_buckets more_state_2.
Proof.
  apply (GetNumBuckets_counts_buckets id 2 more_state_2). reach_more_state_2.
Defined.

Lemma Insert_never_returns_among_colliding_keys_witness :
  ¬ ∃ s', Insert hash_mod_4 40 9 "c" crowded_state = Ok s'.
Proof.
  intros [s' Hs']. revert Hs'.
  apply (Insert_never_returns_among_colliding_keys hash_mod_4 2 40 9 "c" crowded_state 0
           {| size_ := 2; depth_ := 0; list_ := [(5, "b"); (1, "a")] |}).
  - apply (reach_insert hash_mod_4 2
             (state_of (Insert hash_mod_4 1 1 "a" (new 2)) (new 2)) 1 5 "b");
      [|vm_compute; reflexivity].
    apply (reach_insert hash_mod_4 2 (new 2) 1 1 "a"); [|vm_compute; reflexivity].
    apply reach_new.
  - vm_compute. reflexivity.
  - vm_compute. reflexivity.
  - vm_compute. reflexivity.
  - intros x Hx. cbn in Hx. apply elem_of_cons in Hx as [->|Hx]; [reflexivity|].
    apply elem_of_cons in Hx as [->|Hx]; [reflexivity|]. by apply elem_of_nil in Hx.
Defined.

End EHTMore.

(** * More properties of the B+-tree index and its iterator *)

Module BPTMore.

Import BPT BPTSpec BPTFacts BPTMoreSpec.
Local Open Scope Z_scope.

Section More.

Context {KeyType ValueType : Type}.
Variable comparator_ : KeyType → KeyType → Z.
Variable blank_key : KeyType.

Abbreviation Pool := (@BufferPoolManager KeyType ValueType).
Abbreviation Page := (@BPlusTreePage KeyType ValueType).

Implicit Types (b c : Pool) (t : BPlusTree) (p q leaf : page_id_t) (pg : Page).

(** ** The pool *)

Lemma FetchPage_Some p b :
  is_Some (pages_ b !! p) → (FetchPage p b).2 = Some p.
Proof.
  intros Hp. unfold FetchPage.
  rewrite (bool_decide_eq_true_2 (is_Some _)) by done.
  by rewrite orb_true_r.
Qed.

Lemma FetchPage_ptr p b q : (FetchPage p b).2 = Some q → q = p.
Proof. unfold FetchPage. destruct (_ || _); cbn; congruence. Qed.


Lemma read_page_Ok p b pg : read_page p b = Ok pg ↔ pages_ b !! p = Some pg.
Proof.
  unfold read_page, must. destruct (pages_ b !! p); split; intros [=]; by subst.
Qed.

Lemma read_page_pages p b c : pages_ c = pages_ b → read_page p c = read_page p b.
Proof. unfold read_page. by intros ->. Qed.


(** ** The tree record through an insertion *)

Lemma same_but_root_refl t : same_but_root t t.
Proof. done. Qed.

Lemma same_but_root_set_root t r : same_but_root t (set_root t r).
Proof. done. Qed.

Lemma SimpleSplit_tree pair bPage parent t b t' b' :
  SimpleSplit comparator_ blank_key pair bPage parent t b = Ok (t', b') →
  same_but_root t t'.
Proof.
  unfold SimpleSplit. intros Hs.
  destruct (split_page _ _ _ _ _) as [[page_id b1]| |]; [cbn [obind] in Hs|done..].
  destruct parent as [parent|].
  - destruct (read_page bPage b1) as [old| |]; [cbn [obind] in Hs|done..].
    destruct (read_page page_id _) as [newpage| |]; [cbn [obind] in Hs|done..].
    destruct (must (first_key newpage)) as [key| |]; [cbn [obind] in Hs|done..].
    destruct (SimpleInsert _ _ _ _) as [b6| |]; [cbn [obind] in Hs|done..].
    by injection Hs as <- _.
  - destruct (NewPage b1) as [bn page_id1]. cbn zeta in Hs.
    destruct (read_page bPage _) as [old| |]; [cbn [obind] in Hs|done..].
    destruct (read_page page_id _) as [newpage| |]; [cbn [obind] in Hs|done..].
    destruct (must (first_key newpage)) as [key| |]; [cbn [obind] in Hs|done..].
    destruct (SimpleInsert _ _ _ _) as [b6| |]; [cbn [obind] in Hs|done..].
    by injection Hs as <- _.
Qed.

Lemma MultipleSplit_tree fuel pair bPage parent t b t' b' :
  MultipleSplit comparator_ blank_key fuel pair bPage parent t b = Ok (t', b') →
  same_but_root t t'.
Proof.
  revert pair bPage parent b.
  induction fuel as [|fuel IH]; intros pair bPage parent b Hm; [done|].
  cbn [MultipleSplit] in Hm.
  destruct (split_page _ _ _ _ _) as [[page_id b1]| |]; [cbn [obind] in Hm|done..].
  destruct (read_page parent b1) as [par| |]; [cbn [obind] in Hm|done..].
  destruct (read_page page_id b1) as [newpage| |]; [cbn [obind] in Hm|done..].
  destruct (must (first_key newpage)) as [key| |]; [cbn [obind] in Hm|done..].
  destruct (IsRootPage par); [by eapply SimpleSplit_tree|].
  destruct (FetchPage _ _) as [b3 [np|]]; [cbn [obind must] in Hm|done].
  destruct (read_page np b3) as [new_parent| |]; [cbn [obind] in Hm|done..].
  destruct (_ >? _); [by eapply SimpleSplit_tree|by eapply IH].
Qed.


(** ** The descent and the two lookups *)




(** ** [Insert] *)

(** X16. [Insert] counts the entries: a call that returns has added one
    to [cur_size_] when it returns true and left it when it returns
    false, whichever of [SimpleInsert], [SimpleSplit] and [MultipleSplit]
    did the work, and it never changes the name or the two size bounds of
    the tree. *)
Theorem Insert_counts_the_entries fuel key value t b r t' b' :
  Insert comparator_ blank_key fuel key value t b = Ok (r, t', b') →
  cur_size_ t' = cur_size_ t + (if r then 1 else 0) ∧
  index_name_ t' = index_name_ t ∧
  leaf_max_size_ t' = leaf_max_size_ t ∧
  internal_max_size_ t' = internal_max_size_ t.
Proof.
  unfold Insert. intros Hi.
  match type of Hi with
  | (let '(t0, b0) := ?e in _) = _ =>
      assert (same_but_root t e.1) as Hsame;
        [|destruct e as [t0 b0]; cbn [fst] in Hsame]
  end.
  { case_bool_decide; [|done]. by destruct (NewPage b). }
  destruct (TreeTraversal _ _ _ _ _) as [[[absent bPage] b1]| |]; [cbn [obind] in Hi|done..].
  destruct Hsame as (Hn & Hl & Hm & Hc).
  destruct absent; cbn [negb] in Hi.
  2:{ injection Hi as <- <- _. rewrite Hn, Hl, Hm, Hc. split_and!; [lia|done..]. }
  destruct (read_page bPage b1) as [page| |]; [cbn [obind] in Hi|done..].
  destruct (_ >? _).
  { destruct (SimpleInsert _ _ _ _) as [b2| |]; [cbn [obind] in Hi|done..].
    injection Hi as <- <- _. cbn. rewrite Hn, Hl, Hm, Hc. done. }
  assert (∀ o : outcome (BPlusTree * Pool),
            ('(t1, b2) ←! o; Ok (true, incr_size t1, b2)) = Ok (r, t', b') →
            (∀ t1 b2, o = Ok (t1, b2) → same_but_root t0 t1) →
            cur_size_ t' = cur_size_ t + (if r then 1 else 0) ∧
            index_name_ t' = index_name_ t ∧
            leaf_max_size_ t' = leaf_max_size_ t ∧
            internal_max_size_ t' = internal_max_size_ t) as Hfin.
  { intros [[t1 b2]| |] Ho Hs; [cbn [obind] in Ho|done..].
    destruct (Hs t1 b2 eq_refl) as (Hn1 & Hl1 & Hm1 & Hc1).
    injection Ho as <- <- _. cbn. rewrite Hn1, Hl1, Hm1, Hc1, Hn, Hl, Hm, Hc. done. }
  destruct (IsRootPage page).
  { apply (Hfin _ Hi). intros t1 b2. apply SimpleSplit_tree. }
  destruct (FetchPage _ _) as [b2 [pp|]]; [cbn [obind must] in Hi|done].
  destruct (read_page pp b2) as [parent| |]; [cbn [obind] in Hi|done..].
  apply (Hfin _ Hi). intros t1 b3.
  destruct (_ >? _); [apply SimpleSplit_tree|apply MultipleSplit_tree].
Qed.



(** ** An insertion into a leaf with room *)

Lemma insert_upper_nil {X : Type} (e : KeyType * X) (a : list (KeyType * X)) :
  match a with [] => [e] | _ => insert_upper comparator_ e a end
  = insert_upper comparator_ e a.
Proof. by destruct a. Qed.







(** ** A tree of one leaf *)







(** ** The iterator *)

Lemma descend_left_pages fuel p b leaf b' :
  descend_left fuel p b = Ok (leaf, b') → pages_ b' = pages_ b.
Proof.
  revert p b. induction fuel as [|fuel IH]; intros p b Hd; [done|]. cbn [descend_left] in Hd.
  destruct (read_page p b) as [pg| |]; [cbn [obind] in Hd|done..].
  destruct (data_ pg) as [|next a|a]; try (by injection Hd as <- <-).
  destruct (must (a !! 0%nat)) as [e0| |]; [cbn [obind] in Hd|done..].
  pose proof (FetchPage_pages e0.2 b) as Hf.
  destruct (FetchPage e0.2 b) as [b1 [child|]]; [cbn [obind must fst] in *|done].
  apply IH in Hd. by rewrite Hd, UnpinPage_pages.
Qed.

Lemma descend_left_balance fuel p b leaf b' :
  descend_left fuel p b = Ok (leaf, b') →
  pin_balance (calls_ b') = pin_balance (calls_ b).
Proof.
  revert p b. induction fuel as [|fuel IH]; intros p b Hd; [done|]. cbn [descend_left] in Hd.
  destruct (read_page p b) as [pg| |]; [cbn [obind] in Hd|done..].
  destruct (data_ pg) as [|next a|a]; try (by injection Hd as <- <-).
  destruct (must (a !! 0%nat)) as [e0| |]; [cbn [obind] in Hd|done..].
  pose proof (FetchPage_calls e0.2 b) as Hf.
  destruct (FetchPage e0.2 b) as [b1 [child|]]; [cbn [obind must fst] in *|done].
  apply IH in Hd. rewrite Hd, UnpinPage_calls. cbn [pin_balance]. rewrite Hf.
  cbn [pin_balance]. lia.
Qed.

Lemma Begin_iterator_shape fuel t b it b' :
  Begin fuel t b = Ok (it, b') →
  page_id_ it ≠ INVALID_PAGE_ID →
  page_ it = Some (page_id_ it) ∧ index_in_page_ it = 0 ∧ pages_ b' = pages_ b.
Proof.
  unfold Begin. intros Hb Hvalid.
  pose proof (FetchPage_pages (GetRootPageId t) b) as Hfp.
  destruct (FetchPage (GetRootPageId t) b) as [b1 [root|]]; [cbn [obind must fst] in *|done].
  destruct (descend_left fuel root b1) as [[leaf b2]| |] eqn:Hd; [cbn [obind] in Hb|done..].
  pose proof (descend_left_pages _ _ _ _ _ Hd) as Hdp.
  unfold IndexIterator_new in Hb. case_bool_decide as Hleaf.
  - pose proof (FetchPage_pages leaf b2) as Hgp.
    pose proof (FetchPage_ptr leaf b2) as Hptr.
    destruct (FetchPage leaf b2) as [b3 [q|]]; [cbn [obind must fst snd] in *|done].
    rewrite (Hptr q eq_refl) in Hb. injection Hb as <- <-. cbn [page_id_ page_ index_in_page_].
    split_and!; [done|done|congruence].
  - injection Hb as <- <-. cbn [page_id_] in Hvalid. by destruct Hleaf.
Qed.

(** X20. [Begin()] hands out an iterator on slot 0 of a leaf, and when it
    returns it has fetched two pages more than it has unpinned: the leaf
    is fetched once by the descent and once more by the constructor of
    the iterator, whose destructor unpins one page. *)
Theorem Begin_fetches_the_leaf_twice fuel t b it b' :
  Begin fuel t b = Ok (it, b') →
  page_id_ it ≠ INVALID_PAGE_ID →
  page_ it = Some (page_id_ it) ∧ index_in_page_ it = 0 ∧
  pages_ b' = pages_ b ∧
  pin_balance (calls_ b') = pin_balance (calls_ b) + 2 ∧
  pin_balance (calls_ (IndexIterator_delete it b')) = pin_balance (calls_ b) + 1.
Proof.
  unfold Begin. intros Hb Hvalid.
  pose proof (FetchPage_pages (GetRootPageId t) b) as Hfp.
  pose proof (FetchPage_calls (GetRootPageId t) b) as Hfc.
  destruct (FetchPage (GetRootPageId t) b) as [b1 [root|]]; [cbn [obind must fst] in *|done].
  destruct (descend_left fuel root b1) as [[leaf b2]| |] eqn:Hd; [cbn [obind] in Hb|done..].
  pose proof (descend_left_pages _ _ _ _ _ Hd) as Hdp.
  pose proof (descend_left_balance _ _ _ _ _ Hd) as Hdb.
  unfold IndexIterator_new in Hb. case_bool_decide as Hleaf.
  - pose proof (FetchPage_pages leaf b2) as Hgp.
    pose proof (FetchPage_calls leaf b2) as Hgc.
    pose proof (FetchPage_ptr leaf b2) as Hptr.
    destruct (FetchPage leaf b2) as [b3 [q|]]; [cbn [obind must fst snd] in *|done].
    rewrite (Hptr q eq_refl) in Hb. injection Hb as <- <-. cbn [page_id_ page_ index_in_page_].
    split_and!; [done|done|congruence| |].
    + rewrite Hgc. cbn [pin_balance]. rewrite Hdb, Hfc. cbn [pin_balance]. lia.
    + unfold IndexIterator_delete. rewrite UnpinPage_calls. cbn [pin_balance page_id_].
      rewrite Hgc. cbn [pin_balance]. rewrite Hdb, Hfc. cbn [pin_balance]. lia.
  - injection Hb as <- <-. cbn [page_id_] in Hvalid. by destruct Hleaf.
Qed.

Lemma scan_loop_mono fuel fuel' it b r :
  (fuel ≤ fuel')%nat → scan_loop fuel it b = Ok r → scan_loop fuel' it b = Ok r.
Proof.
  revert fuel' it b r. induction fuel as [|fuel IH]; intros fuel' it b r Hle Hs; [done|].
  destruct fuel' as [|fuel']; [lia|]. cbn [scan_loop] in *.
  destruct (End b) as [[e b0]| |]; [cbn [obind] in *|done..].
  destruct (iter_eq it e); [done|].
  destruct (deref it _) as [x| |]; [cbn [obind] in *|done..].
  destruct (incr it _) as [[it' b2]| |]; [cbn [obind] in *|done..].
  destruct (scan_loop fuel it' b2) as [[[xs it''] b3]| |] eqn:Hrec; [cbn [obind] in *|done..].
  rewrite (IH fuel' it' b2 _ ltac:(lia) Hrec). done.
Qed.

Lemma leaf_chain_pages (pages pages' : gmap Z Page) p ls :
  pages' = pages → leaf_chain pages p ls → leaf_chain pages' p ls.
Proof. by intros ->. Qed.

Lemma scan_loop_end b :
  scan_loop 1 (end_iterator) b
  = Ok ([], end_iterator, IndexIterator_delete end_iterator b).
Proof. done. Qed.

Lemma scan_loop_S fuel it b :
  scan_loop (S fuel) it b
  = ('(e, b0) ←! End b;
     let b1 := IndexIterator_delete e b0 in
     if iter_eq it e then Ok ([], it, b1)
     else
       x ←! deref it b1;
       '(it', b2) ←! incr it b1;
       '(xs, it'', b3) ←! scan_loop fuel it' b2;
       Ok (x :: xs, it'', b3)).
Proof. done. Qed.

(** One round of the loop on slot [i] of the leaf [p]. *)
Lemma scan_loop_step fuel p i b pg next a x :
  p ≠ INVALID_PAGE_ID →
  pages_ b !! p = Some pg → data_ pg = LeafData next a → a !! i = Some x →
  scan_loop (S fuel) {| page_id_ := p; page_ := Some p; index_in_page_ := Z.of_nat i |} b
  = ('(it', b2) ←!
       incr {| page_id_ := p; page_ := Some p; index_in_page_ := Z.of_nat i |}
         (IndexIterator_delete end_iterator b);
     '(xs, it'', b3) ←! scan_loop fuel it' b2;
     Ok (x :: xs, it'', b3)).
Proof.
  intros Hp Hpg Hdata Hx. rewrite scan_loop_S.
  change (End b) with (Ok (end_iterator, b)).
  cbn [obind]. cbv zeta.
  unfold iter_eq at 1. cbn [page_id_ index_in_page_ end_iterator].
  rewrite (bool_decide_eq_false_2 (p = INVALID_PAGE_ID)) by done. cbn [andb].
  unfold deref, leaf_of. cbn [page_ obind must index_in_page_].
  assert (read_page p (IndexIterator_delete end_iterator b) = Ok pg) as Hr
    by (by apply read_page_Ok).
  rewrite Hr. cbn [obind]. rewrite Hdata. cbn [obind].
  destruct (Z.ltb_spec (Z.of_nat i) 0) as [?|_]; [lia|].
  rewrite Nat2Z.id, Hx. cbn [must obind]. done.
Qed.

Lemma incr_leaf p i b pg next a :
  p ≠ INVALID_PAGE_ID →
  pages_ b !! p = Some pg → data_ pg = LeafData next a →
  incr {| page_id_ := p; page_ := Some p; index_in_page_ := Z.of_nat i |} b
  = if (S i <? length a)%nat
    then Ok ({| page_id_ := p; page_ := Some p; index_in_page_ := Z.of_nat (S i) |}, b)
    else if bool_decide (next = INVALID_PAGE_ID)
    then Ok (end_iterator, UnpinPage p false b)
    else let '(b1, ptr) := FetchPage next b in
         q ←! must ptr;
         Ok ({| page_id_ := next; page_ := Some q; index_in_page_ := 0 |},
             UnpinPage p false b1).
Proof.
  intros Hp Hpg Hdata. unfold incr, leaf_of. cbn [page_id_ page_ obind must index_in_page_].
  rewrite bool_decide_eq_false_2 by done.
  assert (read_page p b = Ok pg) as -> by (by apply read_page_Ok).
  cbn [obind]. rewrite Hdata. cbn [obind].
  destruct (Z.ltb_spec (Z.of_nat i) (Z.of_nat (length a) - 1)) as [Hlt|Hge];
    destruct (Nat.ltb_spec (S i) (length a)) as [Hlt'|Hge']; try lia.
  - by replace (Z.of_nat i + 1) with (Z.of_nat (S i)) by lia.
  - case_bool_decide as Hn; [by subst|done].
Qed.

Lemma scan_loop_chain ls :
  ∀ p b a i,
    leaf_chain (pages_ b) p (a :: ls) → (i < length a)%nat →
    ∃ b', scan_loop (S (length (drop i a ++ concat ls)))
            {| page_id_ := p; page_ := Some p; index_in_page_ := Z.of_nat i |} b
          = Ok (drop i a ++ concat ls, end_iterator, b') ∧
          pages_ b' = pages_ b.
Proof.
  induction ls as [|a2 ls IHls]; intros p b a i Hchain Hi.
  - (* the last leaf *)
    remember (length a - i)%nat as k eqn:Hk.
    revert i b Hchain Hi Hk. induction k as [|k IHk]; intros i b Hchain Hi Hk; [lia|].
    pose proof Hchain as (Hp & Hne & pg & next & Hpg & Hdata & Hnext). subst next.
    destruct (lookup_lt_is_Some_2 a i Hi) as [x Hx].
    rewrite (drop_S a x i Hx). cbn [concat app length]. rewrite app_nil_r.
    rewrite (scan_loop_step _ p i b pg INVALID_PAGE_ID a x) by done.
    rewrite (incr_leaf p i _ pg INVALID_PAGE_ID a) by done.
    destruct (Nat.ltb_spec (S i) (length a)) as [Hlt|Hge]; cbn [obind].
    + destruct (IHk (S i) (IndexIterator_delete end_iterator b)) as (b' & Hrec & Hpages);
        [done|lia|lia|].
      cbn [concat] in Hrec. rewrite app_nil_r in Hrec. rewrite Hrec. cbn [obind].
      exists b'. split; [done|]. by rewrite Hpages.
    + rewrite bool_decide_eq_true_2 by done. cbn [obind].
      assert (drop (S i) a = []) as -> by (apply drop_ge; lia).
      cbn [length]. rewrite scan_loop_end. cbn [obind].
      eexists. split; [done|]. done.
  - (* a leaf with a next leaf *)
    remember (length a - i)%nat as k eqn:Hk.
    revert i b Hchain Hi Hk. induction k as [|k IHk]; intros i b Hchain Hi Hk; [lia|].
    pose proof Hchain as (Hp & Hne & pg & next & Hpg & Hdata & Hnext).
    destruct (lookup_lt_is_Some_2 a i Hi) as [x Hx].
    rewrite (drop_S a x i Hx). cbn [app length].
    rewrite (scan_loop_step _ p i b pg next a x) by done.
    rewrite (incr_leaf p i _ pg next a) by done.
    destruct (Nat.ltb_spec (S i) (length a)) as [Hlt|Hge]; cbn [obind].
    + destruct (IHk (S i) (IndexIterator_delete end_iterator b)) as (b' & Hrec & Hpages);
        [done|lia|lia|].
      rewrite Hrec. cbn [obind].
      exists b'. split; [done|]. by rewrite Hpages.
    + assert (drop (S i) a = []) as -> by (apply drop_ge; lia).
      cbn [app].
      pose proof Hnext as (Hnp & Hne2 & pg2 & next2 & Hpg2 & _).
      rewrite bool_decide_eq_false_2 by done.
      set (b1 := IndexIterator_delete end_iterator b).
      pose proof (FetchPage_Some next b1 ltac:(by eexists)) as Hptr.
      pose proof (FetchPage_pages next b1) as Hfp.
      destruct (FetchPage next b1) as [b2 ptr]. cbn [fst snd] in *. subst ptr.
      cbn [obind must].
      destruct (IHls next (UnpinPage p false b2) a2 0%nat) as (b' & Hrec & Hpages).
      * eapply leaf_chain_pages; [|exact Hnext]. by rewrite UnpinPage_pages, Hfp.
      * destruct a2; [done|cbn; lia].
      * rewrite drop_0 in Hrec. cbn [concat]. change (Z.of_nat 0) with 0 in Hrec.
        rewrite Hrec. cbn [obind]. exists b'. split; [done|].
        by rewrite Hpages, UnpinPage_pages, Hfp.
Qed.

(** X21. A scan visits the leaf chain in order: when [Begin()] returns an
    iterator on a leaf from which the next-page ids lead through leaves
    that hold the entry lists [ls], none of them empty, the loop
    [for (it = Begin(); it != End(); ++it)] meets exactly the entries of
    [ls], leaf after leaf and slot after slot, and changes no page. *)
Theorem scan_visits_the_leaf_chain fuel t b it b1 ls :
  Begin fuel t b = Ok (it, b1) →
  leaf_chain (pages_ b) (page_id_ it) ls →
  (length (concat ls) < fuel)%nat →
  ∃ b2, scan fuel t b = Ok (concat ls, b2) ∧ pages_ b2 = pages_ b.
Proof.
  intros Hb Hchain Hfuel. destruct ls as [|a ls]; [done|].
  pose proof Hchain as (Hvalid & Hne & _).
  destruct (Begin_iterator_shape fuel t b it b1 Hb Hvalid) as (Hpage & Hidx & Hpages).
  destruct (scan_loop_chain ls (page_id_ it) b1 a 0%nat) as (b' & Hloop & Hpages').
  - eapply leaf_chain_pages; [|exact Hchain]. done.
  - destruct a; [done|cbn; lia].
  - rewrite drop_0 in Hloop. change (Z.of_nat 0) with 0 in Hloop.
    assert (it = {| page_id_ := page_id_ it; page_ := Some (page_id_ it);
                    index_in_page_ := 0 |}) as Hit.
    { destruct it as [pid pp idx]. cbn in *. by subst. }
    rewrite <- Hit in Hloop.
    apply (scan_loop_mono _ fuel) in Hloop; [|cbn [concat] in Hfuel; lia].
    unfold scan. rewrite Hb. cbn [obind]. rewrite Hloop. cbn [obind].
    eexists. split; [done|]. cbn [concat]. unfold IndexIterator_delete.
    by rewrite UnpinPage_pages, Hpages', Hpages.
Qed.


(** ** [GetValue] and [Remove] on any pool *)



(** X23. [Remove] removes nothing: a call that returns leaves the tree,
    its count of entries included, and every page as they were; on a tree
    without root it does not touch the pool at all, and otherwise all it
    has done is to fetch one page more than it has unpinned. *)
Theorem Remove_only_pins_a_leaf fuel key t b t' b' :
  Remove comparator_ fuel key t b = Ok (t', b') →
  t' = t ∧ pages_ b' = pages_ b ∧
  (GetRootPageId t = INVALID_PAGE_ID → b' = b) ∧
  (GetRootPageId t ≠ INVALID_PAGE_ID →
   pin_balance (calls_ b') = pin_balance (calls_ b) + 1).
Proof.
  intros Hr. destruct (Remove_changes_nothing _ _ _ _ _ _ _ Hr) as [-> Hp].
  split_and!; [done..| |].
  - intros Hroot. unfold Remove in Hr. rewrite bool_decide_eq_true_2 in Hr by done.
    by injection Hr as <-.
  - intros Hroot. by eapply Remove_leaves_a_pin.
Qed.

(** ** [Begin(key)] *)




(** ** The split of a leaf *)

Lemma insert_sorted_perm {X : Type} (e : KeyType * X) (a : list (KeyType * X)) :
  insert_sorted comparator_ e a ≡ₚ e :: a.
Proof.
  induction a as [|x a IH]; cbn [insert_sorted]; [done|].
  destruct (comparator_ x.1 e.1 <? 0); [|done].
  rewrite IH. apply Permutation_swap.
Qed.

Lemma sort_entries_perm {X : Type} (a : list (KeyType * X)) :
  sort_entries comparator_ a ≡ₚ a.
Proof.
  unfold sort_entries. induction a as [|x a IH]; cbn [foldr]; [done|].
  by rewrite insert_sorted_perm, IH.
Qed.

(** X25. The split of a full leaf loses no entry: the new page comes
    fresh from the pool, the old leaf keeps the lower [GetMinSize()]
    entries and the new leaf takes the others, together exactly the old
    entries and the new one; the new leaf is linked in between the old
    leaf and its former next leaf, and no other page changes. *)
Theorem leaf_split_keeps_the_entries t (e : KeyType * ValueType) bPage b pg next a :
  pages_ b !! bPage = Some pg →
  data_ pg = LeafData next a →
  Z.of_nat (length a) = leaf_max_size_ t →
  pages_ b !! next_free_id_ b = None →
  ∃ lo hi b',
    split_page comparator_ t (LeafEntry e) bPage b = Ok (next_free_id_ b, b') ∧
    pages_ b' !! bPage = Some (set_data pg (LeafData (next_free_id_ b) lo)) ∧
    data_ <$> pages_ b' !! next_free_id_ b = Some (LeafData next hi) ∧
    lo ++ hi ≡ₚ e :: a ∧
    Z.of_nat (length lo) = min_size_of (leaf_max_size_ t) ∧
    (∀ q, q ≠ bPage → q ≠ next_free_id_ b → pages_ b' !! q = pages_ b !! q).
Proof.
  intros Hpg Hdata Hlen Hfresh.
  assert (bPage ≠ next_free_id_ b) as Hne by (intros ->; congruence).
  set (tmpmap := sort_entries comparator_ (take (Z.to_nat (leaf_max_size_ t)) a ++ [e])).
  set (old_size := Z.to_nat (min_size_of (leaf_max_size_ t))).
  assert (tmpmap ≡ₚ e :: a) as Hperm.
  { unfold tmpmap. rewrite sort_entries_perm, take_ge by lia.
    by rewrite <- Permutation_cons_append. }
  assert (old_size ≤ length tmpmap)%nat as Hsize.
  { rewrite Hperm. cbn [length]. unfold old_size, min_size_of.
    assert ((leaf_max_size_ t + 1) / 2 ≤ leaf_max_size_ t + 1)
      by (apply Z.div_le_upper_bound; lia).
    lia. }
  exists (take old_size tmpmap), (drop old_size tmpmap). eexists. split_and!.
  - unfold split_page. apply read_page_Ok in Hpg. rewrite Hpg. cbn [obind]. rewrite Hdata.
    cbn [NewPage]. cbv zeta. cbn [GetMinSize Leaf_Init max_size_].
    destruct (Z.ltb_spec (Z.of_nat (length a)) (leaf_max_size_ t)) as [?|_]; [lia|].
    fold tmpmap. fold old_size. reflexivity.
  - cbn [write_page pages_]. by rewrite lookup_insert_eq.
  - cbn [write_page pages_]. rewrite lookup_insert_ne by done.
    by rewrite lookup_insert_eq.
  - by rewrite take_drop.
  - rewrite length_take. unfold old_size in *.
    assert (0 ≤ min_size_of (leaf_max_size_ t)) by (apply Z.div_pos; lia). lia.
  - intros q Hq1 Hq2. cbn [write_page pages_].
    by rewrite !lookup_insert_ne.
Qed.

End More.

(** ** Keys in order *)

Section Ranked.

Context {KeyType ValueType : Type}.
Variable comparator_ : KeyType → KeyType → Z.
Variable blank_key : KeyType.
Variable rank : KeyType → Z.
Hypothesis Hrank : ranked comparator_ rank.

Abbreviation Pool := (@BufferPoolManager KeyType ValueType).
Abbreviation Page := (@BPlusTreePage KeyType ValueType).

Implicit Types (b c : Pool) (t : BPlusTree) (p q leaf : page_id_t) (pg : Page).

(** ** Sorted entries *)

Lemma ranked_lt x y : (comparator_ x y <? 0) = (rank x <? rank y).
Proof.
  destruct (Hrank x y) as [Hlt _].
  destruct (Z.ltb_spec (comparator_ x y) 0), (Z.ltb_spec (rank x) (rank y)); try done; lia.
Qed.

Lemma ranked_eq x y : (comparator_ x y =? 0) = (rank x =? rank y).
Proof.
  destruct (Hrank x y) as [_ Heq].
  destruct (Z.eqb_spec (comparator_ x y) 0), (Z.eqb_spec (rank x) (rank y)); try done; tauto.
Qed.





(** The search of a leaf finds the entry of the rank of the key. *)
Lemma leaf_search_None key (a : list (KeyType * ValueType)) :
  leaf_search comparator_ key a = None ↔ Forall (λ x, rank x.1 ≠ rank key) a.
Proof.
  induction a as [|[k v] a IH]; cbn [leaf_search]; [by split; [constructor|]|].
  rewrite ranked_eq, Forall_cons. cbn [fst].
  destruct (Z.eqb_spec (rank k) (rank key)) as [Heq|Hne]; [|tauto].
  split; [done|]. by intros [? _].
Qed.





(** ** The insertion into a leaf *)

Lemma insert_upper_perm {X : Type} (e : KeyType * X) (a : list (KeyType * X)) :
  insert_upper comparator_ e a ≡ₚ e :: a.
Proof.
  induction a as [|x a IH]; cbn [insert_upper]; [done|].
  destruct (comparator_ e.1 x.1 <? 0); [done|].
  rewrite IH. apply Permutation_swap.
Qed.

Lemma insert_upper_ascend {X : Type} (e : KeyType * X) (a : list (KeyType * X)) :
  keys_ascend rank a →
  Forall (λ x, rank x.1 ≠ rank e.1) a →
  keys_ascend rank (insert_upper comparator_ e a).
Proof.
  unfold keys_ascend. induction 1 as [|x a Hs IH Hall]; intros Hne; cbn [insert_upper].
  - repeat constructor.
  - apply Forall_cons in Hne as [Hx Hne]. rewrite ranked_lt.
    destruct (Z.ltb_spec (rank e.1) (rank x.1)) as [Hlt|Hge].
    + constructor; [by constructor|]. constructor; [done|].
      eapply Forall_impl; [exact Hall|]. cbn. intros y Hy. lia.
    + constructor; [by apply IH|]. rewrite insert_upper_perm.
      constructor; [lia|exact Hall].
Qed.

(** X29. [SimpleInsert] keeps a leaf in order.  With keys ordered by the
    comparator as integers are, on a leaf whose entries ascend and that
    does not hold the key, [SimpleInsert] writes the pair into the leaf
    at the place that keeps the entries ascending, adds nothing else and
    drops nothing, unpins the leaf as dirty, and changes no other
    page. *)
Theorem SimpleInsert_keeps_the_leaf_sorted key value p b pg next a :
  pages_ b !! p = Some pg →
  data_ pg = LeafData next a →
  keys_ascend rank a →
  leaf_search comparator_ key a = None →
  ∃ b' a',
    SimpleInsert comparator_ (LeafEntry (key, value)) p b = Ok b' ∧
    pages_ b' = <[p := set_data pg (LeafData next a')]> (pages_ b) ∧
    keys_ascend rank a' ∧
    a' ≡ₚ (key, value) :: a ∧
    calls_ b' = CallUnpin p true :: calls_ b.
Proof.
  intros Hpg Hdata Hasc Habsent.
  exists (UnpinPage p true
            (write_page p (set_data pg (LeafData next
               (insert_upper comparator_ (key, value) a))) b)),
         (insert_upper comparator_ (key, value) a).
  split_and!.
  - unfold SimpleInsert. apply read_page_Ok in Hpg. rewrite Hpg. cbn [obind].
    rewrite Hdata. by rewrite insert_upper_nil.
  - done.
  - apply insert_upper_ascend; [done|]. by apply leaf_search_None.
  - apply insert_upper_perm.
  - done.
Qed.

(** ** The split of a root leaf *)










End Ranked.

(** ** The properties at concrete trees *)

Lemma Insert_counts_the_entries_witness :
  ∃ t', cur_size_ t' = cur_size_ (tree_of tree_7) + 1 ∧
        index_name_ t' = index_name_ (tree_of tree_7) ∧
        leaf_max_size_ t' = leaf_max_size_ (tree_of tree_7) ∧
        internal_max_size_ t' = internal_max_size_ (tree_of tree_7).
Proof.
  set (t := tree_of tree_7). set (b := pool_of tree_7).
  set (r := EHTSpec.state_of (Insert int_comparator 0 20 8 80 t b) (false, t, b)).
  assert (Insert int_comparator 0 20 8 80 t b = Ok (true, r.1.2, r.2)) as Hi
    by (vm_compute; reflexivity).
  exists r.1.2.
  exact (Insert_counts_the_entries int_comparator 0 20 8 80 t b true r.1.2 r.2 Hi).
Defined.




Lemma Begin_fetches_the_leaf_twice_witness :
  ∃ it b',
    Begin 20 (tree_of tree_1_to_10) (pool_of tree_1_to_10) = Ok (it, b') ∧
    page_ it = Some (page_id_ it) ∧ index_in_page_ it = 0 ∧
    pages_ b' = pages_ (pool_of tree_1_to_10) ∧
    pin_balance (calls_ b') = pin_balance (calls_ (pool_of tree_1_to_10)) + 2 ∧
    pin_balance (calls_ (IndexIterator_delete it b'))
    = pin_balance (calls_ (pool_of tree_1_to_10)) + 1.
Proof.
  set (t := tree_of tree_1_to_10). set (b := pool_of tree_1_to_10).
  set (r := EHTSpec.state_of (Begin 20 t b) (end_iterator, b)).
  assert (Begin 20 t b = Ok (r.1, r.2)) as Hb by (vm_compute; reflexivity).
  assert (page_id_ r.1 ≠ INVALID_PAGE_ID) as Hv by (vm_compute; discriminate).
  exists r.1, r.2. split; [exact Hb|].
  exact (Begin_fetches_the_leaf_twice 20 t b r.1 r.2 Hb Hv).
Defined.

Lemma scan_visits_the_leaf_chain_witness :
  ∃ b2, scan 20 (tree_of tree_1_to_10) (pool_of tree_1_to_10)
        = Ok ([(1, 10); (2, 20); (3, 30); (4, 40); (5, 50); (6, 60); (7, 70); (8, 80);
               (9, 90); (10, 100)], b2) ∧
        pages_ b2 = pages_ (pool_of tree_1_to_10).
Proof.
  set (t := tree_of tree_1_to_10). set (b := pool_of tree_1_to_10).
  set (r := EHTSpec.state_of (Begin 20 t b) (end_iterator, b)).
  assert (Begin 20 t b = Ok (r.1, r.2)) as Hb by (vm_compute; reflexivity).
  apply (scan_visits_the_leaf_chain 20 t b r.1 r.2
           [[(1, 10); (2, 20)]; [(3, 30); (4, 40)]; [(5, 50); (6, 60)];
            [(7, 70); (8, 80); (9, 90); (10, 100)]] Hb).
  - split; [vm_compute; discriminate|]. split; [discriminate|].
    eexists _, _. split; [vm_compute; reflexivity|]. split; [reflexivity|].
    split; [vm_compute; discriminate|]. split; [discriminate|].
    eexists _, _. split; [vm_compute; reflexivity|]. split; [reflexivity|].
    split; [vm_compute; discriminate|]. split; [discriminate|].
    eexists _, _. split; [vm_compute; reflexivity|]. split; [reflexivity|].
    split; [vm_compute; discriminate|]. split; [discriminate|].
    eexists _, _. split; [vm_compute; reflexivity|]. split; reflexivity.
  - vm_compute. lia.
Defined.


Lemma Remove_only_pins_a_leaf_witness :
  ∃ b',
    Remove int_comparator 20 7 (tree_of tree_1_to_10) (pool_of tree_1_to_10)
      = Ok (tree_of tree_1_to_10, b') ∧
    pages_ b' = pages_ (pool_of tree_1_to_10) ∧
    (GetRootPageId (tree_of tree_1_to_10) ≠ INVALID_PAGE_ID →
     pin_balance (calls_ b') = pin_balance (calls_ (pool_of tree_1_to_10)) + 1).
Proof.
  set (t := tree_of tree_1_to_10). set (b := pool_of tree_1_to_10).
  set (r := EHTSpec.state_of (Remove int_comparator 20 7 t b) (t, b)).
  assert (Remove int_comparator 20 7 t b = Ok (t, r.2)) as Hr by (vm_compute; reflexivity).
  exists r.2. split; [exact Hr|].
  destruct (Remove_only_pins_a_leaf int_comparator 20 7 t b t r.2 Hr) as (_ & Hp & _ & Hb).
  split; [exact Hp|exact Hb].
Defined.


Lemma leaf_split_keeps_the_entries_witness :
  ∃ lo hi b',
    split_page int_comparator (tree_of tree_1_to_4) (LeafEntry (5, 50)) 1
      (pool_of tree_1_to_4) = Ok (2, b') ∧
    data_ <$> pages_ b' !! 1 = Some (LeafData 2 lo) ∧
    data_ <$> pages_ b' !! 2 = Some (LeafData INVALID_PAGE_ID hi) ∧
    lo ++ hi ≡ₚ [(5, 50); (1, 10); (2, 20); (3, 30); (4, 40)] ∧
    Z.of_nat (length lo) = 2.
Proof.
  set (t := tree_of tree_1_to_4). set (b := pool_of tree_1_to_4).
  set (pg := default (Leaf_Init INVALID_PAGE_ID 4) (pages_ b !! 1)).
  destruct (leaf_split_keeps_the_entries int_comparator t (5, 50) 1 b pg INVALID_PAGE_ID
              [(1, 10); (2, 20); (3, 30); (4, 40)])
    as (lo & hi & b' & Hs & Hold & Hnew & Hperm & Hlen & _).
  - vm_compute. reflexivity.
  - vm_compute. reflexivity.
  - vm_compute. reflexivity.
  - vm_compute. reflexivity.
  - assert (next_free_id_ b = 2) as Hn by (vm_compute; reflexivity).
    rewrite Hn in Hs, Hold, Hnew.
    exists lo, hi, b'. split; [exact Hs|].
    split; [exact (f_equal (fmap data_) Hold)|].
    split; [exact Hnew|]. split; [exact Hperm|exact Hlen].
Defined.

Lemma SimpleInsert_keeps_the_leaf_sorted_witness :
  ∃ b' a',
    SimpleInsert int_comparator (LeafEntry (3, 30)) 1 (pool_of tree_7) = Ok b' ∧
    pages_ b'
    = <[1 := set_data (default (Leaf_Init INVALID_PAGE_ID 4) (pages_ (pool_of tree_7) !! 1))
               (LeafData INVALID_PAGE_ID a')]> (pages_ (pool_of tree_7)) ∧
    keys_ascend (λ x, x) a' ∧
    a' ≡ₚ [(3, 30); (7, 70)] ∧
    calls_ b' = CallUnpin 1 true :: calls_ (pool_of tree_7).
Proof.
  apply (SimpleInsert_keeps_the_leaf_sorted int_comparator (λ x, x)).
  - intros x y. unfold int_comparator. destruct (Z.compare_spec x y); lia.
  - vm_compute. reflexivity.
  - vm_compute. reflexivity.
  - repeat constructor.
  - vm_compute. reflexivity.
Defined.


End BPTMore.
